(** * Production scheduler: a shallow embedding of the scheduling engine

    The development follows [src/core/scheduler.ts] and [src/util/timeUtils.ts].

    Conventions of the embedding:
    - a JavaScript [number] is an integer ([Z]): minute offsets, durations and
      changeover minutes.  Sums, differences and comparisons of integers are
      exact in the source as long as the values stay within the safe range
      ([|n| ≤ 2^53 - 1]); a statement about a function taken alone carries
      the bound where its result depends on it.  The one place where the
      source divides (the utilisation percentage) is computed in binary64,
      as the source does;
    - an ISO-8601 timestamp is the instant it denotes, in epoch milliseconds
      (what [parseISO(s).getTime()] returns), within the range of [Date];
    - a JavaScript [Map] is an insertion-ordered association list with unique
      keys ([JsMap]); a plain object used as a [Record<string, number>] is a
      [gmap string Z] read and written through [objectGetOrZero] and
      [objectSet], which account for the members it inherits from
      [Object.prototype]; a [Set<string>] is a [gset string];
    - an array is a [list]; [Array.prototype.sort] is a stable sort;
    - objects that the source mutates through several references (the pooled
      operations) are addressed by their position in the pool. *)

From Stdlib Require SpecFloat.
From stdpp Require Import base numbers list sorting strings gmap pretty.

Local Open Scope Z_scope.

#[local] Set Warnings "-clear-no-such-hyp".

(** ** JavaScript containers *)

Module JsMap.

Definition t (V : Type) : Type := list (string * V).

Definition empty {V} : t V := [].

Fixpoint get {V} (k : string) (m : t V) : option V :=
  match m with
  | [] => None
  | (k', v) :: m' => if decide (k' = k) then Some v else get k m'
  end.

(** [set] on a present key replaces the value where the key already sits;
    a fresh key goes to the end. *)
Fixpoint set {V} (k : string) (v : V) (m : t V) : t V :=
  match m with
  | [] => [(k, v)]
  | (k', v') :: m' =>
      if decide (k' = k) then (k, v) :: m' else (k', v') :: set k v m'
  end.

Definition has {V} (k : string) (m : t V) : bool :=
  match get k m with Some _ => true | None => false end.

Definition keys {V} (m : t V) : list string := m.*1.
Definition values {V} (m : t V) : list V := m.*2.
Definition entries {V} (m : t V) : list (string * V) := m.

(** [new Map(pairs)] *)
Definition ofList {V} (kvs : list (string * V)) : t V :=
  fold_left (λ m kv, set kv.1 kv.2 m) kvs empty.

End JsMap.

(** [Array.prototype.sort(cmp)]: stable, ascending for the comparator. *)
Fixpoint sortInsert {A} (cmp : A → A → Z) (x : A) (l : list A) : list A :=
  match l with
  | [] => [x]
  | y :: l' => if decide (cmp x y ≤ 0) then x :: l else y :: sortInsert cmp x l'
  end.

Definition arraySort {A} (cmp : A → A → Z) (l : list A) : list A :=
  foldr (sortInsert cmp) [] l.

(** The first element after sorting, computed directly: the leftmost
    element that no other element beats. *)
Fixpoint firstMin {A} (cmp : A → A → Z) (l : list A) : option A :=
  match l with
  | [] => None
  | x :: l' =>
      match firstMin cmp l' with
      | None => Some x
      | Some m => if decide (cmp x m ≤ 0) then Some x else Some m
      end
  end.

(** A JavaScript number that may be [Infinity]. *)
Inductive num : Type :=
  | Fin (z : Z)
  | Infinity.

Definition num_lt (a b : num) : bool :=
  match a, b with
  | Fin x, Fin y => bool_decide (x < y)
  | Fin _, Infinity => true
  | Infinity, _ => false
  end.

Definition num_eq (a b : num) : bool :=
  match a, b with
  | Fin x, Fin y => bool_decide (x = y)
  | Infinity, Infinity => true
  | _, _ => false
  end.

(** ** Types ([src/types/index.ts]) *)

Definition Timestamp : Type := Z.

Record Horizon : Type := mkHorizon { h_start : Timestamp; h_end : Timestamp }.

Record Resource : Type := mkResource {
  r_id : string;
  r_capabilities : list string;
  r_calendar : list (Timestamp * Timestamp)
}.

Record Operation : Type := mkOperation {
  op_capability : string;
  duration_minutes : Z
}.

Record Product : Type := mkProduct {
  p_id : string;
  p_family : string;
  p_due : Timestamp;
  p_route : list Operation
}.

Record Settings : Type := mkSettings { time_limit_seconds : Z }.

Record Input : Type := mkInput {
  horizon : Horizon;
  resources : list Resource;
  changeover_matrix_minutes : gmap string Z;
  products : list Product;
  settings : option Settings
}.

Record Assignment : Type := mkAssignment {
  out_product : string;
  out_operation : string;
  out_resource : string;
  out_start : Timestamp;
  out_end : Timestamp
}.

(** A utilisation figure is [None] when the source computes [NaN]. *)
Record KPIs : Type := mkKPIs {
  tardiness_minutes : Z;
  changeovers : Z;
  makespan_minutes : Z;
  utilization : gmap string (option Z);
  on_time_jobs : Z;
  total_jobs : Z
}.

Inductive ScheduleResult : Type :=
  | Success (assignments : list Assignment) (kpis : KPIs)
  | Failure (error : string) (why : list string).

Record NormalizedInterval : Type := mkInterval { i_start : Z; i_end : Z }.

Record NormalizedResource : Type := mkNormalizedResource {
  nr_id : string;
  nr_capabilities : gset string;
  nr_calendar : list NormalizedInterval
}.

Record NormalizedProduct : Type := mkNormalizedProduct {
  np_id : string;
  np_family : string;
  np_due : Z;
  np_route : list Operation
}.

Record SchedulableOperation : Type := mkSchedulableOperation {
  productId : string;
  productFamily : string;
  stepIndex : nat;
  capability : string;
  duration : Z;
  productDue : Z;
  earliestStart : Z
}.

Record InternalAssignment : Type := mkInternalAssignment {
  a_productId : string;
  a_productFamily : string;
  a_stepIndex : nat;
  a_operationName : string;
  a_resource : string;
  a_start : Z;
  a_end : Z
}.

Record ResourceState : Type := mkResourceState {
  lastFamily : option string;
  rs_assignments : list InternalAssignment
}.

Definition set_earliestStart (op : SchedulableOperation) (v : Z) : SchedulableOperation :=
  {| productId := productId op; productFamily := productFamily op;
     stepIndex := stepIndex op; capability := capability op;
     duration := duration op; productDue := productDue op;
     earliestStart := v |}.

(** ** Time and interval utilities ([src/util/timeUtils.ts]) *)

Definition parseIsoOffset (isoString horizonStart : Timestamp) : Z :=
  (isoString - horizonStart) `div` 60000.

(** [addMinutes(startTime, minutes).toISOString()].  The source throws a
    [RangeError] when the instant leaves the range of [Date]
    ([±8.64e15] ms); [schedule] formats offsets of assignments only, which
    for a request that passes the schema lie between the start and the end
    of the horizon (lemma [schedule_output_instants]). *)
Definition formatIsoOffset (minutes : Z) (horizonStart : Timestamp) : Timestamp :=
  horizonStart + minutes * 60000.

Definition byStart (a b : NormalizedInterval) : Z := i_start a - i_start b.

Definition parseCalendarWindows (calendar : list (Timestamp * Timestamp))
    (horizonStart : Timestamp) : list NormalizedInterval :=
  let parsed :=
    map (λ se, {| i_start := parseIsoOffset se.1 horizonStart;
                  i_end := parseIsoOffset se.2 horizonStart |}) calendar in
  arraySort byStart parsed.

Definition doIntervalsOverlap (a b : NormalizedInterval) : bool :=
  bool_decide (i_start a < i_end b) && bool_decide (i_start b < i_end a).

(** One round of the loop of [combineOverlappingIntervals].  [combined] is
    never empty there; were it empty, reading [last.end] would throw. *)
Definition combineStep (combined : list NormalizedInterval)
    (current : NormalizedInterval) : list NormalizedInterval :=
  match last combined with
  | Some lst =>
      if decide (i_start current ≤ i_end lst) then
        <[ pred (length combined) :=
             {| i_start := i_start lst;
                i_end := Z.max (i_end lst) (i_end current) |} ]> combined
      else combined ++ [current]
  | None => combined
  end.

Definition combineOverlappingIntervals (intervals : list NormalizedInterval)
    : list NormalizedInterval :=
  if decide (length intervals = 0%nat) then []
  else
    match arraySort byStart intervals with
    | [] => []
    | first :: rest => fold_left combineStep rest [first]
    end.

Definition isWithinCalendarWindow (start end_ : Z)
    (calendar : list NormalizedInterval) : bool :=
  existsb (λ window, bool_decide (start >= i_start window)
                     && bool_decide (end_ ≤ i_end window)) calendar.

(** ** The scheduling engine ([src/core/scheduler.ts]) *)

Record Normalized : Type := mkNormalized {
  horizonStart : Timestamp;
  horizonEnd : Z;
  n_resources : JsMap.t NormalizedResource;
  n_products : list NormalizedProduct;
  changeoverMatrix : gmap string Z
}.

Definition clipWindow (horizonEnd : Z) (w : NormalizedInterval) : NormalizedInterval :=
  {| i_start := Z.max 0 (i_start w); i_end := Z.min horizonEnd (i_end w) |}.

Definition normalizeResource (horizonStart : Timestamp) (horizonEnd : Z)
    (r : Resource) : NormalizedResource :=
  let raw := parseCalendarWindows (r_calendar r) horizonStart in
  let merged :=
    filter (λ w, i_end w > i_start w)
           (map (clipWindow horizonEnd) (combineOverlappingIntervals raw)) in
  {| nr_id := r_id r;
     nr_capabilities := list_to_set (r_capabilities r);
     nr_calendar := merged |}.

Definition normalizeProduct (horizonStart : Timestamp) (p : Product) : NormalizedProduct :=
  {| np_id := p_id p;
     np_family := p_family p;
     np_due := parseIsoOffset (p_due p) horizonStart;
     np_route := p_route p |}.

Definition normalizeInput (input : Input) : Normalized :=
  let horizonStart := h_start (horizon input) in
  let horizonEnd := parseIsoOffset (h_end (horizon input)) horizonStart in
  {| horizonStart := horizonStart;
     horizonEnd := horizonEnd;
     n_resources :=
       fold_left (λ m r, JsMap.set (r_id r) (normalizeResource horizonStart horizonEnd r) m)
                 (resources input) JsMap.empty;
     n_products := map (normalizeProduct horizonStart) (products input);
     changeoverMatrix := changeover_matrix_minutes input |}.

Definition mkOp (product : NormalizedProduct) (stepIndex : nat) (op : Operation)
    : SchedulableOperation :=
  {| productId := np_id product;
     productFamily := np_family product;
     stepIndex := stepIndex;
     capability := op_capability op;
     duration := duration_minutes op;
     productDue := np_due product;
     earliestStart := 0 |}.

Definition buildOperationsList (products : list NormalizedProduct)
    : list SchedulableOperation :=
  products ≫= (λ product, imap (mkOp product) (np_route product)).

(** The readiness filter of [selectNextOperation]. *)
Definition isReady (assignments : JsMap.t (list InternalAssignment))
    (op : SchedulableOperation) : bool :=
  if decide (stepIndex op = 0%nat) then true
  else
    let productAssignments := default [] (JsMap.get (productId op) assignments) in
    let priorStep :=
      list_find (λ a, a_stepIndex a = (stepIndex op - 1)%nat) productAssignments in
    match priorStep with Some _ => true | None => false end.

(** [product.route.slice(stepIndex).reduce(...)].  The source reads the
    product through a non-null assertion; [schedule] builds the map from the
    very products the pool was flattened from, so the lookup is always
    defined there (lemma [productsMap_complete]). *)
Definition remainingWork (product : option NormalizedProduct) (fromStep : nat) : Z :=
  match product with
  | Some p =>
      fold_left (λ sum op, sum + duration_minutes op) (drop fromStep (np_route p)) 0
  | None => 0
  end.

Definition slack (productsMap : JsMap.t NormalizedProduct)
    (op : SchedulableOperation) : Z :=
  productDue op - earliestStart op
  - remainingWork (JsMap.get (productId op) productsMap) (stepIndex op).

(** The comparator handed to [ready.sort]. *)
Definition comparePriority (productsMap : JsMap.t NormalizedProduct)
    (a b : SchedulableOperation) : Z :=
  if decide (productDue a ≠ productDue b) then productDue a - productDue b
  else
    let slackA := slack productsMap a in
    let slackB := slack productsMap b in
    if decide (slackA ≠ slackB) then slackA - slackB
    else duration a - duration b.

(** The result is a reference to a pooled object: it comes with its position
    in [unscheduled]. *)
Definition selectNextOperation (unscheduled : list SchedulableOperation)
    (assignments : JsMap.t (list InternalAssignment))
    (productsMap : JsMap.t NormalizedProduct)
    : option (nat * SchedulableOperation) :=
  let ready :=
    filter (λ iop, isReady assignments iop.2 = true) (imap pair unscheduled) in
  if decide (length ready = 0%nat) then None
  else head (arraySort (λ a b, comparePriority productsMap a.2 b.2) ready).

Definition getEligibleResources (operation : SchedulableOperation)
    (resources : JsMap.t NormalizedResource) : list NormalizedResource :=
  filter (λ resource, capability operation ∈ nr_capabilities resource)
         (JsMap.values resources).

Definition getChangeoverTime (lastFamily : option string) (nextFamily : string)
    (matrix : gmap string Z) : Z :=
  match lastFamily with
  | None => 0
  | Some f =>
      if decide (f = "") then 0
      else default 0 (matrix !! (f +:+ "->" +:+ nextFamily))
  end.

Record Placement : Type := mkPlacement {
  pl_resource : string;
  pl_start : Z;
  pl_end : Z
}.

Record NearMiss : Type := mkNearMiss {
  nm_resource : string;
  nm_reason : string
}.

(** The mutable locals of [tryPlaceOperation]. *)
Record Search : Type := mkSearch {
  bestPlacement : option Placement;
  bestProjectedTardiness : num;
  earliestEnd : num;
  bestNear : option NearMiss;
  largestGap : Z
}.

Definition initialSearch : Search :=
  {| bestPlacement := None; bestProjectedTardiness := Infinity;
     earliestEnd := Infinity; bestNear := None; largestGap := 0 |}.

(** Body of the innermost loop: the gap in front of [sorted[i]]. *)
Definition tryGap (operation : SchedulableOperation) (matrix : gmap string Z)
    (resource : NormalizedResource) (sorted : list InternalAssignment)
    (window : NormalizedInterval) (acc : Search) (i : nat) : Search :=
  let prevAssignment := match i with O => None | S j => sorted !! j end in
  let nextAssignment := sorted !! i in
  let gapStart :=
    Z.max (earliestStart operation)
          (match prevAssignment with
           | Some p => a_end p
           | None => i_start window
           end) in
  let gapEnd :=
    Z.min (i_end window)
          (match nextAssignment with
           | Some n => a_start n
           | None => i_end window
           end) in
  if decide (gapEnd ≤ gapStart) then acc
  else
    let prevFamily := a_productFamily <$> prevAssignment in
    let changeoverTime :=
      getChangeoverTime prevFamily (productFamily operation) matrix in
    let start := gapStart + changeoverTime in
    let end_ := start + duration operation in
    if decide (start >= gapStart ∧ end_ ≤ gapEnd) then
      let projectedTardiness := Z.max 0 (end_ - productDue operation) in
      if num_lt (Fin projectedTardiness) (bestProjectedTardiness acc)
         || (num_eq (Fin projectedTardiness) (bestProjectedTardiness acc)
             && num_lt (Fin end_) (earliestEnd acc))
      then
        {| bestPlacement :=
             Some {| pl_resource := nr_id resource; pl_start := start; pl_end := end_ |};
           bestProjectedTardiness := Fin projectedTardiness;
           earliestEnd := Fin end_;
           bestNear := bestNear acc;
           largestGap := largestGap acc |}
      else acc
    else
      let gap := gapEnd - gapStart in
      let needed := changeoverTime + duration operation in
      if decide (gap > largestGap acc) then
        {| bestPlacement := bestPlacement acc;
           bestProjectedTardiness := bestProjectedTardiness acc;
           earliestEnd := earliestEnd acc;
           bestNear :=
             Some {| nm_resource := nr_id resource;
                     nm_reason :=
                       "largest gap " +:+ pretty gap +:+ "min < needed "
                       +:+ pretty needed +:+ "min (changeover "
                       +:+ pretty changeoverTime +:+ "min)" |};
           largestGap := gap |}
      else acc.

Definition tryWindow (operation : SchedulableOperation) (matrix : gmap string Z)
    (resource : NormalizedResource) (sorted : list InternalAssignment)
    (acc : Search) (window : NormalizedInterval) : Search :=
  if decide (i_end window ≤ earliestStart operation) then acc
  else
    fold_left (tryGap operation matrix resource sorted window)
              (seq 0 (S (length sorted))) acc.

(** [resourceStates.get(resource.id)!]: every eligible resource has a state
    (lemma [resourceStates_keys]); the [None] branch stands for the
    [TypeError] the source would raise otherwise. *)
Definition tryResource (operation : SchedulableOperation) (matrix : gmap string Z)
    (resourceStates : JsMap.t ResourceState)
    (acc : Search) (resource : NormalizedResource) : Search :=
  match JsMap.get (nr_id resource) resourceStates with
  | Some state =>
      fold_left (tryWindow operation matrix resource (rs_assignments state))
                (nr_calendar resource) acc
  | None => acc
  end.

Definition tryPlaceOperation (operation : SchedulableOperation)
    (eligibleResources : list NormalizedResource)
    (resourceStates : JsMap.t ResourceState)
    (changeoverMatrix : gmap string Z) : option Placement * option NearMiss :=
  let final :=
    fold_left (tryResource operation changeoverMatrix resourceStates)
              eligibleResources initialSearch in
  (bestPlacement final, bestNear final).

Definition byAssignmentStart (a b : InternalAssignment) : Z := a_start a - a_start b.

Definition updateResourceState (state : ResourceState)
    (assignment : InternalAssignment) : ResourceState :=
  {| lastFamily := Some (a_productFamily assignment);
     rs_assignments :=
       arraySort byAssignmentStart (rs_assignments state ++ [assignment]) |}.

(** *** Result compilation *)

Fixpoint adjacentPairs {A} (l : list A) : list (A * A) :=
  match l with
  | x :: l' =>
      match l' with
      | y :: _ => (x, y) :: adjacentPairs l'
      | [] => []
      end
  | [] => []
  end.

Definition changeoverMinutes (matrix : gmap string Z)
    (list : list InternalAssignment) : Z :=
  let sorted := arraySort byAssignmentStart list in
  fold_left
    (λ total pr,
       if decide (a_productFamily pr.1 ≠ a_productFamily pr.2) then
         total + default 0 (matrix !! (a_productFamily pr.1 +:+ "->" +:+ a_productFamily pr.2))
       else total)
    (adjacentPairs sorted) 0.

(** A plain object created by [{}] and used as a [Record<string, number>]
    inherits the members of [Object.prototype]. *)
Definition objectPrototypeKeys : list string :=
  [ "constructor"; "__defineGetter__"; "__defineSetter__"; "hasOwnProperty";
    "__lookupGetter__"; "__lookupSetter__"; "isPrototypeOf";
    "propertyIsEnumerable"; "toString"; "valueOf"; "__proto__";
    "toLocaleString" ].

(** [obj[key] = v] for a number [v]: the setter of [__proto__] ignores a
    value that is not an object, so nothing is stored under that key. *)
Definition objectSet {V} (key : string) (v : V) (obj : gmap string V) : gmap string V :=
  if decide (key = "__proto__") then obj else <[ key := v ]> obj.

(** [obj[key] ?? 0]: an own member, else an inherited one, which is not a
    number ([None]), else 0. *)
Definition objectGetOrZero (obj : gmap string Z) (key : string) : option Z :=
  match obj !! key with
  | Some v => Some v
  | None => if decide (key ∈ objectPrototypeKeys) then None else Some 0
  end.

Definition computeChangeoverMinutesPerResource
    (resourceMap : JsMap.t (list InternalAssignment))
    (matrix : gmap string Z) : gmap string Z :=
  fold_left (λ result e, objectSet e.1 (changeoverMinutes matrix e.2) result)
            (JsMap.entries resourceMap) ∅.

Definition countChangeovers (list : list InternalAssignment) : Z :=
  let sorted := arraySort byAssignmentStart list in
  fold_left
    (λ n pr, if decide (a_productFamily pr.1 ≠ a_productFamily pr.2) then n + 1 else n)
    (adjacentPairs sorted) 0.

Definition groupByResource (assignments : list InternalAssignment)
    : JsMap.t (list InternalAssignment) :=
  fold_left
    (λ resourceMap a,
       let m := if JsMap.has (a_resource a) resourceMap then resourceMap
                else JsMap.set (a_resource a) [] resourceMap in
       JsMap.set (a_resource a) (default [] (JsMap.get (a_resource a) m) ++ [a]) m)
    assignments JsMap.empty.

(** The binary64 number nearest to an integer. *)
Definition toDouble (z : Z) : SpecFloat.spec_float :=
  SpecFloat.binary_normalize 53 1024 z 0 false.

(** [Math.round]: the nearest integer, halves upwards; [None] for [NaN] and
    the infinities. *)
Definition mathRound (x : SpecFloat.spec_float) : option Z :=
  match x with
  | SpecFloat.S754_zero _ => Some 0
  | SpecFloat.S754_finite s m e =>
      let v := if s then Z.neg m else Z.pos m in
      Some (if decide (0 ≤ e) then v * 2 ^ e
            else (2 * v + 2 ^ (- e)) `div` 2 ^ (1 - e))
  | _ => None
  end.

(** [Math.round((busyTime / Math.max(availableMinutes, 1)) * 100)], with the
    division and the product rounded to binary64 as in the source. *)
Definition utilizationPercent (busyTime availableMinutes : Z) : option Z :=
  mathRound
    (SpecFloat.SFmul 53 1024
       (SpecFloat.SFdiv 53 1024 (toDouble busyTime)
                        (toDouble (Z.max availableMinutes 1)))
       (toDouble 100)).

Definition toOutput (horizonStart : Timestamp) (a : InternalAssignment) : Assignment :=
  {| out_product := a_productId a;
     out_operation := a_operationName a;
     out_resource := a_resource a;
     out_start := formatIsoOffset (a_start a) horizonStart;
     out_end := formatIsoOffset (a_end a) horizonStart |}.

Definition num_min (m : num) (x : Z) : num :=
  match m with
  | Fin y => Fin (Z.min y x)
  | Infinity => Fin x
  end.

Definition denormalizeResult (assignments : list InternalAssignment)
    (horizonStart : Timestamp) (products : list NormalizedProduct)
    (resources : JsMap.t NormalizedResource)
    (changeoverMatrix : gmap string Z) : ScheduleResult :=
  let sortedAssignments := arraySort byAssignmentStart assignments in
  let outputAssignments := map (toOutput horizonStart) sortedAssignments in
  let productCompletions : JsMap.t Z :=
    fold_left
      (λ m a,
         let current := default 0 (JsMap.get (a_productId a) m) in
         JsMap.set (a_productId a) (Z.max current (a_end a)) m)
      assignments JsMap.empty in
  let '(totalTardiness, onTimeJobs) :=
    fold_left
      (λ '(totalTardiness, onTimeJobs) product,
         let completion := default 0 (JsMap.get (np_id product) productCompletions) in
         let tardiness := Z.max 0 (completion - np_due product) in
         (totalTardiness + tardiness,
          if decide (tardiness = 0) then onTimeJobs + 1 else onTimeJobs))
      products (0, 0) in
  let resourceMap := groupByResource assignments in
  let changeoverMinutesByRes :=
    computeChangeoverMinutesPerResource resourceMap changeoverMatrix in
  let resourceUtilization : gmap string (option Z) :=
    fold_left
      (λ (u : gmap string (option Z)) (e : string * NormalizedResource),
         let availableMinutes :=
           fold_left (λ sum window, sum + (i_end window - i_start window))
                     (nr_calendar e.2) 0 in
         let resourceAssignments := default [] (JsMap.get e.1 resourceMap) in
         let busyTime : option Z :=
           (λ changeover,
              fold_left (λ sum a, sum + (a_end a - a_start a)) resourceAssignments 0
              + changeover)
             <$> objectGetOrZero changeoverMinutesByRes e.1 in
         objectSet e.1 (busyTime ≫= (λ b, utilizationPercent b availableMinutes)) u)
      (JsMap.entries resources) (∅ : gmap string (option Z)) in
  let changeovers :=
    fold_left (λ n e, n + countChangeovers e.2) (JsMap.entries resourceMap) 0 in
  let minStart := fold_left (λ m a, num_min m (a_start a)) assignments Infinity in
  let maxEnd := fold_left (λ m a, Z.max m (a_end a)) assignments 0 in
  let makespan :=
    if decide (0 < length assignments)%nat then
      maxEnd - (match minStart with Fin m => m | Infinity => 0 end)
    else 0 in
  Success outputAssignments
    {| tardiness_minutes := totalTardiness;
       changeovers := changeovers;
       makespan_minutes := makespan;
       utilization := resourceUtilization;
       on_time_jobs := onTimeJobs;
       total_jobs := Z.of_nat (length products) |}.

(** *** The driving loop *)

Record LoopState : Type := mkLoopState {
  unscheduled : list SchedulableOperation;
  assignments : JsMap.t (list InternalAssignment);
  allAssignments : list InternalAssignment;
  resourceStates : JsMap.t ResourceState;
  iteration : nat
}.

Inductive Step : Type :=
  | Return (result : ScheduleResult)
  | Continue (st : LoopState).

Definition opLabel (op : SchedulableOperation) : string :=
  "Product " +:+ productId op +:+ ", step " +:+ pretty (stepIndex op)
  +:+ " (" +:+ capability op +:+ ")".

Definition sameStep (pid : string) (step : nat) (o : SchedulableOperation) : Prop :=
  productId o = pid ∧ stepIndex o = step.

#[global] Instance sameStep_dec pid step o : Decision (sameStep pid step o).
Proof. unfold sameStep. apply _. Defined.

(** [nextOp.earliestStart = priorStep.end], when the prior step is recorded. *)
Definition raiseToPriorStep (assignments : JsMap.t (list InternalAssignment))
    (nextOp : SchedulableOperation) : SchedulableOperation :=
  if decide (0 < stepIndex nextOp)%nat then
    let productAssignments := default [] (JsMap.get (productId nextOp) assignments) in
    match list_find (λ a, a_stepIndex a = (stepIndex nextOp - 1)%nat) productAssignments with
    | Some (_, priorStep) => set_earliestStart nextOp (a_end priorStep)
    | None => nextOp
    end
  else nextOp.

Definition recordAssignment (assignments : JsMap.t (list InternalAssignment))
    (assignment : InternalAssignment) : JsMap.t (list InternalAssignment) :=
  let pid := a_productId assignment in
  let m := if JsMap.has pid assignments then assignments
           else JsMap.set pid [] assignments in
  JsMap.set pid (default [] (JsMap.get pid m) ++ [assignment]) m.

(** [resourceStates.get(placement.resource)!] followed by
    [updateResourceState]; the state object is updated in place. *)
Definition updateStates (resourceStates : JsMap.t ResourceState)
    (assignment : InternalAssignment) : JsMap.t ResourceState :=
  match JsMap.get (a_resource assignment) resourceStates with
  | Some state =>
      JsMap.set (a_resource assignment) (updateResourceState state assignment)
                resourceStates
  | None => resourceStates
  end.

(** [nextStep.earliestStart = Math.max(nextStep.earliestStart, assignment.end)] *)
Definition raiseNextStep (pool : list SchedulableOperation)
    (nextOp : SchedulableOperation) (assignment : InternalAssignment)
    : list SchedulableOperation :=
  match list_find (sameStep (productId nextOp) (stepIndex nextOp + 1)) pool with
  | Some (j, nextStep) =>
      <[ j := set_earliestStart nextStep
                (Z.max (earliestStart nextStep) (a_end assignment)) ]> pool
  | None => pool
  end.

(** [unscheduled.splice(unscheduled.findIndex(...), 1)]; [findIndex] answers
    -1 when nothing matches, and [splice(-1, 1)] drops the last element. *)
Definition removeScheduled (pool : list SchedulableOperation)
    (nextOp : SchedulableOperation) : list SchedulableOperation :=
  match list_find (sameStep (productId nextOp) (stepIndex nextOp)) pool with
  | Some (index, _) => delete index pool
  | None => removelast pool
  end.

(** The assignment built from the selected operation and its placement. *)
Definition assignmentOf (nextOp : SchedulableOperation) (placement : Placement)
    : InternalAssignment :=
  {| a_productId := productId nextOp;
     a_productFamily := productFamily nextOp;
     a_stepIndex := stepIndex nextOp;
     a_operationName := capability nextOp;
     a_resource := pl_resource placement;
     a_start := pl_start placement;
     a_end := pl_end placement |}.

(** The tail of the loop body once a placement is accepted: record the
    assignment, update the resource, raise the next step, drop the operation
    from the pool. *)
Definition advance (st : LoopState) (pool : list SchedulableOperation)
    (nextOp : SchedulableOperation) (assignment : InternalAssignment) : LoopState :=
  {| unscheduled := removeScheduled (raiseNextStep pool nextOp assignment) nextOp;
     assignments := recordAssignment (assignments st) assignment;
     allAssignments := allAssignments st ++ [assignment];
     resourceStates := updateStates (resourceStates st) assignment;
     iteration := S (iteration st) |}.

Section DrivingLoop.

(** [now k] is the [k]-th reading of [Date.now()] during the run. *)
Variable now : nat → Z.
Variable deadline : Z.
Variable maxIterations : nat.
Variable normalized : Normalized.
Variable productsMap : JsMap.t NormalizedProduct.

(** One pass through the body of [while (unscheduled.length > 0)]. *)
Definition loopBody (st : LoopState) : Step :=
  if decide (now (S (iteration st)) > deadline) then
    Return (Failure "Time limit exceeded"
              ["settings.time_limit_seconds reached before completing schedule"])
  else if decide (maxIterations < iteration st)%nat then
    Return (Failure "Scheduler stuck in infinite loop" ["Maximum iterations exceeded"])
  else
    match selectNextOperation (unscheduled st) (assignments st) productsMap with
    | None =>
        Return (Failure "No ready operations available" ["Precedence deadlock detected"])
    | Some (position, selected) =>
        let nextOp := raiseToPriorStep (assignments st) selected in
        let pool := <[ position := nextOp ]> (unscheduled st) in
        let eligible := getEligibleResources nextOp (n_resources normalized) in
        if decide (length eligible = 0%nat) then
          Return (Failure "No eligible resources"
                    [opLabel nextOp +:+ ": No resource has required capability"])
        else
          let '(placement, bestNear) :=
            tryPlaceOperation nextOp eligible (resourceStates st)
                              (changeoverMatrix normalized) in
          match placement with
          | None =>
              let reasons :=
                [opLabel nextOp +:+ ": No available time slot found on eligible resources"] in
              Return (Failure "Cannot place operation"
                        (match bestNear with
                         | Some near =>
                             reasons ++ ["Closest: " +:+ nm_resource near +:+ " â€” "
                                         +:+ nm_reason near]
                         | None => reasons
                         end))
          | Some placement =>
              if decide (pl_end placement > horizonEnd normalized) then
                Return (Failure "Horizon exceeded"
                          [opLabel nextOp +:+ ": would end at " +:+ pretty (pl_end placement)
                           +:+ " min, beyond horizon " +:+ pretty (horizonEnd normalized)
                           +:+ " min"])
              else
                let assignment := assignmentOf nextOp placement in
                Continue (advance st pool nextOp assignment)
          end
    end.

(** The [while] loop.  [fuel] bounds the number of passes; [None] means the
    bound was too small.  [schedule] passes [maxIterations + 2], which the
    iteration guard of the body never lets the loop exceed
    (lemma [drivingLoop_terminates]). *)
Fixpoint drivingLoop (fuel : nat) (st : LoopState)
    : option (ScheduleResult + LoopState) :=
  if decide (0 < length (unscheduled st))%nat then
    match fuel with
    | O => None
    | S fuel' =>
        match loopBody st with
        | Return result => Some (inl result)
        | Continue st' => drivingLoop fuel' st'
        end
    end
  else Some (inr st).

End DrivingLoop.

(** The closing pass over [resourceStates.entries()]. *)
Definition overlapFailure (rid : string) (prev cur : InternalAssignment) : ScheduleResult :=
  Failure "Validation failed: overlap detected"
    ["Resource " +:+ rid +:+ ": overlap between assignments at "
     +:+ pretty (a_start prev) +:+ "-" +:+ pretty (a_end prev) +:+ " and "
     +:+ pretty (a_start cur) +:+ "-" +:+ pretty (a_end cur)].

Definition overlapping (pr : InternalAssignment * InternalAssignment) : Prop :=
  a_start pr.2 < a_end pr.1.

#[global] Instance overlapping_dec pr : Decision (overlapping pr).
Proof. unfold overlapping. apply _. Defined.

Fixpoint validateNoOverlap (entries : list (string * ResourceState))
    : option ScheduleResult :=
  match entries with
  | [] => None
  | (rid, state) :: rest =>
      let assigned := arraySort byAssignmentStart (rs_assignments state) in
      match list_find overlapping (adjacentPairs assigned) with
      | Some (_, (prev, cur)) => Some (overlapFailure rid prev cur)
      | None => validateNoOverlap rest
      end
  end.

Definition emptyResult : ScheduleResult :=
  Success []
    {| tardiness_minutes := 0; changeovers := 0; makespan_minutes := 0;
       utilization := ∅; on_time_jobs := 0; total_jobs := 0 |}.

Definition initialState (normalized : Normalized)
    (operations : list SchedulableOperation) : LoopState :=
  {| unscheduled := operations;
     assignments := JsMap.empty;
     allAssignments := [];
     resourceStates :=
       fold_left (λ m id, JsMap.set id {| lastFamily := None; rs_assignments := [] |} m)
                 (JsMap.keys (n_resources normalized)) JsMap.empty;
     iteration := 0 |}.

(** How a run of [schedule] ends: with a result built on the spot (the early
    return for no products, or a failure), or at the final
    [denormalizeResult(allAssignments, ...)]. *)
Inductive Outcome : Type :=
  | Terminal (result : ScheduleResult)
  | Placed (all : list InternalAssignment).

Definition scheduleCore (now : nat → Z) (input : Input) : option Outcome :=
  let normalized := normalizeInput input in
  let operations := buildOperationsList (n_products normalized) in
  let productsMap :=
    JsMap.ofList (map (λ p, (np_id p, p)) (n_products normalized)) in
  if decide (length (n_products normalized) = 0%nat) then Some (Terminal emptyResult)
  else
    let deadline :=
      now 0%nat + default 30 (time_limit_seconds <$> settings input) * 1000 in
    let maxIterations := (length operations * 5)%nat in
    match drivingLoop now deadline maxIterations normalized productsMap
                      (maxIterations + 2) (initialState normalized operations) with
    | None => None
    | Some (inl result) => Some (Terminal result)
    | Some (inr st) =>
        match validateNoOverlap (JsMap.entries (resourceStates st)) with
        | Some failure => Some (Terminal failure)
        | None => Some (Placed (allAssignments st))
        end
    end.

Definition schedule (now : nat → Z) (input : Input) : option ScheduleResult :=
  let normalized := normalizeInput input in
  outcome ← scheduleCore now input;
  Some (match outcome with
        | Terminal result => result
        | Placed all =>
            denormalizeResult all (horizonStart normalized) (n_products normalized)
                              (n_resources normalized) (changeoverMatrix normalized)
        end).

(** ** Vocabulary of the statements *)

(** The points of a half-open interval [[start, end)], and of a list of them. *)
Definition contains (iv : NormalizedInterval) (x : Z) : Prop :=
  i_start iv ≤ x < i_end iv.

Definition covered (l : list NormalizedInterval) (x : Z) : Prop :=
  ∃ iv, iv ∈ l ∧ contains iv x.

(** A strict gap between an earlier and a later interval: they neither
    overlap nor touch. *)
Definition separated (a b : NormalizedInterval) : Prop := i_end a < i_start b.

(** The loop of [combineOverlappingIntervals], with the last element of
    [combined] carried apart from the ones before it. *)
Fixpoint mergeFrom (lst : NormalizedInterval) (rest : list NormalizedInterval)
    : list NormalizedInterval :=
  match rest with
  | [] => [lst]
  | current :: rest' =>
      if decide (i_start current ≤ i_end lst) then
        mergeFrom {| i_start := i_start lst;
                     i_end := Z.max (i_end lst) (i_end current) |} rest'
      else lst :: mergeFrom current rest'
  end.


(** The priority order of the selector, read off the spec: due date, then
    slack, then duration, compared lexicographically. *)
Definition priorityKey (productsMap : JsMap.t NormalizedProduct)
    (op : SchedulableOperation) : Z * Z * Z :=
  (productDue op, slack productsMap op, duration op).

Definition lexLt (k1 k2 : Z * Z * Z) : Prop :=
  k1.1.1 < k2.1.1
  ∨ (k1.1.1 = k2.1.1 ∧ (k1.1.2 < k2.1.2 ∨ (k1.1.2 = k2.1.2 ∧ k1.2 < k2.2))).

Definition lexLe (k1 k2 : Z * Z * Z) : Prop :=
  k1.1.1 < k2.1.1
  ∨ (k1.1.1 = k2.1.1 ∧ (k1.1.2 < k2.1.2 ∨ (k1.1.2 = k2.1.2 ∧ k1.2 ≤ k2.2))).


(** [op], sitting at position [i] of the pool, is the ready operation the
    priority order picks: no ready operation has a smaller key, and every
    ready operation in front of it has a strictly larger one. *)
Definition selectedBy (unscheduled : list SchedulableOperation)
    (assignments : JsMap.t (list InternalAssignment))
    (productsMap : JsMap.t NormalizedProduct)
    (i : nat) (op : SchedulableOperation) : Prop :=
  unscheduled !! i = Some op
  ∧ isReady assignments op = true
  ∧ ∀ j o, unscheduled !! j = Some o → isReady assignments o = true →
      lexLe (priorityKey productsMap op) (priorityKey productsMap o)
      ∧ ((j < i)%nat → lexLt (priorityKey productsMap op) (priorityKey productsMap o)).

(** One pass of the loop body that ends in [Continue]. *)
Definition stepsTo (now : nat → Z) (deadline : Z) (maxIterations : nat)
    (normalized : Normalized) (productsMap : JsMap.t NormalizedProduct)
    (st st' : LoopState) : Prop :=
  loopBody now deadline maxIterations normalized productsMap st = Continue st'.

(** What identifies an operation, and the assignment made for it. *)
Definition opKey (op : SchedulableOperation) : string * nat :=
  (productId op, stepIndex op).

Definition assignmentKey (a : InternalAssignment) : string * nat :=
  (a_productId a, a_stepIndex a).

(** What [tryPlaceOperation] guarantees of a placement it returns. *)
Definition goodPlacement (operation : SchedulableOperation)
    (resourceStates : JsMap.t ResourceState) (p : Placement) : Prop :=
  earliestStart operation ≤ pl_start p
  ∧ pl_end p = pl_start p + duration operation
  ∧ is_Some (JsMap.get (pl_resource p) resourceStates).

(** Two assignments whose half-open intervals do not overlap. *)
Definition noOverlap (a b : InternalAssignment) : Prop :=
  ¬ (a_start a < a_end b ∧ a_start b < a_end a).

(** [R] holds between any two elements at different positions. *)
Fixpoint allPairs {A} (R : A → A → Prop) (l : list A) : Prop :=
  match l with
  | [] => True
  | x :: l' => Forall (λ y, R x y ∧ R y x) l' ∧ allPairs R l'
  end.

(** The per-resource lists of [resourceStates] hold exactly the assignments
    made so far, resource by resource. *)
Definition statesTrack (st : LoopState) : Prop :=
  NoDup (JsMap.keys (resourceStates st))
  ∧ (∀ rid state, JsMap.get rid (resourceStates st) = Some state →
       rs_assignments state ≡ₚ filter (λ a, a_resource a = rid) (allAssignments st))
  ∧ (∀ a, a ∈ allAssignments st →
       is_Some (JsMap.get (a_resource a) (resourceStates st))).

(** An operation with its one mutable field reset: what stays fixed while
    the operation waits in the pool. *)
Definition eraseStart (op : SchedulableOperation) : SchedulableOperation :=
  set_earliestStart op 0.

(** The per-product lists of the [assignments] map hold exactly the
    assignments made so far, product by product, in the order made. *)
Definition assignmentsTrack (st : LoopState) : Prop :=
  ∀ pid, default [] (JsMap.get pid (assignments st))
         = filter (λ a, a_productId a = pid) (allAssignments st).

(** The request schema ([src/types/schemas.ts]): what the validation layer
    lets through to the engine. *)
Definition operationSchema (op : Operation) : Prop :=
  op_capability op ≠ "" ∧ 0 < duration_minutes op.

Definition productSchema (p : Product) : Prop :=
  p_id p ≠ "" ∧ p_family p ≠ ""
  ∧ (1 ≤ length (p_route p))%nat ∧ Forall operationSchema (p_route p).

Definition resourceSchema (r : Resource) : Prop :=
  r_id r ≠ ""
  ∧ (1 ≤ length (r_capabilities r))%nat ∧ Forall (λ c, c ≠ "") (r_capabilities r)
  ∧ (1 ≤ length (r_calendar r))%nat.

Definition inputSchema (input : Input) : Prop :=
  (1 ≤ length (resources input))%nat ∧ Forall resourceSchema (resources input)
  ∧ map_Forall (λ _ minutes, 0 ≤ minutes) (changeover_matrix_minutes input)
  ∧ Forall productSchema (products input)
  ∧ ∃ s, settings input = Some s ∧ 0 < time_limit_seconds s.

(** Every pooled operation can start at or after 0 and lasts no negative
    time; every assignment made so far lies in [[0, horizonEnd]]. *)
Definition withinHorizon (horizonEnd : Z) (st : LoopState) : Prop :=
  Forall (λ o, 0 ≤ earliestStart o ∧ 0 ≤ duration o) (unscheduled st)
  ∧ Forall (λ a, 0 ≤ a_start a ∧ a_start a ≤ a_end a ∧ a_end a ≤ horizonEnd)
           (allAssignments st).

(** The pool and the assignments made so far split the operations of the
    input between them. *)
Definition keysSplit (keys : list (string * nat)) (st : LoopState) : Prop :=
  (opKey <$> unscheduled st) ++ (assignmentKey <$> allAssignments st) ≡ₚ keys.

(** The bookkeeping behind precedence: besides [keysSplit], an assigned step
    has its prior step assigned too, and consecutive steps of a product are
    assigned in order of time. *)
Definition precedenceInv (keys : list (string * nat)) (st : LoopState) : Prop :=
  keysSplit keys st
  ∧ (∀ b k, b ∈ allAssignments st → a_stepIndex b = S k →
       ∃ a, a ∈ allAssignments st ∧ assignmentKey a = (a_productId b, k))
  ∧ (∀ a b, a ∈ allAssignments st → b ∈ allAssignments st →
       a_productId a = a_productId b → a_stepIndex b = S (a_stepIndex a) →
       a_end a ≤ a_start b).

(** A detail line names an operation when it opens with the product id and
    the step number, the way the failure messages print them. *)
Definition namesOperation (line : string) (pid : string) (step : nat) : Prop :=
  ∃ rest, line = "Product " +:+ pid +:+ ", step " +:+ pretty step +:+ rest.

(** The infeasibility failures that report on a selected operation. *)
Definition reportsOperation (error : string) : Prop :=
  error = "No eligible resources"
  ∨ error = "Cannot place operation"
  ∨ error = "Horizon exceeded".

(** The pool only ever holds operations of the input. *)
Definition poolFrom (operations : list SchedulableOperation) (st : LoopState) : Prop :=
  ∀ o, o ∈ unscheduled st → eraseStart o ∈ eraseStart <$> operations.

(** A pool whose only operation waits for a prior step that nothing
    recorded: the ready set is empty while an operation remains. *)
Definition deadlockedState : LoopState :=
  {| unscheduled :=
       [ {| productId := "P1"; productFamily := "A"; stepIndex := 1;
            capability := "fill"; duration := 30; productDue := 100;
            earliestStart := 0 |} ];
     assignments := JsMap.empty;
     allAssignments := [];
     resourceStates := JsMap.empty;
     iteration := 0 |}.

Definition emptyNormalized : Normalized :=
  {| horizonStart := 0; horizonEnd := 480; n_resources := JsMap.empty;
     n_products := []; changeoverMatrix := ∅ |}.

(** ** Sample requests *)

(** The instant [m] minutes after 2025-11-03T08:00:00Z. *)
Definition atMinute (m : Z) : Timestamp := 1762156800000 + m * 60000.

(** A clock that never advances: the deadline is never hit. *)
Definition frozenClock : nat → Z := λ _, 1762156800000.

(** One resource whose calendar has a break from minute 10 to minute 20,
    and two single-step products of one family. *)
Definition calendarGapInput : Input :=
  {| horizon := {| h_start := atMinute 0; h_end := atMinute 100 |};
     resources :=
       [ {| r_id := "R"; r_capabilities := ["c"];
            r_calendar := [(atMinute 0, atMinute 10); (atMinute 20, atMinute 100)] |} ];
     changeover_matrix_minutes := ∅;
     products :=
       [ {| p_id := "P1"; p_family := "A"; p_due := atMinute 50;
            p_route := [ {| op_capability := "c"; duration_minutes := 10 |} ] |};
         {| p_id := "P2"; p_family := "A"; p_due := atMinute 100;
            p_route := [ {| op_capability := "c"; duration_minutes := 50 |} ] |} ];
     settings := Some {| time_limit_seconds := 30 |} |}.

(** Two resources; product P1 (family A) runs on R1 and then on R2, product
    P2 (family B) runs on R2 only and is due later; switching R2 from B to A
    takes 20 minutes. *)
Definition insertionInput : Input :=
  {| horizon := {| h_start := atMinute 0; h_end := atMinute 1000 |};
     resources :=
       [ {| r_id := "R1"; r_capabilities := ["a"];
            r_calendar := [(atMinute 0, atMinute 1000)] |};
         {| r_id := "R2"; r_capabilities := ["b"];
            r_calendar := [(atMinute 0, atMinute 1000)] |} ];
     changeover_matrix_minutes := {[ "B->A" := 20 ]};
     products :=
       [ {| p_id := "P1"; p_family := "A"; p_due := atMinute 100;
            p_route := [ {| op_capability := "a"; duration_minutes := 50 |};
                         {| op_capability := "b"; duration_minutes := 10 |} ] |};
         {| p_id := "P2"; p_family := "B"; p_due := atMinute 500;
            p_route := [ {| op_capability := "b"; duration_minutes := 50 |} ] |} ];
     settings := Some {| time_limit_seconds := 30 |} |}.

(** What the engine places for [insertionInput], in the order placed. *)
Definition insertionPlaced : list InternalAssignment :=
  [ {| a_productId := "P1"; a_productFamily := "A"; a_stepIndex := 0;
       a_operationName := "a"; a_resource := "R1"; a_start := 0; a_end := 50 |};
    {| a_productId := "P1"; a_productFamily := "A"; a_stepIndex := 1;
       a_operationName := "b"; a_resource := "R2"; a_start := 50; a_end := 60 |};
    {| a_productId := "P2"; a_productFamily := "B"; a_stepIndex := 0;
       a_operationName := "b"; a_resource := "R2"; a_start := 0; a_end := 50 |} ].

(** A request with no products, and one whose only step needs a capability
    that no resource has. *)
Definition noProductsInput : Input :=
  {| horizon := horizon insertionInput;
     resources := resources insertionInput;
     changeover_matrix_minutes := changeover_matrix_minutes insertionInput;
     products := [];
     settings := settings insertionInput |}.

Definition missingCapabilityInput : Input :=
  {| horizon := horizon insertionInput;
     resources := resources insertionInput;
     changeover_matrix_minutes := ∅;
     products :=
       [ {| p_id := "P9"; p_family := "A"; p_due := atMinute 100;
            p_route := [ {| op_capability := "weld"; duration_minutes := 5 |} ] |} ];
     settings := settings insertionInput |}.



(** Two assignments that follow one another on a resource. *)
Definition adjacentOn (rid : string) (all : list InternalAssignment)
    (prev next : InternalAssignment) : Prop :=
  (prev, next)
  ∈ adjacentPairs (arraySort byAssignmentStart (filter (λ a, a_resource a = rid) all)).

(** ** The slot search of [src/util/timeUtils.ts] *)

(** The integers of the safe range, on which the additions of the source
    are exact. *)
Definition safeInteger (z : Z) : Prop := - (2 ^ 53 - 1) ≤ z ≤ 2 ^ 53 - 1.

(** The sum [actualStart + duration] is exact in the source when it lies in
    the safe range; beyond it the double sum is rounded. *)
Definition canFitInWindow (window : NormalizedInterval) (duration earliestStart : Z)
    : option Z :=
  let actualStart := Z.max (i_start window) earliestStart in
  if decide (actualStart + duration ≤ i_end window) then Some actualStart else None.




Definition getOccupiedIntervals (assignments : list InternalAssignment)
    : list NormalizedInterval :=
  map (λ a, {| i_start := a_start a; i_end := a_end a |}) assignments.



(** ** Vocabulary of the further properties *)

(** The assignment in front of gap [i] of a resource's list, if any. *)
Definition previousAt (sorted : list InternalAssignment) (i : nat)
    : option InternalAssignment :=
  match i with
  | O => None
  | S j => sorted !! j
  end.

(** Where a placement that [tryPlaceOperation] returns comes from: a gap
    [i] of an eligible resource, inside one of its windows, that the job
    fits; it starts after the assignment in front of the gap by at least
    the changeover, or at the window start when the gap has none before it. *)
Definition gapPlacement (operation : SchedulableOperation) (matrix : gmap string Z)
    (eligible : list NormalizedResource) (states : JsMap.t ResourceState)
    (p : Placement) : Prop :=
  ∃ resource state window i,
    resource ∈ eligible
    ∧ JsMap.get (nr_id resource) states = Some state
    ∧ window ∈ nr_calendar resource
    ∧ (i ≤ length (rs_assignments state))%nat
    ∧ pl_resource p = nr_id resource
    ∧ pl_end p = pl_start p + duration operation
    ∧ earliestStart operation ≤ pl_start p
    ∧ pl_end p ≤ i_end window
    ∧ match previousAt (rs_assignments state) i with
      | Some prev =>
          a_end prev ≤ pl_start p
          ∧ a_end prev
            + getChangeoverTime (Some (a_productFamily prev))
                                (productFamily operation) matrix
            ≤ pl_start p
      | None => i_start window ≤ pl_start p
      end
    ∧ ∀ next, rs_assignments state !! i = Some next → pl_end p ≤ a_start next.

(** A list of assignments in order of time: each lasts a positive time and
    ends before any later one starts. *)
Definition chain (l : list InternalAssignment) : Prop :=
  StronglySorted (λ a b, a_end a ≤ a_start b) l
  ∧ Forall (λ a, a_start a < a_end a) l.

(** [p] was placed before [n]. *)
Definition placedBefore (all : list InternalAssignment)
    (p n : InternalAssignment) : Prop :=
  ∃ i1 i2, (i1 < i2)%nat ∧ all !! i1 = Some p ∧ all !! i2 = Some n.

(** The resource lists are chains, and where an assignment directly follows
    one placed earlier it keeps the changeover distance from it. *)
Definition placedInOrder (matrix : gmap string Z) (st : LoopState) : Prop :=
  Forall (λ o, 0 < duration o) (unscheduled st)
  ∧ ∀ rid state, JsMap.get rid (resourceStates st) = Some state →
      chain (rs_assignments state)
      ∧ ∀ j p n,
          rs_assignments state !! j = Some p →
          rs_assignments state !! S j = Some n →
          placedBefore (allAssignments st) p n →
          a_end p + getChangeoverTime (Some (a_productFamily p))
                                      (a_productFamily n) matrix
          ≤ a_start n.

(** What an assignment owes to the operation it was made for and to the
    resource it was put on: its fields are those of an operation of the
    pool, it lasts as long as that operation, and a resource with its
    resource id offers the capability. *)
Definition assignedWell (normalized : Normalized)
    (operations : list SchedulableOperation) (st : LoopState) : Prop :=
  ∀ a, a ∈ allAssignments st →
    (∃ o, o ∈ operations
          ∧ assignmentOf o {| pl_resource := a_resource a; pl_start := a_start a;
                              pl_end := a_end a |} = a
          ∧ a_end a = a_start a + duration o)
    ∧ ∃ resource, resource ∈ JsMap.values (n_resources normalized)
                  ∧ nr_id resource = a_resource a
                  ∧ a_operationName a ∈ nr_capabilities resource.

(** Every assignment lies inside a calendar window of its resource. *)
Definition inWindows (normalized : Normalized) (st : LoopState) : Prop :=
  ∀ a, a ∈ allAssignments st →
    ∃ resource window,
      resource ∈ JsMap.values (n_resources normalized)
      ∧ nr_id resource = a_resource a
      ∧ window ∈ nr_calendar resource
      ∧ i_start window ≤ a_start a ∧ a_end a ≤ i_end window.

(** The steps of the routes of a request, by product id and step index. *)
Definition routeKeys (input : Input) : list (string * nat) :=
  products input ≫= (λ p, (λ k, (p_id p, k)) <$> seq 0 (length (p_route p))).

(** What gap [i] of a window offers an operation: the start and the end of
    the job when the gap is not empty and the job fits it after the
    changeover, as the innermost loop of [tryPlaceOperation] decides it. *)
Definition gapOffer (operation : SchedulableOperation) (matrix : gmap string Z)
    (sorted : list InternalAssignment) (window : NormalizedInterval) (i : nat)
    : option (Z * Z) :=
  let prev := previousAt sorted i in
  let gapStart :=
    Z.max (earliestStart operation)
          (match prev with Some p => a_end p | None => i_start window end) in
  let gapEnd :=
    Z.min (i_end window)
          (match sorted !! i with Some n => a_start n | None => i_end window end) in
  let start :=
    gapStart + getChangeoverTime (a_productFamily <$> prev) (productFamily operation)
                                 matrix in
  let end_ := start + duration operation in
  if decide (gapStart < gapEnd ∧ gapStart ≤ start ∧ end_ ≤ gapEnd)
  then Some (start, end_) else None.

(** The best placement so far and the two numbers kept with it agree. *)
Definition searchInv (operation : SchedulableOperation) (acc : Search) : Prop :=
  match bestPlacement acc with
  | Some p =>
      bestProjectedTardiness acc = Fin (Z.max 0 (pl_end p - productDue operation))
      ∧ earliestEnd acc = Fin (pl_end p)
  | None => bestProjectedTardiness acc = Infinity ∧ earliestEnd acc = Infinity
  end.

(** The search holds a placement that ends by [e]. *)
Definition endsBy (e : Z) (acc : Search) : Prop :=
  ∃ p, bestPlacement acc = Some p ∧ pl_end p ≤ e.

(** The completion time of a product: the latest end among its assignments,
    0 when it has none; and its tardiness against its due time. *)
Definition completion (assignments : list InternalAssignment) (pid : string) : Z :=
  foldr Z.max 0 (a_end <$> filter (λ a, a_productId a = pid) assignments).

Definition productTardiness (assignments : list InternalAssignment)
    (product : NormalizedProduct) : Z :=
  Z.max 0 (completion assignments (np_id product) - np_due product).

(** A clock that advances a minute and a half between two readings. *)
Definition slowClock : nat → Z := λ k, 1762156800000 + Z.of_nat k * 90000.



(** What the engine places for [calendarGapInput], in the order placed. *)
Definition calendarGapPlaced : list InternalAssignment :=
  [ {| a_productId := "P1"; a_productFamily := "A"; a_stepIndex := 0;
       a_operationName := "c"; a_resource := "R"; a_start := 0; a_end := 10 |};
    {| a_productId := "P2"; a_productFamily := "A"; a_stepIndex := 0;
       a_operationName := "c"; a_resource := "R"; a_start := 10; a_end := 60 |} ].

(** A clock that advances a millisecond between two readings. *)
Definition tickingClock : nat → Z := λ k, 1762156800000 + Z.of_nat k.

(** ** Vocabulary of failure detail and of the listing *)



(** A route step with what identifies it and what it asks for: product id,
    step index, family, capability and duration; and the same read off an
    assignment and off a pooled operation. *)
Definition routeSteps (input : Input) : list (string * nat * string * string * Z) :=
  products input
  ≫= (λ p, imap (λ k op, (p_id p, k, p_family p, op_capability op, duration_minutes op))
                (p_route p)).

Definition assignedStep (a : InternalAssignment) : string * nat * string * string * Z :=
  (a_productId a, a_stepIndex a, a_productFamily a, a_operationName a,
   a_end a - a_start a).

Definition opStep (o : SchedulableOperation) : string * nat * string * string * Z :=
  (productId o, stepIndex o, productFamily o, capability o, duration o).

(** What an output assignment shows of its step: product id, operation name
    and length in milliseconds; and the same for the route steps. *)
Definition outputStep (o : Assignment) : string * string * Z :=
  (out_product o, out_operation o, out_end o - out_start o).

Definition listedSteps (input : Input) : list (string * string * Z) :=
  products input
  ≫= (λ p, (λ op, (p_id p, op_capability op, duration_minutes op * 60000))
             <$> p_route p).

(** Two products with the same id: the first has one step, the second two
    and is due earlier. *)
Definition duplicateIdInput : Input :=
  {| horizon := {| h_start := atMinute 0; h_end := atMinute 1000 |};
     resources :=
       [ {| r_id := "R"; r_capabilities := ["c"];
            r_calendar := [(atMinute 0, atMinute 1000)] |} ];
     changeover_matrix_minutes := ∅;
     products :=
       [ {| p_id := "P"; p_family := "A"; p_due := atMinute 500;
            p_route := [ {| op_capability := "c"; duration_minutes := 30 |} ] |};
         {| p_id := "P"; p_family := "A"; p_due := atMinute 100;
            p_route := [ {| op_capability := "c"; duration_minutes := 10 |};
                         {| op_capability := "c"; duration_minutes := 5 |} ] |} ];
     settings := Some {| time_limit_seconds := 30 |} |}.

(** What the engine places for [duplicateIdInput], in the order placed. *)
Definition duplicateIdPlaced : list InternalAssignment :=
  [ {| a_productId := "P"; a_productFamily := "A"; a_stepIndex := 0;
       a_operationName := "c"; a_resource := "R"; a_start := 0; a_end := 10 |};
    {| a_productId := "P"; a_productFamily := "A"; a_stepIndex := 1;
       a_operationName := "c"; a_resource := "R"; a_start := 10; a_end := 15 |};
    {| a_productId := "P"; a_productFamily := "A"; a_stepIndex := 0;
       a_operationName := "c"; a_resource := "R"; a_start := 15; a_end := 25 |} ].

(** One resource and two single-step products of families A and B; switching
    from A to B takes 30 minutes. *)
Definition changeoverInput : Input :=
  {| horizon := {| h_start := atMinute 0; h_end := atMinute 1000 |};
     resources :=
       [ {| r_id := "R"; r_capabilities := ["c"];
            r_calendar := [(atMinute 0, atMinute 1000)] |} ];
     changeover_matrix_minutes := {[ "A->B" := 30 ]};
     products :=
       [ {| p_id := "P1"; p_family := "A"; p_due := atMinute 100;
            p_route := [ {| op_capability := "c"; duration_minutes := 60 |} ] |};
         {| p_id := "P2"; p_family := "B"; p_due := atMinute 500;
            p_route := [ {| op_capability := "c"; duration_minutes := 60 |} ] |} ];
     settings := Some {| time_limit_seconds := 30 |} |}.

(** What the engine places for [changeoverInput], in the order placed. *)
Definition changeoverPlaced : list InternalAssignment :=
  [ {| a_productId := "P1"; a_productFamily := "A"; a_stepIndex := 0;
       a_operationName := "c"; a_resource := "R"; a_start := 0; a_end := 60 |};
    {| a_productId := "P2"; a_productFamily := "B"; a_stepIndex := 0;
       a_operationName := "c"; a_resource := "R"; a_start := 90; a_end := 150 |} ].

(** A request whose only step is longer than the only window. *)
Definition tooLongInput : Input :=
  {| horizon := {| h_start := atMinute 0; h_end := atMinute 1000 |};
     resources :=
       [ {| r_id := "R"; r_capabilities := ["c"];
            r_calendar := [(atMinute 0, atMinute 100)] |} ];
     changeover_matrix_minutes := ∅;
     products :=
       [ {| p_id := "P1"; p_family := "A"; p_due := atMinute 500;
            p_route := [ {| op_capability := "c"; duration_minutes := 200 |} ] |} ];
     settings := Some {| time_limit_seconds := 30 |} |}.

(** * Properties *)

(** ** [Array.prototype.sort] *)

Section ArraySort.
Context {A : Type} (cmp : A → A → Z).

Lemma sortInsert_perm x l : sortInsert cmp x l ≡ₚ x :: l.
Proof.
  induction l as [|y l IH]; simpl; [done|].
  case_decide; [done|]. rewrite IH. apply Permutation_swap.
Qed.

Lemma arraySort_perm l : arraySort cmp l ≡ₚ l.
Proof.
  induction l as [|x l IH]; simpl; [done|].
  rewrite sortInsert_perm. by f_equiv.
Qed.

Lemma arraySort_length l : length (arraySort cmp l) = length l.
Proof. by rewrite arraySort_perm. Qed.

Lemma elem_of_arraySort x l : x ∈ arraySort cmp l ↔ x ∈ l.
Proof. by rewrite arraySort_perm. Qed.

Lemma head_sortInsert x l :
  head (sortInsert cmp x l) =
  match head l with
  | None => Some x
  | Some m => if decide (cmp x m ≤ 0) then Some x else Some m
  end.
Proof. destruct l as [|y l]; simpl; [done|]. by case_decide. Qed.

Lemma head_arraySort l : head (arraySort cmp l) = firstMin cmp l.
Proof.
  induction l as [|x l IH]; simpl; [done|].
  by rewrite head_sortInsert, IH.
Qed.

Lemma arraySort_fixed l :
  Sorted (λ a b, cmp a b ≤ 0) l → arraySort cmp l = l.
Proof.
  induction 1 as [|x l Hs IH Hhd]; simpl; [done|].
  rewrite IH. destruct Hhd as [|y l Hxy]; simpl; [done|].
  by rewrite decide_True.
Qed.

Section Consistent.
Hypothesis cmp_total : ∀ a b, cmp a b ≤ 0 ∨ cmp b a ≤ 0.
Hypothesis cmp_trans : ∀ a b c, cmp a b ≤ 0 → cmp b c ≤ 0 → cmp a c ≤ 0.

Lemma sortInsert_sorted x l :
  StronglySorted (λ a b, cmp a b ≤ 0) l →
  StronglySorted (λ a b, cmp a b ≤ 0) (sortInsert cmp x l).
Proof.
  induction 1 as [|y l Hs IH Hall]; simpl.
  - repeat constructor.
  - case_decide as Hxy.
    + constructor; [by constructor|].
      constructor; [done|].
      eapply Forall_impl; [exact Hall|]. intros z Hz. by eapply cmp_trans.
    + constructor; [done|].
      rewrite sortInsert_perm. constructor; [|done].
      destruct (cmp_total x y); [done|done].
Qed.

Lemma arraySort_sorted l :
  StronglySorted (λ a b, cmp a b ≤ 0) (arraySort cmp l).
Proof.
  induction l as [|x l IH]; simpl; [constructor|].
  by apply sortInsert_sorted.
Qed.

(** Characterisation of the winner: it sits at some position of the
    list, nothing before it is as small, nothing after it is smaller. *)
Lemma firstMin_spec l m :
  firstMin cmp l = Some m →
  ∃ l1 l2, l = l1 ++ m :: l2
           ∧ Forall (λ y, ¬ cmp y m ≤ 0) l1
           ∧ Forall (λ y, cmp m y ≤ 0) l2.
Proof.
  revert m. induction l as [|x l IH]; intros m; simpl; [done|].
  destruct (firstMin cmp l) as [m'|] eqn:Hm'.
  - destruct (IH m' eq_refl) as (l1 & l2 & -> & H1 & H2).
    case_decide as Hx; intros [= <-].
    + exists [], (l1 ++ m' :: l2). split_and!; [done|constructor|].
      apply Forall_app. split.
      * eapply Forall_impl; [exact H1|]. intros y Hy. simpl in Hy.
        destruct (cmp_total x y) as [|Hyx]; [done|].
        exfalso. apply Hy. by eapply cmp_trans.
      * constructor; [done|].
        eapply Forall_impl; [exact H2|]. intros y Hy. by eapply cmp_trans.
    + exists (x :: l1), l2. split_and!; [done| |done].
      constructor; [done|done].
  - intros [= <-]. destruct l; [|simpl in Hm'; destruct (firstMin cmp l); [case_decide|]; done].
    exists [], []. split_and!; [done|constructor|constructor].
Qed.
End Consistent.
End ArraySort.

Lemma StronglySorted_mono {A} (R1 R2 : A → A → Prop) (l : list A) :
  (∀ a b, R1 a b → R2 a b) → StronglySorted R1 l → StronglySorted R2 l.
Proof.
  intros HR. induction 1 as [|x l Hs IH Hall]; constructor; [done|].
  eapply Forall_impl; [exact Hall|]. auto.
Qed.

(** Sorting by an integer key. *)
Lemma arraySort_by_key_sorted {A} (key : A → Z) (l : list A) :
  StronglySorted (λ a b, key a ≤ key b) (arraySort (λ a b, key a - key b) l).
Proof.
  eapply StronglySorted_mono;
    [|apply (arraySort_sorted (λ a b, key a - key b)); intros; lia].
  intros a b. simpl. lia.
Qed.

Lemma StronglySorted_lookup_lt {A} (R : A → A → Prop) (l : list A) i j x y :
  StronglySorted R l → (i < j)%nat → l !! i = Some x → l !! j = Some y → R x y.
Proof.
  intros Hs. revert i j. induction Hs as [|z l Hs IH Hall]; intros i j Hij Hi Hj.
  - by rewrite lookup_nil in Hi.
  - destruct j as [|j]; [lia|]. destruct i as [|i]; simpl in *.
    + simplify_eq. rewrite Forall_forall in Hall. apply Hall.
      by eapply list_elem_of_lookup_2.
    + eapply (IH i j); [lia|done|done].
Qed.

(** ** Interval merge ([combineOverlappingIntervals]) *)

Lemma combineStep_snoc init lst current :
  combineStep (init ++ [lst]) current =
  if decide (i_start current ≤ i_end lst) then
    init ++ [{| i_start := i_start lst; i_end := Z.max (i_end lst) (i_end current) |}]
  else init ++ [lst; current].
Proof.
  unfold combineStep. rewrite last_snoc. case_decide.
  - rewrite length_app. simpl.
    replace (pred (length init + 1)) with (length init + 0)%nat by lia.
    by rewrite insert_app_r.
  - by rewrite <- app_assoc.
Qed.

Lemma fold_combineStep rest init lst :
  fold_left combineStep rest (init ++ [lst]) = init ++ mergeFrom lst rest.
Proof.
  revert init lst. induction rest as [|current rest IH]; intros init lst; simpl; [done|].
  rewrite combineStep_snoc. case_decide.
  - apply IH.
  - replace (init ++ [lst; current]) with ((init ++ [lst]) ++ [current])
      by (by rewrite <- app_assoc).
    rewrite IH. by rewrite <- app_assoc.
Qed.

Lemma combineOverlappingIntervals_mergeFrom intervals :
  combineOverlappingIntervals intervals =
  match arraySort byStart intervals with
  | [] => []
  | first :: rest => mergeFrom first rest
  end.
Proof.
  unfold combineOverlappingIntervals. case_decide as Hlen.
  - by destruct intervals.
  - destruct (arraySort byStart intervals) as [|first rest]; [done|].
    apply (fold_combineStep rest []).
Qed.

Section MergeFrom.
Implicit Types (lst : NormalizedInterval) (rest : list NormalizedInterval).

Let startsFrom lst rest : Prop :=
  Forall (λ iv, i_start lst ≤ i_start iv) rest.
Let startSorted rest : Prop :=
  StronglySorted (λ a b, i_start a ≤ i_start b) rest.

Lemma mergeFrom_starts lst rest :
  startsFrom lst rest → startSorted rest → startsFrom lst (mergeFrom lst rest).
Proof.
  unfold startsFrom, startSorted.
  revert lst. induction rest as [|current rest IH]; intros lst Hfrom Hsorted; simpl.
  - by repeat constructor.
  - inversion_clear Hfrom as [|?? Hcur Hrest]. inversion_clear Hsorted as [|?? Hs Hall].
    case_decide.
    + apply (IH {| i_start := i_start lst; i_end := _ |}); [done|done].
    + constructor; [done|].
      eapply Forall_impl; [apply IH; done|]. simpl. intros iv ?; lia.
Qed.

Lemma mergeFrom_separated lst rest :
  startsFrom lst rest → startSorted rest →
  StronglySorted separated (mergeFrom lst rest).
Proof.
  unfold startsFrom, startSorted.
  revert lst. induction rest as [|current rest IH]; intros lst Hfrom Hsorted; simpl.
  - by repeat constructor.
  - inversion_clear Hfrom as [|?? Hcur Hrest]. inversion_clear Hsorted as [|?? Hs Hall].
    case_decide.
    + apply (IH {| i_start := i_start lst; i_end := _ |}); [done|done].
    + constructor; [by apply IH|].
      eapply Forall_impl; [apply mergeFrom_starts; done|].
      unfold separated. simpl. intros iv ?; lia.
Qed.

Lemma mergeFrom_sorted lst rest :
  startsFrom lst rest → startSorted rest → startSorted (mergeFrom lst rest).
Proof.
  unfold startsFrom, startSorted.
  revert lst. induction rest as [|current rest IH]; intros lst Hfrom Hsorted; simpl.
  - by repeat constructor.
  - inversion_clear Hfrom as [|?? Hcur Hrest]. inversion_clear Hsorted as [|?? Hs Hall].
    case_decide.
    + apply (IH {| i_start := i_start lst; i_end := _ |}); [done|done].
    + constructor; [by apply IH|].
      eapply Forall_impl; [apply mergeFrom_starts; done|].
      simpl. intros iv ?; lia.
Qed.

Lemma mergeFrom_covered lst rest x :
  startsFrom lst rest → startSorted rest →
  covered (mergeFrom lst rest) x ↔ covered (lst :: rest) x.
Proof.
  unfold startsFrom, startSorted, covered.
  revert lst. induction rest as [|current rest IH]; intros lst Hfrom Hsorted; simpl; [done|].
  inversion_clear Hfrom as [|?? Hcur Hrest]. inversion_clear Hsorted as [|?? Hs Hall].
  case_decide as Hmerge.
  - rewrite (IH {| i_start := i_start lst; i_end := _ |}); [|done|done].
    unfold contains. split.
    + intros (iv & [->|Hin]%elem_of_cons & Hx); simpl in Hx.
      * destruct (decide (x < i_end lst)).
        -- exists lst. split; [by left|lia].
        -- exists current. split; [right; by left|lia].
      * exists iv. split; [right; by right|done].
    + intros (iv & Hin & Hx). rewrite !elem_of_cons in Hin.
      destruct Hin as [->|[->|Hin]].
      * eexists; split; [by left|]. simpl. lia.
      * eexists; split; [by left|]. simpl. lia.
      * exists iv. split; [by right|done].
  - split.
    + intros (iv & [->|Hin]%elem_of_cons & Hx).
      * exists lst. split; [by left|done].
      * destruct (proj1 (IH current Hall Hs)) as (iv' & Hin' & Hx'); [by exists iv|].
        exists iv'. split; [by right|done].
    + intros (iv & [->|Hin]%elem_of_cons & Hx).
      * exists lst. split; [by left|done].
      * destruct (proj2 (IH current Hall Hs)) as (iv' & Hin' & Hx'); [by exists iv|].
        exists iv'. split; [by right|done].
Qed.

Lemma mergeFrom_fixed lst rest :
  StronglySorted separated (lst :: rest) → mergeFrom lst rest = lst :: rest.
Proof.
  revert lst. induction rest as [|current rest IH]; intros lst Hsep; simpl; [done|].
  inversion_clear Hsep as [|?? Hs Hall]. inversion_clear Hall as [|?? Hcur Hrest].
  unfold separated in Hcur. rewrite decide_False by lia. by rewrite IH.
Qed.

End MergeFrom.

(** C6 — Interval merge: the result of [combineOverlappingIntervals] is sorted
    by start; any earlier element ends strictly before any later one starts
    (so no two elements overlap or touch); it covers exactly the points the
    input covers; it is empty for the empty input; and merging it again
    gives it back unchanged. *)
Theorem combineOverlappingIntervals_correct (intervals : list NormalizedInterval) :
  let merged := combineOverlappingIntervals intervals in
  StronglySorted (λ a b, i_start a ≤ i_start b) merged
  ∧ (∀ i j a b, (i < j)%nat → merged !! i = Some a → merged !! j = Some b →
       separated a b)
  ∧ (∀ i j a b, i ≠ j → merged !! i = Some a → merged !! j = Some b →
       doIntervalsOverlap a b = false)
  ∧ (∀ x, covered merged x ↔ covered intervals x)
  ∧ combineOverlappingIntervals [] = []
  ∧ combineOverlappingIntervals merged = merged.
Proof.
  simpl. rewrite combineOverlappingIntervals_mergeFrom.
  pose proof (arraySort_by_key_sorted i_start intervals) as Hsorted.
  pose proof (arraySort_perm byStart intervals) as Hperm.
  change (λ a b, i_start a - i_start b) with byStart in Hsorted.
  assert (Hcov : ∀ x, covered (arraySort byStart intervals) x ↔ covered intervals x).
  { intros x. unfold covered. by setoid_rewrite Hperm. }
  destruct (arraySort byStart intervals) as [|first rest].
  { split_and!;
      first [done | constructor | intros ???? _ Hi; by rewrite lookup_nil in Hi]. }
  inversion_clear Hsorted as [|?? Hs Hall].
  pose proof (mergeFrom_separated first rest Hall Hs) as Hsep.
  pose proof (mergeFrom_sorted first rest Hall Hs) as Hst.
  assert (Hlt : ∀ i j a b, (i < j)%nat → mergeFrom first rest !! i = Some a →
                  mergeFrom first rest !! j = Some b → separated a b).
  { intros i j a b. by apply StronglySorted_lookup_lt. }
  split_and!.
  - done.
  - done.
  - intros i j a b Hij Hi Hj. unfold doIntervalsOverlap.
    destruct (decide (i < j)%nat).
    + pose proof (Hlt i j a b ltac:(lia) Hi Hj) as Hab. unfold separated in Hab.
      rewrite (bool_decide_eq_false_2 (i_start b < i_end a)) by lia.
      apply andb_false_r.
    + pose proof (Hlt j i b a ltac:(lia) Hj Hi) as Hba. unfold separated in Hba.
      rewrite (bool_decide_eq_false_2 (i_start a < i_end b)) by lia. done.
  - intros x. rewrite <- Hcov. by apply mergeFrom_covered.
  - done.
  - rewrite combineOverlappingIntervals_mergeFrom.
    rewrite arraySort_fixed.
    + destruct (mergeFrom first rest) as [|f r] eqn:Hm; [done|].
      by apply mergeFrom_fixed.
    + apply StronglySorted_Sorted.
      eapply StronglySorted_mono; [|exact Hst]. unfold byStart. intros; simpl; lia.
Qed.

(** ** Priority selection ([selectNextOperation]) *)

Lemma StronglySorted_filter {A} (R : A → A → Prop) (P : A → Prop)
    `{∀ x, Decision (P x)} (l : list A) :
  StronglySorted R l → StronglySorted R (filter P l).
Proof.
  induction 1 as [|x l Hs IH Hall]; [constructor|].
  rewrite filter_cons. case_decide; [|done].
  constructor; [done|].
  rewrite Forall_forall in Hall. apply Forall_forall.
  intros y [_ Hy]%list_elem_of_filter. by apply Hall.
Qed.

Lemma StronglySorted_imap {A B} (R : B → B → Prop) (f : nat → A → B) (l : list A) :
  (∀ i j x y, (i < j)%nat → R (f i x) (f j y)) → StronglySorted R (imap f l).
Proof.
  revert f. induction l as [|x l IH]; intros f Hf; simpl; [constructor|].
  constructor.
  - apply IH. intros i j ?? Hij. apply Hf. lia.
  - apply Forall_forall. intros z (i & y & -> & _)%elem_of_lookup_imap.
    apply Hf. lia.
Qed.


Section Priority.
Variable productsMap : JsMap.t NormalizedProduct.

Lemma comparePriority_le a b :
  comparePriority productsMap a b ≤ 0
  ↔ lexLe (priorityKey productsMap a) (priorityKey productsMap b).
Proof.
  unfold comparePriority, lexLe, priorityKey. simpl.
  repeat case_decide; lia.
Qed.

Lemma comparePriority_gt a b :
  ¬ comparePriority productsMap a b ≤ 0
  ↔ lexLt (priorityKey productsMap b) (priorityKey productsMap a).
Proof.
  unfold comparePriority, lexLt, priorityKey. simpl.
  repeat case_decide; lia.
Qed.

Lemma comparePriority_total a b :
  comparePriority productsMap a b ≤ 0 ∨ comparePriority productsMap b a ≤ 0.
Proof. rewrite !comparePriority_le. unfold lexLe, priorityKey. simpl. lia. Qed.

Lemma comparePriority_trans a b c :
  comparePriority productsMap a b ≤ 0 → comparePriority productsMap b c ≤ 0 →
  comparePriority productsMap a c ≤ 0.
Proof. rewrite !comparePriority_le. unfold lexLe, priorityKey. simpl. lia. Qed.

End Priority.


Lemma selectNextOperation_Some unscheduled assignments productsMap i op :
  selectNextOperation unscheduled assignments productsMap = Some (i, op) →
  selectedBy unscheduled assignments productsMap i op.
Proof.
  unfold selectNextOperation.
  set (ready := filter _ _). case_decide as Hlen; [done|].
  rewrite head_arraySort. intros Hmin.
  apply (firstMin_spec _
           (λ a b, comparePriority_total productsMap a.2 b.2)
           (λ a b c, comparePriority_trans productsMap a.2 b.2 c.2))
    in Hmin as (l1 & l2 & Hsplit & Hbefore & Hafter).
  assert (Hmem : ∀ j o, (j, o) ∈ ready ↔
                   unscheduled !! j = Some o ∧ isReady assignments o = true).
  { intros j o. unfold ready. rewrite list_elem_of_filter, elem_of_lookup_imap. simpl.
    naive_solver. }
  assert (Hsorted : StronglySorted (λ a b : nat * SchedulableOperation, (a.1 < b.1)%nat) ready).
  { apply StronglySorted_filter, StronglySorted_imap. simpl. auto. }
  assert (Hop : (i, op) ∈ ready) by (rewrite Hsplit; set_solver).
  apply Hmem in Hop as [Hi Hready]. split_and!; [done|done|].
  intros j o Hj Hro.
  assert (Hin : (j, o) ∈ ready) by (by apply Hmem).
  rewrite Hsplit in Hin, Hsorted.
  rewrite Forall_forall in Hbefore. rewrite Forall_forall in Hafter.
  apply elem_of_app in Hin as [Hin|Hin].
  - specialize (Hbefore _ Hin). simpl in Hbefore.
    apply comparePriority_gt in Hbefore.
    split; [|done]. unfold lexLt, lexLe in *. lia.
  - apply elem_of_cons in Hin as [Heq|Hin].
    + simplify_eq. split; [unfold lexLe; lia|lia].
    + specialize (Hafter _ Hin). simpl in Hafter.
      apply comparePriority_le in Hafter. split; [done|].
      intros Hlt.
      apply StronglySorted_app_1_r in Hsorted.
      inversion_clear Hsorted as [|?? _ Hall]. rewrite Forall_forall in Hall.
      specialize (Hall _ Hin). simpl in Hall. lia.
Qed.


Lemma selectNextOperation_is_Some unscheduled assignments productsMap :
  filter (λ op, isReady assignments op = true) unscheduled ≠ [] →
  is_Some (selectNextOperation unscheduled assignments productsMap).
Proof.
  intros Hready. unfold selectNextOperation.
  set (ready := filter _ (imap pair unscheduled)).
  assert (Hne : ready ≠ []).
  { destruct (filter _ unscheduled) as [|o l] eqn:Hf; [done|].
    assert (Ho : o ∈ filter (λ op, isReady assignments op = true) unscheduled)
      by (rewrite Hf; left).
    apply list_elem_of_filter in Ho as [Hro Ho].
    apply list_elem_of_lookup in Ho as [j Hj].
    assert (Hin : (j, o) ∈ ready).
    { unfold ready. apply list_elem_of_filter. split; [done|].
      by apply (elem_of_lookup_imap_2 pair). }
    intros Heq. rewrite Heq in Hin. by apply elem_of_nil in Hin. }
  case_decide as Hlen; [by destruct ready|].
  rewrite head_arraySort.
  destruct ready as [|x ready']; [done|]. simpl.
  destruct (firstMin _ ready'); [by case_decide|done].
Qed.


(** ** [JsMap] *)

Lemma JsMap_get_set_eq {V} k (v : V) m : JsMap.get k (JsMap.set k v m) = Some v.
Proof.
  induction m as [|[k' v'] m IH]; simpl.
  - by rewrite decide_True.
  - case_decide; simpl.
    + by rewrite decide_True.
    + by rewrite decide_False.
Qed.

Lemma JsMap_get_set_ne {V} k k' (v : V) m :
  k ≠ k' → JsMap.get k' (JsMap.set k v m) = JsMap.get k' m.
Proof.
  intros Hne. induction m as [|[k0 v0] m IH]; simpl.
  - by rewrite decide_False.
  - case_decide; simpl.
    + subst. by rewrite !decide_False.
    + by rewrite IH.
Qed.

Lemma JsMap_get_set {V} k k' (v : V) m :
  JsMap.get k' (JsMap.set k v m) = if decide (k = k') then Some v else JsMap.get k' m.
Proof.
  case_decide; [subst; apply JsMap_get_set_eq|by apply JsMap_get_set_ne].
Qed.

Lemma JsMap_get_None {V} k (m : JsMap.t V) : JsMap.get k m = None ↔ k ∉ JsMap.keys m.
Proof.
  unfold JsMap.keys. induction m as [|[k' v'] m IH]; csimpl.
  - split; [intros _; apply not_elem_of_nil|done].
  - rewrite not_elem_of_cons. case_decide; [naive_solver|]. rewrite IH. naive_solver.
Qed.

Lemma JsMap_get_Some_elem_of {V} k (v : V) m : JsMap.get k m = Some v → (k, v) ∈ m.
Proof.
  induction m as [|[k' v'] m IH]; simpl; [done|].
  case_decide; [intros [= ->]; subst; left|intros; right; auto].
Qed.

Lemma JsMap_elem_of_get {V} k (v : V) m :
  NoDup (JsMap.keys m) → (k, v) ∈ m → JsMap.get k m = Some v.
Proof.
  unfold JsMap.keys. induction m as [|[k' v'] m IH]; csimpl.
  - intros _ Hin. by apply elem_of_nil in Hin.
  - intros [Hk' Hnd]%NoDup_cons [Heq|Hin]%elem_of_cons.
    + simplify_eq. by rewrite decide_True.
    + rewrite decide_False; [by apply IH|].
      intros ->. apply Hk'. apply list_elem_of_fmap. by exists (k, v).
Qed.

Lemma JsMap_keys_set {V} k (v : V) m :
  JsMap.keys (JsMap.set k v m) =
  if decide (k ∈ JsMap.keys m) then JsMap.keys m else JsMap.keys m ++ [k].
Proof.
  unfold JsMap.keys. induction m as [|[k' v'] m IH]; csimpl.
  - done.
  - destruct (decide (k' = k)) as [->|Hne]; csimpl.
    + rewrite decide_True; [done|left].
    + rewrite IH. destruct (decide (k ∈ m.*1)) as [Hin|Hnin].
      * rewrite decide_True; [done|by right].
      * rewrite decide_False; [done|]. rewrite not_elem_of_cons. split; [done|done].
Qed.

Lemma JsMap_keys_set_NoDup {V} k (v : V) m :
  NoDup (JsMap.keys m) → NoDup (JsMap.keys (JsMap.set k v m)).
Proof.
  intros Hnd. rewrite JsMap_keys_set. case_decide; [done|].
  apply NoDup_app. split_and!; [done| |apply NoDup_singleton].
  intros x Hx ->%list_elem_of_singleton. done.
Qed.

Lemma JsMap_fold_set_NoDup {A V} (f : A → string) (g : A → V) (l : list A) m :
  NoDup (JsMap.keys m) →
  NoDup (JsMap.keys (fold_left (λ m x, JsMap.set (f x) (g x) m) l m)).
Proof.
  revert m. induction l as [|x l IH]; intros m Hnd; simpl; [done|].
  apply IH. by apply JsMap_keys_set_NoDup.
Qed.

Lemma JsMap_fold_set_keys {A V} (f : A → string) (g : A → V) (l : list A) m k :
  k ∈ JsMap.keys (fold_left (λ m x, JsMap.set (f x) (g x) m) l m)
  ↔ k ∈ JsMap.keys m ∨ k ∈ f <$> l.
Proof.
  revert m. induction l as [|x l IH]; intros m; csimpl.
  - rewrite elem_of_nil. naive_solver.
  - rewrite IH, JsMap_keys_set, elem_of_cons.
    case_decide as Hin; [naive_solver|].
    rewrite elem_of_app, list_elem_of_singleton. naive_solver.
Qed.

(** A property of all bindings survives [set] when the new binding has it. *)
Lemma JsMap_set_Forall {V} (P : string → V → Prop) k v m :
  (∀ k' v', JsMap.get k' m = Some v' → P k' v') → P k v →
  ∀ k' v', JsMap.get k' (JsMap.set k v m) = Some v' → P k' v'.
Proof.
  intros Hm Hv k' v'. rewrite JsMap_get_set. case_decide; [|by apply Hm].
  intros [= <-]. by subst.
Qed.

Lemma JsMap_fold_set_Forall {A V} (P : string → V → Prop)
    (f : A → string) (g : A → V) (l : list A) m :
  (∀ k v, JsMap.get k m = Some v → P k v) →
  (∀ x, x ∈ l → P (f x) (g x)) →
  ∀ k v, JsMap.get k (fold_left (λ m x, JsMap.set (f x) (g x) m) l m) = Some v → P k v.
Proof.
  revert m. induction l as [|x l IH]; intros m Hm Hl; simpl; [done|].
  apply IH.
  - apply JsMap_set_Forall; [done|]. apply Hl. left.
  - intros y Hy. apply Hl. by right.
Qed.

(** ** Placement search ([tryPlaceOperation]) *)

Lemma fold_left_invariant {A B} (I : A → Prop) (f : A → B → A) (l : list B) a :
  (∀ a b, b ∈ l → I a → I (f a b)) → I a → I (fold_left f l a).
Proof.
  revert a. induction l as [|b l IH]; intros a Hf Ha; simpl; [done|].
  apply IH.
  - intros a' b' Hb'. apply Hf. by right.
  - apply Hf; [left|done].
Qed.

Section TryPlace.
Variable operation : SchedulableOperation.
Variable matrix : gmap string Z.
Variable states : JsMap.t ResourceState.

Let good (acc : Search) : Prop :=
  ∀ p, bestPlacement acc = Some p → goodPlacement operation states p.

Lemma tryGap_good resource sorted window acc i :
  is_Some (JsMap.get (nr_id resource) states) →
  good acc → good (tryGap operation matrix resource sorted window acc i).
Proof.
  intros Hstate Hacc. unfold tryGap.
  set (gapStart := Z.max (earliestStart operation) _).
  set (gapEnd := Z.min (i_end window) _).
  set (changeoverTime := getChangeoverTime _ _ _).
  case_decide as Hgap; [done|].
  case_decide as Hfit.
  - destruct (_ || _); [|done].
    intros p [= <-]. unfold goodPlacement. simpl.
    split_and!; [|done|done].
    destruct Hfit as [Hfit _]. unfold gapStart in *. lia.
  - case_decide; [|done]. intros p Hp. simpl in Hp. by apply Hacc.
Qed.

Lemma tryWindow_good resource sorted acc window :
  is_Some (JsMap.get (nr_id resource) states) →
  good acc → good (tryWindow operation matrix resource sorted acc window).
Proof.
  intros Hstate Hacc. unfold tryWindow. case_decide; [done|].
  apply (fold_left_invariant good); [|done].
  intros acc' i _. by apply tryGap_good.
Qed.

Lemma tryResource_good acc resource :
  good acc → good (tryResource operation matrix states acc resource).
Proof.
  intros Hacc. unfold tryResource.
  destruct (JsMap.get (nr_id resource) states) as [state|] eqn:Hstate; [|done].
  apply (fold_left_invariant good); [|done].
  intros acc' window _. apply tryWindow_good. by rewrite Hstate.
Qed.

Lemma tryPlaceOperation_good eligible p near :
  tryPlaceOperation operation eligible states matrix = (Some p, near) →
  goodPlacement operation states p.
Proof.
  unfold tryPlaceOperation. intros [= Hp _]. revert p Hp.
  apply (fold_left_invariant good); [|done].
  intros acc resource _. apply tryResource_good.
Qed.

End TryPlace.

(** ** The driving loop as a transition system *)

Section Loop.
Variable now : nat → Z.
Variable deadline : Z.
Variable maxIterations : nat.
Variable normalized : Normalized.
Variable productsMap : JsMap.t NormalizedProduct.

Abbreviation body := (loopBody now deadline maxIterations normalized productsMap).
Abbreviation step := (stepsTo now deadline maxIterations normalized productsMap).
Abbreviation loop := (drivingLoop now deadline maxIterations normalized productsMap).

Lemma loopBody_Continue st st' :
  body st = Continue st' →
  ∃ position selected placement,
    let nextOp := raiseToPriorStep (assignments st) selected in
    selectedBy (unscheduled st) (assignments st) productsMap position selected
    ∧ (iteration st ≤ maxIterations)%nat
    ∧ goodPlacement nextOp (resourceStates st) placement
    ∧ pl_end placement ≤ horizonEnd normalized
    ∧ st' = advance st (<[ position := nextOp ]> (unscheduled st)) nextOp
                    (assignmentOf nextOp placement).
Proof.
  unfold loopBody.
  case_decide; [done|]. case_decide as Hiter; [done|].
  destruct (selectNextOperation _ _ _) as [[position selected]|] eqn:Hsel; [|done].
  case_decide; [done|].
  destruct (tryPlaceOperation _ _ _ _) as [[placement|] near] eqn:Hplace; [|done].
  case_decide as Hend; [done|]. intros [= <-].
  exists position, selected, placement. simpl. split_and!.
  - by apply selectNextOperation_Some.
  - lia.
  - by eapply tryPlaceOperation_good.
  - lia.
  - done.
Qed.

Lemma rtc_step_invariant (I : LoopState → Prop) st0 st :
  (∀ st st', I st → step st st' → I st') → I st0 → rtc step st0 st → I st.
Proof. intros Hstep H0 Hrtc. induction Hrtc; eauto. Qed.

Lemma drivingLoop_exit fuel st st' :
  loop fuel st = Some (inr st') → rtc step st st' ∧ unscheduled st' = [].
Proof.
  revert st. induction fuel as [|fuel IH]; intros st; simpl.
  - case_decide as Hlen; [done|]. intros [= <-]. split; [done|].
    destruct (unscheduled st); [done|simpl in Hlen; lia].
  - case_decide as Hlen.
    + destruct (body st) as [r|st1] eqn:Hbody; [done|].
      intros [Hrtc Hnil]%IH. split; [|done]. by eapply rtc_l.
    + intros [= <-]. split; [done|].
      destruct (unscheduled st); [done|simpl in Hlen; lia].
Qed.

Lemma drivingLoop_return fuel st result :
  loop fuel st = Some (inl result) →
  ∃ st1, rtc step st st1 ∧ unscheduled st1 ≠ [] ∧ body st1 = Return result.
Proof.
  revert st. induction fuel as [|fuel IH]; intros st; simpl.
  - by case_decide.
  - case_decide as Hlen; [|done].
    destruct (body st) as [r|st1] eqn:Hbody.
    + intros [= <-]. exists st. split_and!; [done| |done].
      intros Hnil. rewrite Hnil in Hlen. simpl in Hlen. lia.
    + intros (st2 & Hrtc & Hne & Hret)%IH. exists st2.
      split_and!; [|done|done]. by eapply rtc_l.
Qed.

(** The iteration guard alone bounds the loop: [maxIterations + 2] passes
    always suffice. *)
Lemma drivingLoop_terminates fuel st :
  (iteration st ≤ maxIterations + 1)%nat →
  (maxIterations + 2 ≤ fuel + iteration st)%nat →
  is_Some (loop fuel st).
Proof.
  revert st. induction fuel as [|fuel IH]; intros st Hit Hfuel; simpl.
  - lia.
  - case_decide as Hlen; [|done].
    destruct (body st) as [r|st1] eqn:Hbody; [done|].
    apply loopBody_Continue in Hbody as (? & ? & ? & _ & Hle & _ & _ & ->).
    apply IH; simpl; lia.
Qed.

End Loop.

(** ** No overlap on a resource *)

Lemma allPairs_perm {A} (R : A → A → Prop) (l l' : list A) :
  l ≡ₚ l' → allPairs R l → allPairs R l'.
Proof.
  induction 1 as [|x l l' Hperm IH|x y l|l1 l2 l3 _ IH1 _ IH2]; simpl.
  - done.
  - intros [Hx Hl]. split; [by rewrite <- Hperm|by apply IH].
  - intros [[[Hyx Hxy] Hy]%Forall_cons_1 [Hx Hl]].
    split_and!; [|done|done]. constructor; [done|done].
  - auto.
Qed.

Lemma allPairs_lookup {A} (R : A → A → Prop) (l : list A) i j x y :
  allPairs R l → i ≠ j → l !! i = Some x → l !! j = Some y → R x y.
Proof.
  revert i j. induction l as [|z l IH]; intros i j Hall Hij Hi Hj.
  - by rewrite lookup_nil in Hi.
  - destruct Hall as [Hz Hl]. rewrite Forall_forall in Hz.
    destruct i as [|i], j as [|j]; simpl in *; simplify_eq.
    + apply Hz. by eapply list_elem_of_lookup_2.
    + apply Hz. by eapply list_elem_of_lookup_2.
    + eapply (IH i j); [done|congruence|done|done].
Qed.

Lemma allPairs_filter_lookup {A} (R : A → A → Prop) (P : A → Prop)
    `{∀ x, Decision (P x)} (l : list A) i j x y :
  allPairs R (filter P l) → i ≠ j → l !! i = Some x → l !! j = Some y →
  P x → P y → R x y.
Proof.
  revert i j. induction l as [|z l IH]; intros i j Hall Hij Hi Hj Hx Hy.
  - by rewrite lookup_nil in Hi.
  - rewrite filter_cons in Hall.
    destruct i as [|i], j as [|j]; simpl in *; simplify_eq.
    + rewrite decide_True in Hall by done. destruct Hall as [Hz _].
      rewrite Forall_forall in Hz. apply Hz. apply list_elem_of_filter.
      split; [done|]. by eapply list_elem_of_lookup_2.
    + rewrite decide_True in Hall by done. destruct Hall as [Hz _].
      rewrite Forall_forall in Hz. apply Hz. apply list_elem_of_filter.
      split; [done|]. by eapply list_elem_of_lookup_2.
    + eapply (IH i j); [|congruence|done|done|done|done].
      case_decide; [by destruct Hall|done].
Qed.

Lemma sorted_adjacent_allPairs (l : list InternalAssignment) :
  StronglySorted (λ a b, a_start a ≤ a_start b) l →
  Forall (λ pr, ¬ overlapping pr) (adjacentPairs l) →
  allPairs noOverlap l.
Proof.
  induction 1 as [|x l Hs IH Hall]; intros Hadj; simpl; [done|].
  destruct l as [|y l]; [by split|].
  simpl in Hadj. apply Forall_cons_1 in Hadj as [Hxy Hadj].
  unfold overlapping in Hxy. simpl in Hxy.
  split; [|by apply IH].
  assert (Hy : Forall (λ z, a_start y ≤ a_start z) (y :: l)).
  { constructor; [lia|]. by inversion_clear Hs. }
  eapply Forall_impl; [exact Hy|].
  intros z Hz. unfold noOverlap. simpl in Hz. lia.
Qed.

Lemma validateNoOverlap_None entries rid state :
  validateNoOverlap entries = None → (rid, state) ∈ entries →
  allPairs noOverlap (rs_assignments state).
Proof.
  induction entries as [|[rid' state'] entries IH]; simpl.
  - intros _ Hin. by apply elem_of_nil in Hin.
  - destruct (list_find _ _) as [[? [prev cur]]|] eqn:Hfind; [done|].
    intros Hrest [Heq|Hin]%elem_of_cons; [|by apply IH].
    simplify_eq. apply list_find_None in Hfind.
    eapply allPairs_perm; [apply (arraySort_perm byAssignmentStart)|].
    apply sorted_adjacent_allPairs; [|done].
    apply (arraySort_by_key_sorted a_start).
Qed.

Lemma statesTrack_initial normalized operations :
  statesTrack (initialState normalized operations).
Proof.
  unfold statesTrack, initialState. simpl. split_and!.
  - by apply (JsMap_fold_set_NoDup (λ id, id)
                (λ _, {| lastFamily := None; rs_assignments := [] |})), NoDup_nil.
  - intros rid state Hget. rewrite filter_nil.
    revert rid state Hget.
    apply (JsMap_fold_set_Forall (λ _ state, rs_assignments state ≡ₚ [])
             (λ id, id) (λ _, {| lastFamily := None; rs_assignments := [] |}));
      [done|done].
  - intros a Ha. by apply elem_of_nil in Ha.
Qed.

Lemma statesTrack_advance st pool nextOp placement :
  is_Some (JsMap.get (pl_resource placement) (resourceStates st)) →
  statesTrack st →
  statesTrack (advance st pool nextOp (assignmentOf nextOp placement)).
Proof.
  intros [state Hstate] (Hnd & Htrack & Hhas).
  unfold statesTrack, advance, updateStates. simpl. rewrite Hstate.
  split_and!.
  - by apply JsMap_keys_set_NoDup.
  - intros rid state'. rewrite JsMap_get_set, filter_app, filter_cons, filter_nil. simpl.
    destruct (decide (pl_resource placement = rid)) as [<-|Hne].
    + intros [= <-]. simpl. rewrite arraySort_perm.
      by rewrite (Htrack _ _ Hstate).
    + intros Hget. rewrite app_nil_r. by apply Htrack.
  - intros a [Ha|Ha%list_elem_of_singleton]%elem_of_app; rewrite JsMap_get_set.
    + case_decide; [done|by apply Hhas].
    + subst. simpl. by rewrite decide_True.
Qed.

Lemma statesTrack_reachable now deadline maxIterations normalized productsMap st0 st :
  statesTrack st0 →
  rtc (stepsTo now deadline maxIterations normalized productsMap) st0 st →
  statesTrack st.
Proof.
  intros H0. apply (rtc_step_invariant _ _ _ _ _ statesTrack); [|done].
  clear st0 st H0. intros st st' Hst Hstep.
  apply loopBody_Continue in Hstep
    as (position & selected & placement & _ & _ & (_ & _ & Hres) & _ & ->).
  by apply statesTrack_advance.
Qed.

(** The inversion of a run that reaches the final [denormalizeResult]. *)
Lemma scheduleCore_Placed now input all :
  scheduleCore now input = Some (Placed all) →
  let normalized := normalizeInput input in
  let operations := buildOperationsList (n_products normalized) in
  ∃ st,
    rtc (stepsTo now
           (now 0%nat + default 30 (time_limit_seconds <$> settings input) * 1000)
           (length operations * 5) normalized
           (JsMap.ofList (map (λ p, (np_id p, p)) (n_products normalized))))
        (initialState normalized operations) st
    ∧ unscheduled st = []
    ∧ validateNoOverlap (JsMap.entries (resourceStates st)) = None
    ∧ allAssignments st = all.
Proof.
  unfold scheduleCore. case_decide; [done|].
  destruct (drivingLoop _ _ _ _ _ _ _) as [[r|st]|] eqn:Hloop; [done| |done].
  destruct (validateNoOverlap _) eqn:Hval; [done|]. intros [= <-].
  apply drivingLoop_exit in Hloop as [Hrtc Hnil]. by exists st.
Qed.

(** C3 — No-overlap: in a schedule that [schedule] returns as a success, two
    distinct assignments placed on the same resource never have overlapping
    half-open intervals. *)
Theorem schedule_no_overlap (now : nat → Z) (input : Input)
    (all : list InternalAssignment) :
  scheduleCore now input = Some (Placed all) →
  ∀ i j a b,
    i ≠ j → all !! i = Some a → all !! j = Some b →
    a_resource a = a_resource b →
    ¬ (a_start a < a_end b ∧ a_start b < a_end a).
Proof.
  intros (st & Hrtc & _ & Hval & <-)%scheduleCore_Placed i j a b Hij Hi Hj Hres.
  apply statesTrack_reachable in Hrtc as (Hnd & Htrack & Hhas);
    [|apply statesTrack_initial].
  destruct (Hhas a) as [state Hstate]; [by eapply list_elem_of_lookup_2|].
  pose proof (validateNoOverlap_None _ _ _ Hval (JsMap_get_Some_elem_of _ _ _ Hstate))
    as Hpairs.
  eapply allPairs_perm in Hpairs; [|by apply Htrack].
  by apply (allPairs_filter_lookup noOverlap _ _ i j a b Hpairs).
Qed.

(** ** The pool *)

Lemma eraseStart_set op v : eraseStart (set_earliestStart op v) = eraseStart op.
Proof. done. Qed.

Lemma eraseStart_opKey o o' : eraseStart o = eraseStart o' → opKey o = opKey o'.
Proof. unfold eraseStart, set_earliestStart, opKey. intros [= Hp _ Hs _ _ _]. by rewrite Hp, Hs. Qed.

Lemma raiseToPriorStep_cases m op :
  raiseToPriorStep m op = op
  ∨ ∃ k priorStep,
      (0 < stepIndex op)%nat
      ∧ list_find (λ a, a_stepIndex a = (stepIndex op - 1)%nat)
                  (default [] (JsMap.get (productId op) m)) = Some (k, priorStep)
      ∧ raiseToPriorStep m op = set_earliestStart op (a_end priorStep).
Proof.
  unfold raiseToPriorStep. case_decide; [|by left].
  destruct (list_find _ _) as [[k priorStep]|] eqn:Hfind; [|by left].
  right. by exists k, priorStep.
Qed.

Lemma eraseStart_raiseToPriorStep m op :
  eraseStart (raiseToPriorStep m op) = eraseStart op.
Proof.
  destruct (raiseToPriorStep_cases m op) as [->|(? & ? & _ & _ & ->)]; done.
Qed.

Lemma eraseStart_raiseNextStep pool nextOp a :
  eraseStart <$> raiseNextStep pool nextOp a = eraseStart <$> pool.
Proof.
  unfold raiseNextStep.
  destruct (list_find _ _) as [[j nextStep]|] eqn:Hfind; [|done].
  apply list_find_Some in Hfind as (Hj & _ & _).
  rewrite list_fmap_insert, eraseStart_set.
  apply list_insert_id. by rewrite list_lookup_fmap, Hj.
Qed.

Lemma eraseStart_insert_selected m (pool : list SchedulableOperation)
    (position : nat) selected :
  pool !! position = Some selected →
  eraseStart <$> <[ position := raiseToPriorStep m selected ]> pool = eraseStart <$> pool.
Proof.
  intros Hpos. rewrite list_fmap_insert, eraseStart_raiseToPriorStep.
  apply list_insert_id. by rewrite list_lookup_fmap, Hpos.
Qed.

Lemma removeScheduled_delete (pool : list SchedulableOperation) nextOp
    (position : nat) o :
  pool !! position = Some o → opKey o = opKey nextOp →
  ∃ index o',
    pool !! index = Some o' ∧ opKey o' = opKey nextOp
    ∧ removeScheduled pool nextOp = delete index pool.
Proof.
  intros Hpos Hkey. unfold removeScheduled.
  destruct (list_find _ _) as [[index o']|] eqn:Hfind.
  - apply list_find_Some in Hfind as (Hidx & [Hpid Hstep] & _).
    exists index, o'. split_and!; [done| |done]. unfold opKey. by rewrite Hpid, Hstep.
  - apply list_find_None in Hfind. rewrite Forall_forall in Hfind.
    exfalso. apply (Hfind o); [by eapply list_elem_of_lookup_2|].
    unfold sameStep. unfold opKey in Hkey. by simplify_eq.
Qed.

(** What a successful pass does to the pool: exactly one operation, the one
    with the selected key, leaves it. *)
Lemma advance_pool st position selected a :
  unscheduled st !! position = Some selected →
  let nextOp := raiseToPriorStep (assignments st) selected in
  ∃ index o,
    unscheduled st !! index = Some o
    ∧ opKey o = opKey selected
    ∧ eraseStart <$> unscheduled (advance st (<[ position := nextOp ]> (unscheduled st)) nextOp a)
      = delete index (eraseStart <$> unscheduled st).
Proof.
  intros Hpos nextOp. simpl.
  set (pool := raiseNextStep _ _ _).
  assert (Herase : eraseStart <$> pool = eraseStart <$> unscheduled st).
  { unfold pool. rewrite eraseStart_raiseNextStep.
    by apply eraseStart_insert_selected. }
  assert (Hkey : opKey nextOp = opKey selected).
  { apply eraseStart_opKey, eraseStart_raiseToPriorStep. }
  assert (is_Some (pool !! position)) as [o Ho].
  { apply lookup_lt_is_Some. rewrite <- (length_fmap eraseStart), Herase, length_fmap.
    by eapply lookup_lt_Some. }
  assert (Hoe : eraseStart o = eraseStart selected).
  { pose proof (f_equal (λ l : list SchedulableOperation, l !! position) Herase) as He.
    simpl in He. rewrite !list_lookup_fmap, Ho, Hpos in He. simpl in He. congruence. }
  destruct (removeScheduled_delete pool nextOp position o Ho) as (index & o' & Hidx & Hk' & ->).
  { rewrite Hkey. by apply eraseStart_opKey. }
  assert (is_Some (unscheduled st !! index)) as [o0 Ho0].
  { apply lookup_lt_is_Some. rewrite <- (length_fmap eraseStart), <- Herase, length_fmap.
    by eapply lookup_lt_Some. }
  exists index, o0. split_and!; [done| |].
  - pose proof (f_equal (λ l : list SchedulableOperation, l !! index) Herase) as He.
    simpl in He. rewrite !list_lookup_fmap, Hidx, Ho0 in He. simpl in He.
    assert (He' : eraseStart o' = eraseStart o0) by congruence.
    rewrite <- Hkey, <- Hk'. symmetry. by apply eraseStart_opKey.
  - by rewrite list_fmap_delete, Herase.
Qed.

Lemma advance_pool_Forall (P : SchedulableOperation → Prop) st position nextOp a :
  (∀ o v, P o → earliestStart o ≤ v → P (set_earliestStart o v)) →
  Forall P (unscheduled st) → P nextOp →
  Forall P (unscheduled (advance st (<[ position := nextOp ]> (unscheduled st)) nextOp a)).
Proof.
  intros Hup Hpool Hnext. simpl.
  assert (Hpool1 : Forall P (<[ position := nextOp ]> (unscheduled st)))
    by (by apply Forall_insert).
  assert (Hpool2 : Forall P (raiseNextStep (<[ position := nextOp ]> (unscheduled st)) nextOp a)).
  { unfold raiseNextStep.
    destruct (list_find _ _) as [[j nextStep]|] eqn:Hfind; [|done].
    apply list_find_Some in Hfind as (Hj & _ & _).
    apply Forall_insert; [done|]. apply Hup; [|lia].
    rewrite Forall_forall in Hpool1. apply Hpool1. by eapply list_elem_of_lookup_2. }
  unfold removeScheduled. destruct (list_find _ _) as [[index ?]|].
  - by apply Forall_delete.
  - rewrite Forall_forall in Hpool2. apply Forall_forall.
    intros o Ho. apply Hpool2.
    destruct (raiseNextStep _ _ _) as [|o1 l] using rev_ind; [done|].
    rewrite removelast_last in Ho. apply elem_of_app. by left.
Qed.

(** ** Inversion of [scheduleCore] and [schedule] *)

Lemma validateNoOverlap_Some entries failure :
  validateNoOverlap entries = Some failure →
  ∃ rid prev cur, failure = overlapFailure rid prev cur.
Proof.
  induction entries as [|[rid state] entries IH]; simpl; [done|].
  destruct (list_find _ _) as [[? [prev cur]]|]; [|done].
  intros [= <-]. by exists rid, prev, cur.
Qed.

Lemma scheduleCore_Terminal now input result :
  scheduleCore now input = Some (Terminal result) →
  let normalized := normalizeInput input in
  let operations := buildOperationsList (n_products normalized) in
  let deadline := now 0%nat + default 30 (time_limit_seconds <$> settings input) * 1000 in
  let productsMap := JsMap.ofList (map (λ p, (np_id p, p)) (n_products normalized)) in
  (products input = [] ∧ result = emptyResult)
  ∨ (∃ st, rtc (stepsTo now deadline (length operations * 5) normalized productsMap)
               (initialState normalized operations) st
           ∧ unscheduled st ≠ []
           ∧ loopBody now deadline (length operations * 5) normalized productsMap st
             = Return result)
  ∨ (∃ rid prev cur, result = overlapFailure rid prev cur).
Proof.
  unfold scheduleCore. simpl. case_decide as Hlen.
  - intros [= <-]. left. split; [|done].
    rewrite length_map in Hlen. by destruct (products input).
  - destruct (drivingLoop _ _ _ _ _ _ _) as [[r|st]|] eqn:Hloop; [| |done].
    + intros [= <-]. right. left. by eapply drivingLoop_return.
    + destruct (validateNoOverlap _) eqn:Hval; [|done].
      intros [= <-]. right. right. by eapply validateNoOverlap_Some.
Qed.

Lemma denormalizeResult_Success all horizonStart products resources matrix :
  ∃ out kpis, denormalizeResult all horizonStart products resources matrix = Success out kpis.
Proof. unfold denormalizeResult. destruct (fold_left _ products _). eauto. Qed.

Lemma schedule_Failure now input error why :
  schedule now input = Some (Failure error why) →
  scheduleCore now input = Some (Terminal (Failure error why)).
Proof.
  unfold schedule.
  destruct (scheduleCore now input) as [[r|all]|]; simpl; [congruence| |done].
  match goal with
  | |- context [denormalizeResult ?a ?b ?c ?d ?e] =>
      destruct (denormalizeResult_Success a b c d e) as (out & kpis & ->)
  end.
  done.
Qed.

(** A success of [schedule] is the early return for no products, or the
    compilation of the assignments the loop placed, sorted by start. *)
Lemma schedule_Success now input out kpis :
  schedule now input = Some (Success out kpis) →
  (products input = [] ∧ out = [])
  ∨ ∃ all, scheduleCore now input = Some (Placed all)
           ∧ out = toOutput (h_start (horizon input))
                     <$> arraySort byAssignmentStart all.
Proof.
  unfold schedule.
  destruct (scheduleCore now input) as [[r|all]|] eqn:Hcore; simpl; [| |done].
  - intros [= ->]. apply scheduleCore_Terminal in Hcore.
    destruct Hcore as [[Hempty Hres]|[(st & _ & _ & Hret)|(rid & prev & cur & ?)]];
      [|exfalso|done].
    + left. split; [done|]. by injection Hres.
    + revert Hret. unfold loopBody. repeat case_decide; try done.
      all: destruct (selectNextOperation _ _ _) as [[??]|]; [|done].
      all: case_decide; [done|].
      all: destruct (tryPlaceOperation _ _ _ _) as [[?|] ?]; [|done].
      all: by case_decide.
  - intros Hres. right. exists all. split; [done|].
    revert Hres. unfold denormalizeResult.
    destruct (fold_left _ (n_products (normalizeInput input)) _). by intros [= <- _].
Qed.

Lemma scheduleCore_total now input : is_Some (scheduleCore now input).
Proof.
  unfold scheduleCore. case_decide; [done|].
  match goal with
  | |- context [drivingLoop ?a ?b ?c ?d ?e ?f ?g] =>
      destruct (drivingLoop_terminates a b c d e f g) as [[r|st] Hloop];
        [simpl; lia|simpl; lia|rewrite Hloop..]
  end.
  - done.
  - by destruct (validateNoOverlap _).
Qed.

Lemma schedule_total now input : is_Some (schedule now input).
Proof.
  unfold schedule. destruct (scheduleCore_total now input) as [o ->]. done.
Qed.

(** ** Loop progress *)

Section Progress.
Variable now : nat → Z.
Variable deadline : Z.
Variable maxIterations : nat.
Variable normalized : Normalized.
Variable productsMap : JsMap.t NormalizedProduct.

Lemma loopBody_progress st st' :
  loopBody now deadline maxIterations normalized productsMap st = Continue st' →
  iteration st' = S (iteration st)
  ∧ ∃ index, (index < length (unscheduled st))%nat
       ∧ eraseStart <$> unscheduled st' = delete index (eraseStart <$> unscheduled st).
Proof.
  intros (position & selected & placement & (Hpos & _) & _ & _ & _ & ->)%loopBody_Continue.
  split; [done|].
  destruct (advance_pool st position selected
              (assignmentOf (raiseToPriorStep (assignments st) selected) placement) Hpos)
    as (index & o & Hidx & _ & Heq).
  exists index. split; [by eapply lookup_lt_Some|done].
Qed.

Lemma loopBody_progress_length st st' :
  loopBody now deadline maxIterations normalized productsMap st = Continue st' →
  (iteration st' + length (unscheduled st') = iteration st + length (unscheduled st))%nat.
Proof.
  intros (-> & index & Hlt & Heq)%loopBody_progress.
  apply (f_equal length) in Heq. rewrite length_delete, !length_fmap in Heq.
  - lia.
  - apply lookup_lt_is_Some. by rewrite length_fmap.
Qed.

Lemma reachable_progress st0 st :
  rtc (stepsTo now deadline maxIterations normalized productsMap) st0 st →
  (iteration st + length (unscheduled st) = iteration st0 + length (unscheduled st0))%nat.
Proof.
  induction 1 as [|st1 st2 st3 Hstep _ IH]; [done|].
  rewrite IH. by apply loopBody_progress_length.
Qed.

Lemma loopBody_not_stuck st why :
  (iteration st ≤ maxIterations)%nat →
  loopBody now deadline maxIterations normalized productsMap st
  ≠ Return (Failure "Scheduler stuck in infinite loop" why).
Proof.
  intros Hit. unfold loopBody.
  case_decide; [done|]. case_decide; [lia|].
  destruct (selectNextOperation _ _ _) as [[position selected]|]; [|done].
  case_decide; [done|].
  destruct (tryPlaceOperation _ _ _ _) as [[placement|] near]; [|done].
  by case_decide.
Qed.

End Progress.

(** C10 — Loop progress: a pass through the body of the driving loop either
    returns a result or moves on with exactly one operation removed from the
    pool and the iteration counter one higher; hence in every state the loop
    reaches from its start, the passes made so far and the operations still
    pooled add up to the number N of operations, the counter stays within
    N <= 5 N = maxIterations, the body never takes the
    "Scheduler stuck in infinite loop" branch, and [schedule] always returns
    a result, never that failure. *)
Theorem drivingLoop_progress (now : nat → Z) (input : Input) :
  let normalized := normalizeInput input in
  let operations := buildOperationsList (n_products normalized) in
  let maxIterations := (length operations * 5)%nat in
  let deadline := now 0%nat + default 30 (time_limit_seconds <$> settings input) * 1000 in
  let productsMap := JsMap.ofList (map (λ p, (np_id p, p)) (n_products normalized)) in
  let body := loopBody now deadline maxIterations normalized productsMap in
  (∀ st st', body st = Continue st' →
     iteration st' = S (iteration st)
     ∧ ∃ index, (index < length (unscheduled st))%nat
          ∧ eraseStart <$> unscheduled st' = delete index (eraseStart <$> unscheduled st))
  ∧ (∀ st, rtc (stepsTo now deadline maxIterations normalized productsMap)
               (initialState normalized operations) st →
       (iteration st + length (unscheduled st) = length operations)%nat
       ∧ (iteration st ≤ maxIterations)%nat
       ∧ ∀ why, body st ≠ Return (Failure "Scheduler stuck in infinite loop" why))
  ∧ is_Some (schedule now input)
  ∧ (∀ why, schedule now input
           ≠ Some (Failure "Scheduler stuck in infinite loop" why)).
Proof.
  intros normalized operations maxIterations deadline productsMap body.
  assert (Hreach : ∀ st,
             rtc (stepsTo now deadline maxIterations normalized productsMap)
                 (initialState normalized operations) st →
             (iteration st + length (unscheduled st) = length operations)%nat).
  { intros st Hrtc. by apply reachable_progress in Hrtc. }
  assert (Hmax : (length operations ≤ maxIterations)%nat) by (unfold maxIterations; lia).
  split_and!.
  - apply loopBody_progress.
  - intros st Hrtc. specialize (Hreach st Hrtc). split_and!; [done|lia|].
    intros why. apply loopBody_not_stuck. lia.
  - apply schedule_total.
  - intros why Hstuck%schedule_Failure%scheduleCore_Terminal.
    destruct Hstuck as [[_ ?]|[(st & Hrtc & _ & Hret)|(rid & prev & cur & ?)]]; [done| |done].
    revert Hret. apply loopBody_not_stuck.
    specialize (Hreach st Hrtc). change (iteration st ≤ maxIterations)%nat. lia.
Qed.

(** ** The [assignments] map *)

Lemma recordAssignment_get m a pid :
  default [] (JsMap.get pid (recordAssignment m a))
  = if decide (a_productId a = pid) then default [] (JsMap.get pid m) ++ [a]
    else default [] (JsMap.get pid m).
Proof.
  unfold recordAssignment, JsMap.has. rewrite JsMap_get_set.
  destruct (JsMap.get (a_productId a) m) as [l|] eqn:Hget.
  - case_decide; [subst; by rewrite Hget|done].
  - rewrite JsMap_get_set_eq. case_decide; [subst; by rewrite Hget|].
    by rewrite JsMap_get_set_ne.
Qed.

Lemma assignmentsTrack_initial normalized operations :
  assignmentsTrack (initialState normalized operations).
Proof. intros pid. done. Qed.

Lemma assignmentsTrack_advance st pool nextOp a :
  assignmentsTrack st → assignmentsTrack (advance st pool nextOp a).
Proof.
  intros Htrack pid. simpl.
  rewrite recordAssignment_get, filter_app, filter_cons, filter_nil, Htrack.
  case_decide; [done|by rewrite app_nil_r].
Qed.

Lemma assignmentsTrack_reachable now deadline maxIterations normalized productsMap st0 st :
  assignmentsTrack st0 →
  rtc (stepsTo now deadline maxIterations normalized productsMap) st0 st →
  assignmentsTrack st.
Proof.
  intros H0. apply (rtc_step_invariant _ _ _ _ _ assignmentsTrack); [|done].
  clear st0 st H0. intros st st' Hst Hstep.
  apply loopBody_Continue in Hstep as (? & ? & ? & _ & _ & _ & _ & ->).
  by apply assignmentsTrack_advance.
Qed.

(** The prior step that [raiseToPriorStep] and the readiness filter look up
    is an assignment of the same product, one step earlier. *)
Lemma priorStep_found st op k priorStep :
  assignmentsTrack st →
  list_find (λ a, a_stepIndex a = (stepIndex op - 1)%nat)
            (default [] (JsMap.get (productId op) (assignments st)))
  = Some (k, priorStep) →
  priorStep ∈ allAssignments st
  ∧ a_productId priorStep = productId op
  ∧ a_stepIndex priorStep = (stepIndex op - 1)%nat.
Proof.
  intros Htrack (Hk & Hstep & _)%list_find_Some.
  rewrite Htrack in Hk. apply list_elem_of_lookup_2, list_elem_of_filter in Hk.
  naive_solver.
Qed.

(** ** Horizon containment *)

Lemma buildOperationsList_elem_of products o :
  o ∈ buildOperationsList products ↔
  ∃ product k op, product ∈ products ∧ np_route product !! k = Some op
                  ∧ o = mkOp product k op.
Proof.
  unfold buildOperationsList. rewrite list_elem_of_bind. split.
  - intros (product & (k & op & -> & Hk)%elem_of_lookup_imap & Hp). by exists product, k, op.
  - intros (product & k & op & Hp & Hk & ->). exists product. split; [|done].
    apply elem_of_lookup_imap. by exists k, op.
Qed.

Lemma withinHorizon_initial input :
  inputSchema input →
  withinHorizon (horizonEnd (normalizeInput input))
    (initialState (normalizeInput input)
       (buildOperationsList (n_products (normalizeInput input)))).
Proof.
  intros (_ & _ & _ & Hproducts & _). split; simpl; [|constructor].
  apply Forall_forall. intros o (product & k & op & Hp & Hk & ->)%buildOperationsList_elem_of.
  simpl. split; [done|].
  apply list_elem_of_fmap in Hp as (p & -> & Hp). simpl in Hk.
  rewrite Forall_forall in Hproducts. destruct (Hproducts p Hp) as (_ & _ & _ & Hroute).
  rewrite Forall_forall in Hroute.
  destruct (Hroute op) as [_ Hd]; [by eapply list_elem_of_lookup_2|]. lia.
Qed.

Lemma withinHorizon_step now deadline maxIterations normalized productsMap st st' :
  assignmentsTrack st →
  withinHorizon (horizonEnd normalized) st →
  stepsTo now deadline maxIterations normalized productsMap st st' →
  withinHorizon (horizonEnd normalized) st'.
Proof.
  intros Htrack [Hpool Hall] Hstep.
  apply loopBody_Continue in Hstep
    as (position & selected & placement & (Hpos & _) & _ & (Hstart & Hend & _) & Hhor & ->).
  set (nextOp := raiseToPriorStep (assignments st) selected) in *.
  assert (Hsel : 0 ≤ earliestStart selected ∧ 0 ≤ duration selected).
  { rewrite Forall_forall in Hpool. apply Hpool. by eapply list_elem_of_lookup_2. }
  assert (Hnext : 0 ≤ earliestStart nextOp ∧ 0 ≤ duration nextOp).
  { unfold nextOp.
    destruct (raiseToPriorStep_cases (assignments st) selected)
      as [->|(k & priorStep & _ & Hfind & ->)]; [done|].
    simpl. split; [|lia].
    apply (priorStep_found st selected) in Hfind as [Hin _]; [|done].
    rewrite Forall_forall in Hall. specialize (Hall _ Hin). lia. }
  split.
  - apply (advance_pool_Forall (λ o, 0 ≤ earliestStart o ∧ 0 ≤ duration o));
      [|done|done].
    intros o v [? ?] ?. simpl. lia.
  - simpl. apply Forall_app. split; [done|].
    constructor; [|constructor]. simpl. lia.
Qed.

Lemma withinHorizon_reachable now deadline maxIterations normalized productsMap st0 st :
  assignmentsTrack st0 → withinHorizon (horizonEnd normalized) st0 →
  rtc (stepsTo now deadline maxIterations normalized productsMap) st0 st →
  withinHorizon (horizonEnd normalized) st.
Proof.
  intros Htrack0 H0 Hrtc.
  cut (assignmentsTrack st ∧ withinHorizon (horizonEnd normalized) st); [by intros [_ ?]|].
  revert Hrtc.
  apply (rtc_step_invariant _ _ _ _ _
           (λ st, assignmentsTrack st ∧ withinHorizon (horizonEnd normalized) st));
    [|done].
  clear st. intros st st' [Htrack Hwithin] Hstep. split.
  - eapply assignmentsTrack_reachable; [exact Htrack|]. by apply rtc_once.
  - by eapply withinHorizon_step.
Qed.

(** C8 — Horizon containment: for a request that passes the schema, every
    assignment of a successful schedule starts at or after minute 0 and ends
    at or before [horizon_length], the minutes from [horizon.start] to
    [horizon.end]. *)
Theorem schedule_within_horizon (now : nat → Z) (input : Input)
    (all : list InternalAssignment) :
  inputSchema input →
  scheduleCore now input = Some (Placed all) →
  ∀ a, a ∈ all →
    0 ≤ a_start a
    ∧ a_end a ≤ parseIsoOffset (h_end (horizon input)) (h_start (horizon input)).
Proof.
  intros Hschema (st & Hrtc & _ & _ & <-)%scheduleCore_Placed a Ha.
  apply withinHorizon_reachable in Hrtc as [_ Hall];
    [|apply assignmentsTrack_initial|by apply withinHorizon_initial].
  rewrite Forall_forall in Hall. specialize (Hall a Ha). simpl in Hall. lia.
Qed.

(** ** Precedence *)

Lemma NoDup_fmap_inj_on {A B} (f : A → B) (l : list A) x y :
  NoDup (f <$> l) → x ∈ l → y ∈ l → f x = f y → x = y.
Proof.
  induction l as [|z l IH]; csimpl.
  - intros _ Hx. by apply elem_of_nil in Hx.
  - intros [Hz Hnd]%NoDup_cons [->|Hx]%elem_of_cons [->|Hy]%elem_of_cons Hf.
    + done.
    + exfalso. apply Hz. rewrite Hf. by apply list_elem_of_fmap_2.
    + exfalso. apply Hz. rewrite <- Hf. by apply list_elem_of_fmap_2.
    + by apply IH.
Qed.

Lemma buildOperationsList_keys_NoDup products :
  NoDup (np_id <$> products) → NoDup (opKey <$> buildOperationsList products).
Proof.
  intros Hnd. unfold buildOperationsList.
  induction products as [|p products IH]; csimpl; [constructor|].
  apply NoDup_cons in Hnd as [Hp Hnd]. rewrite fmap_app.
  apply NoDup_app. split_and!.
  - rewrite fmap_imap.
    assert (Hgen : ∀ (route : list Operation) n,
               NoDup (imap (λ k op, (opKey ∘ mkOp p (n + k)) op) route)).
    { induction route as [|op route IHr]; intros n; simpl; [constructor|].
      constructor.
      - intros (k & op' & Heq & _)%elem_of_lookup_imap. unfold opKey in Heq.
        simpl in Heq. simplify_eq. lia.
      - erewrite imap_ext; [apply (IHr (S n))|].
        intros k op' _. simpl. unfold opKey. simpl. do 2 f_equal. lia. }
    apply (Hgen (np_route p) 0%nat).
  - intros key (o & -> & (k & op & -> & _)%elem_of_lookup_imap)%list_elem_of_fmap
                (o' & Hkey & Ho')%list_elem_of_fmap.
    apply Hp. apply list_elem_of_bind in Ho' as (p' & (k' & op' & -> & _)%elem_of_lookup_imap & Hp').
    unfold opKey in Hkey. simpl in Hkey. simplify_eq.
    apply list_elem_of_fmap. by exists p'.
  - by apply IH.
Qed.

Lemma raiseToPriorStep_found m op k priorStep :
  (0 < stepIndex op)%nat →
  list_find (λ a, a_stepIndex a = (stepIndex op - 1)%nat)
            (default [] (JsMap.get (productId op) m)) = Some (k, priorStep) →
  raiseToPriorStep m op = set_earliestStart op (a_end priorStep).
Proof.
  intros Hstep Hfind. unfold raiseToPriorStep.
  rewrite decide_True by done. by rewrite Hfind.
Qed.

Lemma opKey_fmap_eraseStart (l : list SchedulableOperation) :
  opKey <$> (eraseStart <$> l) = opKey <$> l.
Proof. rewrite <- list_fmap_compose. by apply list_fmap_ext. Qed.

Lemma keysSplit_step now deadline maxIterations normalized productsMap keys st st' :
  keysSplit keys st →
  stepsTo now deadline maxIterations normalized productsMap st st' →
  keysSplit keys st'.
Proof.
  unfold keysSplit. intros Hsplit Hstep.
  apply loopBody_Continue in Hstep
    as (position & selected & placement & (Hpos & _) & _ & _ & _ & ->).
  set (nextOp := raiseToPriorStep (assignments st) selected) in *.
  set (x := assignmentOf nextOp placement).
  assert (Hx : assignmentKey x = opKey selected).
  { change (opKey nextOp = opKey selected).
    apply eraseStart_opKey, eraseStart_raiseToPriorStep. }
  destruct (advance_pool st position selected x Hpos) as (index & o & Hidx & Hko & Heq).
  fold nextOp in Heq.
  apply (f_equal (fmap opKey)) in Heq.
  rewrite opKey_fmap_eraseStart, list_fmap_delete, opKey_fmap_eraseStart in Heq.
  rewrite Heq. simpl. rewrite fmap_app. simpl. rewrite Hx, <- Hko, <- Hsplit.
  assert (HK : opKey <$> unscheduled st
               ≡ₚ opKey o :: delete index (opKey <$> unscheduled st)).
  { apply delete_Permutation. by rewrite list_lookup_fmap, Hidx. }
  set (D := delete index (opKey <$> unscheduled st)) in *.
  rewrite HK, app_assoc. symmetry. simpl. apply Permutation_cons_append.
Qed.

Lemma keysSplit_reachable now deadline maxIterations normalized productsMap operations st :
  rtc (stepsTo now deadline maxIterations normalized productsMap)
      (initialState normalized operations) st →
  keysSplit (opKey <$> operations) st.
Proof.
  apply (rtc_step_invariant _ _ _ _ _ (keysSplit (opKey <$> operations))).
  - intros ????. by eapply keysSplit_step.
  - unfold keysSplit. simpl. by rewrite app_nil_r.
Qed.

Section Precedence.
Variable now : nat → Z.
Variable deadline : Z.
Variable maxIterations : nat.
Variable normalized : Normalized.
Variable productsMap : JsMap.t NormalizedProduct.
Variable keys : list (string * nat).
Hypothesis keys_NoDup : NoDup keys.

Lemma precedenceInv_step st st' :
  assignmentsTrack st → precedenceInv keys st →
  stepsTo now deadline maxIterations normalized productsMap st st' →
  precedenceInv keys st'.
Proof.
  intros Htrack (Hsplit & Hprior & Hprec) Hstep.
  pose proof (keysSplit_step _ _ _ _ _ _ _ _ Hsplit Hstep) as Hsplit'.
  unfold keysSplit in Hsplit.
  apply loopBody_Continue in Hstep
    as (position & selected & placement & (Hpos & Hready & _) & _
        & (Hstart & Hend & _) & _ & ->).
  set (nextOp := raiseToPriorStep (assignments st) selected) in *.
  set (x := assignmentOf nextOp placement).
  assert (Hkey : opKey nextOp = opKey selected)
    by apply eraseStart_opKey, eraseStart_raiseToPriorStep.
  assert (Hx : assignmentKey x = opKey selected) by (by rewrite <- Hkey).
  assert (Hxp : a_productId x = productId selected) by (by injection Hx).
  assert (Hxs : a_stepIndex x = stepIndex selected) by (by injection Hx).
  assert (Hnd : NoDup ((opKey <$> unscheduled st) ++ (assignmentKey <$> allAssignments st)))
    by (by rewrite Hsplit).
  apply NoDup_app in Hnd as (_ & Hdisj & Hnda).
  assert (Hfresh : ∀ a, a ∈ allAssignments st → assignmentKey a ≠ opKey selected).
  { intros a Ha Heq. apply (Hdisj (opKey selected)).
    - apply list_elem_of_fmap_2. by eapply list_elem_of_lookup_2.
    - rewrite <- Heq. by apply list_elem_of_fmap_2. }
  split_and!.
  - exact Hsplit'.
  - simpl. intros b k [Hb|Hb%list_elem_of_singleton]%elem_of_app Hbk.
    + destruct (Hprior b k Hb Hbk) as (a & Ha & Hak).
      exists a. split; [apply elem_of_app; by left|done].
    + subst b. rewrite Hxs in Hbk. rewrite Hxp.
      unfold isReady in Hready. rewrite decide_False in Hready by lia.
      destruct (list_find _ _) as [[j priorStep]|] eqn:Hfind; [|done].
      apply (priorStep_found st selected) in Hfind as (Hin & Hpid & Hps); [|done].
      exists priorStep. split; [apply elem_of_app; by left|].
      unfold assignmentKey. rewrite Hpid, Hps, Hbk. f_equal. lia.
  - simpl.
    intros a b [Ha|Ha%list_elem_of_singleton]%elem_of_app
               [Hb|Hb%list_elem_of_singleton]%elem_of_app Hpid Hsucc.
    + by apply Hprec.
    + subst b. rewrite Hxp in Hpid. rewrite Hxs in Hsucc.
      assert (Hfind : is_Some (list_find (λ a, a_stepIndex a = (stepIndex selected - 1)%nat)
                (default [] (JsMap.get (productId selected) (assignments st))))).
      { apply (list_find_elem_of _ _ a); [|lia].
        rewrite Htrack. apply list_elem_of_filter. by split. }
      destruct Hfind as [[j priorStep] Hfind].
      pose proof (raiseToPriorStep_found (assignments st) selected j priorStep
                    ltac:(lia) Hfind) as Hraise.
      apply (priorStep_found st selected) in Hfind as (Hin & Hppid & Hps); [|done].
      assert (priorStep = a) as ->.
      { apply (NoDup_fmap_inj_on assignmentKey (allAssignments st)); [done|done|done|].
        unfold assignmentKey. rewrite Hppid, Hps, Hpid. f_equal. lia. }
      unfold x. simpl. fold nextOp in Hraise. rewrite Hraise in Hstart. simpl in Hstart. lia.
    + subst a. rewrite Hxp in Hpid. rewrite Hxs in Hsucc.
      destruct (Hprior b (stepIndex selected) Hb Hsucc) as (a' & Ha' & Hka').
      exfalso. apply (Hfresh a' Ha'). rewrite Hka'. unfold opKey. by rewrite Hpid.
    + subst a b. lia.
Qed.

Lemma precedenceInv_reachable st0 st :
  assignmentsTrack st0 → precedenceInv keys st0 →
  rtc (stepsTo now deadline maxIterations normalized productsMap) st0 st →
  precedenceInv keys st.
Proof.
  intros Htrack0 H0 Hrtc.
  cut (assignmentsTrack st ∧ precedenceInv keys st); [by intros [_ ?]|].
  revert Hrtc.
  apply (rtc_step_invariant _ _ _ _ _
           (λ st, assignmentsTrack st ∧ precedenceInv keys st)); [|done].
  clear st. intros st st' [Htrack Hinv] Hstep. split.
  - eapply assignmentsTrack_reachable; [exact Htrack|]. by apply rtc_once.
  - by eapply precedenceInv_step.
Qed.

End Precedence.

Lemma precedenceInv_initial normalized operations :
  precedenceInv (opKey <$> operations) (initialState normalized operations).
Proof.
  split_and!; simpl.
  - unfold keysSplit. simpl. by rewrite app_nil_r.
  - intros b k Hb. by apply elem_of_nil in Hb.
  - intros a b Ha. by apply elem_of_nil in Ha.
Qed.

(** C4 — Precedence: when product ids are unique (as the data model
    requires), a successful schedule assigns every step of every product,
    and whenever two of its assignments belong to the same product and to
    consecutive steps i and i+1, step i+1 starts at or after the end of
    step i, whatever resources they use. *)
Theorem schedule_precedence (now : nat → Z) (input : Input)
    (all : list InternalAssignment) :
  NoDup (p_id <$> products input) →
  scheduleCore now input = Some (Placed all) →
  (∀ p k, p ∈ products input → (k < length (p_route p))%nat →
     ∃ a, a ∈ all ∧ a_productId a = p_id p ∧ a_stepIndex a = k)
  ∧ (∀ a b, a ∈ all → b ∈ all →
       a_productId a = a_productId b → a_stepIndex b = S (a_stepIndex a) →
       a_end a ≤ a_start b).
Proof.
  intros Hids (st & Hrtc & Hnil & _ & <-)%scheduleCore_Placed.
  apply precedenceInv_reachable
    with (keys := opKey <$> buildOperationsList (n_products (normalizeInput input)))
    in Hrtc as (Hsplit & _ & Hprec).
  - split; [|done].
    intros p k Hp Hk. unfold keysSplit in Hsplit. rewrite Hnil in Hsplit. simpl in Hsplit.
    apply lookup_lt_is_Some in Hk as [op Hop].
    assert (Hin : (p_id p, k)
                  ∈ opKey <$> buildOperationsList (n_products (normalizeInput input))).
    { apply list_elem_of_fmap.
      exists (mkOp (normalizeProduct (h_start (horizon input)) p) k op). split; [done|].
      apply buildOperationsList_elem_of.
      exists (normalizeProduct (h_start (horizon input)) p), k, op.
      split_and!; [|done|done]. simpl. by apply list_elem_of_fmap_2. }
    rewrite <- Hsplit in Hin. apply list_elem_of_fmap in Hin as (a & Hkey & Ha).
    exists a. unfold assignmentKey in Hkey. by simplify_eq.
  - apply buildOperationsList_keys_NoDup. simpl.
    rewrite <- list_fmap_compose. done.
  - apply assignmentsTrack_initial.
  - apply precedenceInv_initial.
Qed.

(** ** Failure detail *)

Lemma string_app_assoc (s1 s2 s3 : string) : (s1 +:+ s2) +:+ s3 = s1 +:+ (s2 +:+ s3).
Proof.
  induction s1 as [|c s1 IH]; [done|].
  change (String c ((s1 +:+ s2) +:+ s3) = String c (s1 +:+ (s2 +:+ s3))).
  by rewrite IH.
Qed.

Lemma opLabel_names op tail :
  namesOperation (opLabel op +:+ tail) (productId op) (stepIndex op).
Proof.
  exists (" (" +:+ capability op +:+ ")" +:+ tail).
  unfold opLabel. by rewrite !string_app_assoc.
Qed.

Lemma deadlock_line_names_nothing pid step :
  ¬ namesOperation "Precedence deadlock detected" pid step.
Proof. intros [rest Heq]. unfold String.append in Heq. discriminate. Qed.

Section FailureDetail.
Variable now : nat → Z.
Variable deadline : Z.
Variable maxIterations : nat.
Variable normalized : Normalized.
Variable productsMap : JsMap.t NormalizedProduct.

Lemma loopBody_Return_reports st error why :
  loopBody now deadline maxIterations normalized productsMap st
  = Return (Failure error why) →
  reportsOperation error →
  ∃ position selected line,
    unscheduled st !! position = Some selected
    ∧ line ∈ why
    ∧ namesOperation line (productId selected) (stepIndex selected).
Proof.
  unfold loopBody, reportsOperation.
  case_decide; [intros [= <- <-]; naive_solver|].
  case_decide; [intros [= <- <-]; naive_solver|].
  destruct (selectNextOperation _ _ _) as [[position selected]|] eqn:Hsel;
    [|intros [= <- <-]; naive_solver].
  apply selectNextOperation_Some in Hsel as (Hpos & _).
  set (nextOp := raiseToPriorStep (assignments st) selected).
  assert (Hkey : opKey nextOp = opKey selected)
    by apply eraseStart_opKey, eraseStart_raiseToPriorStep.
  assert (Hname : ∀ tail, namesOperation (opLabel nextOp +:+ tail)
                            (productId selected) (stepIndex selected)).
  { intros tail. injection Hkey as <- <-. apply opLabel_names. }
  case_decide.
  { intros [= <- <-] _. eexists position, selected, _.
    split_and!; [done|left|apply Hname]. }
  destruct (tryPlaceOperation _ _ _ _) as [[placement|] near].
  - case_decide; [|done]. intros [= <- <-] _. eexists position, selected, _.
    split_and!; [done|left|apply Hname].
  - intros [= <- <-] _. eexists position, selected, _.
    split_and!; [done|destruct near; left|apply Hname].
Qed.

Lemma loopBody_Return_deadlock st why :
  loopBody now deadline maxIterations normalized productsMap st
  = Return (Failure "No ready operations available" why) →
  why = ["Precedence deadlock detected"].
Proof.
  unfold loopBody.
  case_decide; [done|]. case_decide; [done|].
  destruct (selectNextOperation _ _ _) as [[position selected]|]; [|by intros [= <-]].
  case_decide; [done|].
  destruct (tryPlaceOperation _ _ _ _) as [[placement|] near]; [|done].
  by case_decide.
Qed.

Lemma poolFrom_reachable operations st :
  rtc (stepsTo now deadline maxIterations normalized productsMap)
      (initialState normalized operations) st →
  poolFrom operations st.
Proof.
  apply (rtc_step_invariant _ _ _ _ _ (poolFrom operations)).
  - clear st. intros st st' Hst (_ & index & _ & Heq)%loopBody_progress o Ho.
    assert (Hin : eraseStart o ∈ eraseStart <$> unscheduled st').
    { by apply list_elem_of_fmap_2. }
    rewrite Heq in Hin. apply list_elem_of_delete_inv in Hin.
    apply list_elem_of_fmap in Hin as (o' & -> & Ho'). by apply Hst.
  - intros o Ho. by apply list_elem_of_fmap_2.
Qed.

End FailureDetail.

Lemma operation_of_input input o :
  eraseStart o ∈ eraseStart <$> buildOperationsList (n_products (normalizeInput input)) →
  ∃ p, p ∈ products input ∧ productId o = p_id p
       ∧ (stepIndex o < length (p_route p))%nat.
Proof.
  intros (o' & Heq & (product & k & op & Hp & Hk & ->)%buildOperationsList_elem_of)
         %list_elem_of_fmap.
  simpl in Hp. apply list_elem_of_fmap in Hp as (p & -> & Hp).
  apply eraseStart_opKey in Heq. injection Heq as -> ->.
  exists p. split_and!; [done|done|]. simpl. by eapply lookup_lt_Some.
Qed.

(** The deadlock branch of the loop body, taken alone: run on a pool whose
    ready set is empty, a state that no request leads to (lemma
    [schedule_never_deadlocks]), the body returns the precedence-deadlock
    failure, and its [why] line names no product and no step. *)
Lemma precedence_deadlock_names_no_operation :
  loopBody (λ _, 0) 30000 5 emptyNormalized JsMap.empty deadlockedState
  = Return (Failure "No ready operations available" ["Precedence deadlock detected"])
  ∧ (0 < length (unscheduled deadlockedState))%nat
  ∧ ¬ (∃ line pid k, line ∈ ["Precedence deadlock detected"]
                     ∧ namesOperation line pid k).
Proof.
  split_and!.
  - by vm_compute.
  - simpl. lia.
  - intros (line & pid & k & ->%list_elem_of_singleton & Hname).
    by apply deadlock_line_names_nothing in Hname.
Qed.

(** ** The lookups behind the non-null assertions, and precedence deadlock *)

Lemma JsMap_is_Some_keys {V} k (m : JsMap.t V) :
  is_Some (JsMap.get k m) ↔ k ∈ JsMap.keys m.
Proof.
  rewrite <- not_eq_None_Some, JsMap_get_None. split; [apply dec_stable|auto].
Qed.

Lemma normalizeInput_resource_ids input k resource :
  JsMap.get k (n_resources (normalizeInput input)) = Some resource →
  nr_id resource = k.
Proof.
  simpl. revert k resource.
  apply (JsMap_fold_set_Forall (λ k v, nr_id v = k) r_id
           (normalizeResource (h_start (horizon input))
              (parseIsoOffset (h_end (horizon input)) (h_start (horizon input)))));
    [done|done].
Qed.

Lemma normalizeInput_resources_NoDup input :
  NoDup (JsMap.keys (n_resources (normalizeInput input))).
Proof.
  simpl.
  apply (JsMap_fold_set_NoDup r_id
           (normalizeResource (h_start (horizon input))
              (parseIsoOffset (h_end (horizon input)) (h_start (horizon input))))).
  apply NoDup_nil_2.
Qed.

(** Every resource of the normalised request has a state throughout the
    run, so [resourceStates.get(resource.id)!] is always defined. *)
Lemma resourceStates_keys now deadline maxIterations productsMap input operations st
    op resource :
  rtc (stepsTo now deadline maxIterations (normalizeInput input) productsMap)
      (initialState (normalizeInput input) operations) st →
  resource ∈ getEligibleResources op (n_resources (normalizeInput input)) →
  is_Some (JsMap.get (nr_id resource) (resourceStates st)).
Proof.
  intros Hrtc [_ Hres]%list_elem_of_filter.
  apply list_elem_of_fmap in Hres as ([k resource'] & -> & Hin). simpl.
  apply JsMap_elem_of_get in Hin; [|apply normalizeInput_resources_NoDup].
  rewrite (normalizeInput_resource_ids _ _ _ Hin).
  assert (Hk : k ∈ JsMap.keys (n_resources (normalizeInput input))).
  { apply JsMap_is_Some_keys. by rewrite Hin. }
  clear Hin. apply JsMap_is_Some_keys. revert Hrtc.
  apply (rtc_step_invariant _ _ _ _ _ (λ st, k ∈ JsMap.keys (resourceStates st))).
  - clear st. intros st st' Hst Hstep.
    apply loopBody_Continue in Hstep as (? & ? & placement & _ & _ & _ & _ & ->).
    simpl. unfold updateStates. simpl.
    destruct (JsMap.get (pl_resource placement) (resourceStates st)) eqn:Hget; [|done].
    rewrite JsMap_keys_set, decide_True; [done|].
    apply JsMap_is_Some_keys. by rewrite Hget.
  - unfold initialState. simpl.
    apply (JsMap_fold_set_keys (λ id, id)
             (λ _, {| lastFamily := None; rs_assignments := [] |})).
    right. by rewrite list_fmap_id.
Qed.

(** Every pooled operation finds its product, so
    [productsMap.get(a.productId)!] is always defined. *)
Lemma productsMap_complete now deadline maxIterations input st o :
  let normalized := normalizeInput input in
  let productsMap := JsMap.ofList (map (λ p, (np_id p, p)) (n_products normalized)) in
  rtc (stepsTo now deadline maxIterations normalized productsMap)
      (initialState normalized (buildOperationsList (n_products normalized))) st →
  o ∈ unscheduled st →
  is_Some (JsMap.get (productId o) productsMap).
Proof.
  intros normalized productsMap Hrtc Ho.
  apply poolFrom_reachable in Hrtc. specialize (Hrtc o Ho).
  apply list_elem_of_fmap in Hrtc
    as (o' & Heq & (product & k & op & Hp & _ & ->)%buildOperationsList_elem_of).
  apply eraseStart_opKey in Heq. injection Heq as -> _.
  apply JsMap_is_Some_keys. unfold productsMap, JsMap.ofList.
  apply (JsMap_fold_set_keys fst snd). right.
  rewrite <- list_fmap_compose. by apply (list_elem_of_fmap_2 (λ p, np_id p)).
Qed.

Lemma minimal_step (pool : list SchedulableOperation) :
  pool ≠ [] →
  ∃ o, o ∈ pool ∧ ∀ o', o' ∈ pool → (stepIndex o ≤ stepIndex o')%nat.
Proof.
  induction pool as [|x pool IH]; [done|]. intros _.
  destruct pool as [|y pool].
  - exists x. split; [left|]. intros o' ->%list_elem_of_singleton. done.
  - destruct IH as (m & Hm & Hmin); [done|].
    destruct (decide (stepIndex x ≤ stepIndex m)%nat).
    + exists x. split; [left|]. intros o' [->|Ho']%elem_of_cons; [done|].
      specialize (Hmin o' Ho'). lia.
    + exists m. split; [by right|]. intros o' [->|Ho']%elem_of_cons; [lia|by apply Hmin].
Qed.

(** While operations remain, the one with the least step index is ready:
    the ready set is never empty. *)
Lemma ready_exists now deadline maxIterations normalized productsMap products st :
  rtc (stepsTo now deadline maxIterations normalized productsMap)
      (initialState normalized (buildOperationsList products)) st →
  unscheduled st ≠ [] →
  filter (λ op, isReady (assignments st) op = true) (unscheduled st) ≠ [].
Proof.
  intros Hrtc Hne.
  pose proof (keysSplit_reachable _ _ _ _ _ _ _ Hrtc) as Hsplit.
  pose proof (poolFrom_reachable _ _ _ _ _ _ _ Hrtc) as Hfrom.
  pose proof (assignmentsTrack_reachable _ _ _ _ _ _ _
                (assignmentsTrack_initial _ _) Hrtc) as Htrack.
  destruct (minimal_step _ Hne) as (o & Ho & Hmin).
  cut (isReady (assignments st) o = true).
  { intros Hready Hnil.
    assert (Hin : o ∈ filter (λ op, isReady (assignments st) op = true) (unscheduled st))
      by (by apply list_elem_of_filter).
    rewrite Hnil in Hin. by apply elem_of_nil in Hin. }
  unfold isReady. case_decide as Hstep; [done|].
  destruct (stepIndex o) as [|k] eqn:Hk; [done|].
  specialize (Hfrom o Ho).
  apply list_elem_of_fmap in Hfrom
    as (o' & Heq & (product & j & op & Hp & Hj & ->)%buildOperationsList_elem_of).
  apply eraseStart_opKey in Heq. unfold opKey in Heq. simpl in Heq.
  rewrite Hk in Heq. injection Heq as Hpid <-.
  assert (is_Some (np_route product !! k)) as [op' Hop'].
  { apply lookup_lt_is_Some. apply lookup_lt_Some in Hj. lia. }
  assert (Hkey : (productId o, k) ∈ opKey <$> buildOperationsList products).
  { apply list_elem_of_fmap. exists (mkOp product k op'). split.
    - unfold opKey. simpl. by rewrite Hpid.
    - apply buildOperationsList_elem_of. by exists product, k, op'. }
  unfold keysSplit in Hsplit. rewrite <- Hsplit in Hkey.
  apply elem_of_app in Hkey as [Hkey|Hkey].
  - apply list_elem_of_fmap in Hkey as (o2 & Hkey & Ho2).
    specialize (Hmin o2 Ho2). unfold opKey in Hkey. injection Hkey as _ Hs2. lia.
  - apply list_elem_of_fmap in Hkey as (a & Hkey & Ha).
    unfold assignmentKey in Hkey. injection Hkey as Hap Has.
    destruct (list_find_elem_of (λ a, a_stepIndex a = (S k - 1)%nat)
                (default [] (JsMap.get (productId o) (assignments st))) a)
      as [[? ?] ->]; [|simpl; lia|done].
    rewrite Htrack. apply list_elem_of_filter. by split.
Qed.

(** The precedence-deadlock failure is never returned by [schedule]. *)
Lemma schedule_never_deadlocks now input why :
  schedule now input ≠ Some (Failure "No ready operations available" why).
Proof.
  intros Hfail%schedule_Failure%scheduleCore_Terminal.
  destruct Hfail as [[_ ?]|[(st & Hrtc & Hne & Hret)|(rid & prev & cur & ?)]]; [done| |done].
  apply ready_exists in Hrtc; [|done].
  apply (selectNextOperation_is_Some _ _
           (JsMap.ofList (map (λ p, (np_id p, p)) (n_products (normalizeInput input)))))
    in Hrtc as [[i op] Hsel].
  revert Hret. unfold loopBody.
  case_decide; [done|]. case_decide; [done|]. rewrite Hsel.
  case_decide; [done|].
  destruct (tryPlaceOperation _ _ _ _) as [[placement|] near]; [|done].
  by case_decide.
Qed.

(** ** Empty input *)

(** C9 — Empty input: a request with no products succeeds at once, with no
    assignments, every KPI at zero and an empty utilisation map; the result
    is the early return of [schedule], whatever the clock and the resources. *)
Theorem schedule_empty_products (now : nat → Z) (input : Input) :
  products input = [] →
  schedule now input
  = Some (Success []
            {| tardiness_minutes := 0; changeovers := 0; makespan_minutes := 0;
               utilization := ∅; on_time_jobs := 0; total_jobs := 0 |})
  ∧ scheduleCore now input = Some (Terminal emptyResult).
Proof.
  intros Hempty. unfold schedule, scheduleCore. simpl. rewrite Hempty. done.
Qed.

(** ** Calendar containment and changeover: what the code does *)

Lemma inputSchema_calendarGapInput : inputSchema calendarGapInput.
Proof.
  unfold inputSchema. simpl. split_and!; [lia| |apply map_Forall_empty| |by eexists].
  - repeat constructor; simpl; try done; lia.
  - repeat constructor; simpl; try done; lia.
Qed.

Lemma inputSchema_insertionInput : inputSchema insertionInput.
Proof.
  unfold inputSchema. simpl. split_and!; [lia| | | |by eexists].
  - repeat constructor; simpl; try done; lia.
  - by apply map_Forall_singleton.
  - repeat constructor; simpl; try done; lia.
Qed.

(** C1 on the code — the request [calendarGapInput] passes the schema and
    is scheduled with success, yet product P2 is assigned minutes 10..60 of
    resource R, whose calendar windows are 0..10 and 20..100: the assignment
    lies in no calendar window. *)
Theorem calendar_containment_violated :
  ∃ all a resource,
    inputSchema calendarGapInput
    ∧ scheduleCore frozenClock calendarGapInput = Some (Placed all)
    ∧ a ∈ all
    ∧ JsMap.get (a_resource a) (n_resources (normalizeInput calendarGapInput))
      = Some resource
    ∧ nr_calendar resource
      = [ {| i_start := 0; i_end := 10 |}; {| i_start := 20; i_end := 100 |} ]
    ∧ (a_start a, a_end a) = (10, 60)
    ∧ isWithinCalendarWindow (a_start a) (a_end a) (nr_calendar resource) = false.
Proof.
  eexists _, {| a_productId := "P2"; a_productFamily := "A"; a_stepIndex := 0;
                a_operationName := "c"; a_resource := "R";
                a_start := 10; a_end := 60 |}, _.
  split_and!.
  - apply inputSchema_calendarGapInput.
  - vm_compute. reflexivity.
  - right. left.
  - vm_compute. reflexivity.
  - reflexivity.
  - reflexivity.
  - vm_compute. reflexivity.
Qed.

(** C2 on the code — the request [insertionInput] passes the schema and is
    scheduled with success; on resource R2 the assignment of P2 (family B,
    minutes 0..50) is followed at once by that of P1 (family A, minutes
    50..60), although the changeover from B to A takes 20 minutes. *)
Theorem changeover_bound_violated :
  ∃ prev next,
    inputSchema insertionInput
    ∧ scheduleCore frozenClock insertionInput = Some (Placed insertionPlaced)
    ∧ adjacentOn "R2" insertionPlaced prev next
    ∧ a_productFamily prev ≠ a_productFamily next
    ∧ a_start next - a_end prev = 0
    ∧ default 0 (changeover_matrix_minutes insertionInput
                   !! (a_productFamily prev +:+ "->" +:+ a_productFamily next)) = 20
    ∧ getChangeoverTime (Some (a_productFamily prev)) (a_productFamily next)
                        (changeoverMatrix (normalizeInput insertionInput)) = 20.
Proof.
  exists {| a_productId := "P2"; a_productFamily := "B"; a_stepIndex := 0;
            a_operationName := "b"; a_resource := "R2"; a_start := 0; a_end := 50 |},
         {| a_productId := "P1"; a_productFamily := "A"; a_stepIndex := 1;
            a_operationName := "b"; a_resource := "R2"; a_start := 50; a_end := 60 |}.
  split_and!.
  - apply inputSchema_insertionInput.
  - vm_compute. reflexivity.
  - unfold adjacentOn. vm_compute. left.
  - simpl. discriminate.
  - reflexivity.
  - vm_compute. reflexivity.
  - vm_compute. reflexivity.
Qed.

(** ** The theorems at work on the sample requests *)

Lemma schedule_no_overlap_witness :
  scheduleCore frozenClock insertionInput = Some (Placed insertionPlaced)
  ∧ ¬ (a_start {| a_productId := "P1"; a_productFamily := "A"; a_stepIndex := 1;
                   a_operationName := "b"; a_resource := "R2";
                   a_start := 50; a_end := 60 |}
       < a_end {| a_productId := "P2"; a_productFamily := "B"; a_stepIndex := 0;
                  a_operationName := "b"; a_resource := "R2";
                  a_start := 0; a_end := 50 |}
       ∧ a_start {| a_productId := "P2"; a_productFamily := "B"; a_stepIndex := 0;
                    a_operationName := "b"; a_resource := "R2";
                    a_start := 0; a_end := 50 |}
         < a_end {| a_productId := "P1"; a_productFamily := "A"; a_stepIndex := 1;
                    a_operationName := "b"; a_resource := "R2";
                    a_start := 50; a_end := 60 |}).
Proof.
  assert (Hrun : scheduleCore frozenClock insertionInput = Some (Placed insertionPlaced))
    by (vm_compute; reflexivity).
  split; [exact Hrun|].
  apply (schedule_no_overlap frozenClock insertionInput insertionPlaced Hrun 1%nat 2%nat);
    [lia|reflexivity|reflexivity|reflexivity].
Defined.

Lemma schedule_precedence_witness :
  NoDup (p_id <$> products insertionInput)
  ∧ scheduleCore frozenClock insertionInput = Some (Placed insertionPlaced)
  ∧ (∀ p k, p ∈ products insertionInput → (k < length (p_route p))%nat →
       ∃ a, a ∈ insertionPlaced ∧ a_productId a = p_id p ∧ a_stepIndex a = k)
  ∧ (∀ a b, a ∈ insertionPlaced → b ∈ insertionPlaced →
       a_productId a = a_productId b → a_stepIndex b = S (a_stepIndex a) →
       a_end a ≤ a_start b).
Proof.
  assert (Hids : NoDup (p_id <$> products insertionInput)).
  { simpl. apply NoDup_cons. split; [|apply NoDup_singleton].
    intros Hin%list_elem_of_singleton. discriminate. }
  assert (Hrun : scheduleCore frozenClock insertionInput = Some (Placed insertionPlaced))
    by (vm_compute; reflexivity).
  split; [exact Hids|]. split; [exact Hrun|].
  exact (schedule_precedence frozenClock insertionInput insertionPlaced Hids Hrun).
Defined.


Lemma schedule_within_horizon_witness :
  inputSchema insertionInput
  ∧ scheduleCore frozenClock insertionInput = Some (Placed insertionPlaced)
  ∧ ∀ a, a ∈ insertionPlaced →
      0 ≤ a_start a
      ∧ a_end a ≤ parseIsoOffset (h_end (horizon insertionInput))
                                 (h_start (horizon insertionInput)).
Proof.
  assert (Hrun : scheduleCore frozenClock insertionInput = Some (Placed insertionPlaced))
    by (vm_compute; reflexivity).
  split; [exact inputSchema_insertionInput|]. split; [exact Hrun|].
  exact (schedule_within_horizon frozenClock insertionInput insertionPlaced
           inputSchema_insertionInput Hrun).
Defined.

Lemma schedule_empty_products_witness :
  products noProductsInput = []
  ∧ schedule frozenClock noProductsInput
    = Some (Success []
              {| tardiness_minutes := 0; changeovers := 0; makespan_minutes := 0;
                 utilization := ∅; on_time_jobs := 0; total_jobs := 0 |})
  ∧ scheduleCore frozenClock noProductsInput = Some (Terminal emptyResult).
Proof.
  split; [reflexivity|].
  exact (schedule_empty_products frozenClock noProductsInput eq_refl).
Defined.

(** * Further properties of the code *)

(** ** Overlap of two intervals *)

Lemma doIntervalsOverlap_false a b :
  doIntervalsOverlap a b = false ↔ ¬ (i_start a < i_end b ∧ i_start b < i_end a).
Proof.
  unfold doIntervalsOverlap. rewrite andb_false_iff, !bool_decide_eq_false.
  split; [tauto|]. intros Hn.
  destruct (decide (i_start a < i_end b)); [right; tauto|by left].
Qed.

(** The overlap test is symmetric, answers no for intervals that only touch
    or lie apart, answers yes whenever the two share a point, and for two
    non-empty intervals answers yes only if they share a point. *)
Theorem doIntervalsOverlap_spec (a b : NormalizedInterval) :
  doIntervalsOverlap a b = doIntervalsOverlap b a
  ∧ (i_end a ≤ i_start b → doIntervalsOverlap a b = false)
  ∧ (∀ x, contains a x → contains b x → doIntervalsOverlap a b = true)
  ∧ (i_start a < i_end a → i_start b < i_end b →
     doIntervalsOverlap a b = true → ∃ x, contains a x ∧ contains b x).
Proof.
  split_and!.
  - unfold doIntervalsOverlap. apply andb_comm.
  - intros Hab. apply doIntervalsOverlap_false. lia.
  - unfold contains. intros x Ha Hb. apply not_false_iff_true.
    rewrite doIntervalsOverlap_false. lia.
  - intros Ha Hb Hov. apply not_false_iff_true in Hov.
    rewrite doIntervalsOverlap_false in Hov.
    exists (Z.max (i_start a) (i_start b)). unfold contains. lia.
Qed.

(** ** Fitting a job into one window *)

(** On integers of the safe range whose sum stays in it, [canFitInWindow]
    answers the least start that is neither before the window nor before
    [earliestStart], provided the job then ends inside the window; it
    answers nothing exactly when no such start lets the job end inside the
    window. *)
Theorem canFitInWindow_spec (window : NormalizedInterval) (duration earliestStart : Z) :
  safeInteger (i_start window) → safeInteger (i_end window) →
  safeInteger duration → safeInteger earliestStart →
  safeInteger (Z.max (i_start window) earliestStart + duration) →
  match canFitInWindow window duration earliestStart with
  | Some s =>
      i_start window ≤ s ∧ earliestStart ≤ s ∧ s + duration ≤ i_end window
      ∧ safeInteger s ∧ safeInteger (s + duration)
      ∧ ∀ s', i_start window ≤ s' → earliestStart ≤ s' → s ≤ s'
  | None =>
      ∀ s', i_start window ≤ s' → earliestStart ≤ s' → ¬ s' + duration ≤ i_end window
  end.
Proof.
  unfold safeInteger, canFitInWindow. intros Hs He Hd Hes Hsum.
  case_decide; [split_and!|]; intros; lia.
Qed.


(** ** The earliest available slot *)


Lemma combineOverlappingIntervals_covered intervals x :
  covered (combineOverlappingIntervals intervals) x ↔ covered intervals x.
Proof.
  rewrite combineOverlappingIntervals_mergeFrom.
  pose proof (arraySort_by_key_sorted i_start intervals) as Hsorted.
  pose proof (arraySort_perm byStart intervals) as Hperm.
  change (λ a b, i_start a - i_start b) with byStart in Hsorted.
  assert (Hcov : covered (arraySort byStart intervals) x ↔ covered intervals x).
  { unfold covered. by setoid_rewrite Hperm. }
  destruct (arraySort byStart intervals) as [|first rest]; [done|].
  inversion_clear Hsorted as [|?? Hs Hall].
  rewrite <- Hcov. by apply mergeFrom_covered.
Qed.

Section EarliestSlot.
Variable window : NormalizedInterval.
Variable duration : Z.




End EarliestSlot.





(** ** Normalised calendars *)

Lemma combineOverlappingIntervals_separated intervals :
  StronglySorted separated (combineOverlappingIntervals intervals).
Proof.
  rewrite combineOverlappingIntervals_mergeFrom.
  pose proof (arraySort_by_key_sorted i_start intervals) as Hsorted.
  change (λ a b, i_start a - i_start b) with byStart in Hsorted.
  destruct (arraySort byStart intervals) as [|first rest]; [constructor|].
  inversion_clear Hsorted as [|?? Hs Hall]. by apply mergeFrom_separated.
Qed.

Lemma StronglySorted_fmap {A B} (R : B → B → Prop) (f : A → B) (l : list A) :
  StronglySorted (λ a b, R (f a) (f b)) l → StronglySorted R (f <$> l).
Proof.
  induction 1 as [|x l Hs IH Hall]; csimpl; constructor; [done|].
  by apply Forall_fmap.
Qed.

Lemma normalizeInput_resource_origin input rid resource :
  JsMap.get rid (n_resources (normalizeInput input)) = Some resource →
  ∃ r, r ∈ resources input ∧ r_id r = rid
       ∧ resource = normalizeResource (horizonStart (normalizeInput input))
                                      (horizonEnd (normalizeInput input)) r.
Proof.
  simpl. revert rid resource.
  apply (JsMap_fold_set_Forall
           (λ k v, ∃ r, r ∈ resources input ∧ r_id r = k
                        ∧ v = normalizeResource (h_start (horizon input))
                                (parseIsoOffset (h_end (horizon input))
                                                (h_start (horizon input))) r)
           r_id
           (normalizeResource (h_start (horizon input))
              (parseIsoOffset (h_end (horizon input)) (h_start (horizon input))))).
  - done.
  - intros r Hr. by exists r.
Qed.

(** Every resource of the normalised request comes from a resource of the
    request with the same id and capabilities; its calendar windows are
    non-empty, lie within [[0, horizon_length]], come in order with a strict
    gap between any two, and cover exactly the minutes of the horizon that
    the request's windows for that resource cover. *)
Theorem normalizeInput_calendar (input : Input) (rid : string)
    (resource : NormalizedResource) :
  JsMap.get rid (n_resources (normalizeInput input)) = Some resource →
  ∃ r, r ∈ resources input ∧ r_id r = rid ∧ nr_id resource = rid
       ∧ nr_capabilities resource = list_to_set (r_capabilities r)
       ∧ Forall (λ w, 0 ≤ i_start w ∧ i_start w < i_end w
                      ∧ i_end w ≤ horizonEnd (normalizeInput input))
                (nr_calendar resource)
       ∧ StronglySorted separated (nr_calendar resource)
       ∧ ∀ x, covered (nr_calendar resource) x
              ↔ 0 ≤ x < horizonEnd (normalizeInput input)
                ∧ ∃ se, se ∈ r_calendar r
                        ∧ parseIsoOffset se.1 (h_start (horizon input)) ≤ x
                          < parseIsoOffset se.2 (h_start (horizon input)).
Proof.
  intros (r & Hr & Hid & ->)%normalizeInput_resource_origin.
  exists r. split_and!; [done|done|done|done| | |].
  - apply Forall_forall. intros w [Hne (w0 & -> & _)%list_elem_of_fmap]%list_elem_of_filter.
    simpl in *. lia.
  - apply StronglySorted_filter, StronglySorted_fmap.
    eapply StronglySorted_mono; [|apply combineOverlappingIntervals_separated].
    unfold separated. simpl. intros a b ?. lia.
  - intros x. set (h := horizonEnd (normalizeInput input)).
    set (raw := parseCalendarWindows (r_calendar r) (horizonStart (normalizeInput input))).
    assert (Hclip : covered (nr_calendar
                               (normalizeResource (horizonStart (normalizeInput input)) h r)) x
                    ↔ 0 ≤ x < h ∧ covered (combineOverlappingIntervals raw) x).
    { unfold covered, contains. simpl. split.
      - intros (w & [Hne (w0 & -> & Hw0)%list_elem_of_fmap]%list_elem_of_filter & Hx).
        simpl in *. split; [lia|]. exists w0. split; [done|lia].
      - intros (Hh & w0 & Hw0 & Hx). exists (clipWindow h w0). split; [|simpl; lia].
        apply list_elem_of_filter. split; [simpl; lia|]. by apply list_elem_of_fmap_2. }
    rewrite Hclip, combineOverlappingIntervals_covered.
    unfold raw, parseCalendarWindows, covered, contains.
    setoid_rewrite (arraySort_perm byStart). setoid_rewrite list_elem_of_fmap.
    split.
    + intros (Hh & w & (se & -> & Hse) & Hx). split; [done|]. by exists se.
    + intros (Hh & se & Hse & Hx). split; [done|]. eexists. split; [by exists se|done].
Qed.

(** ** Where a placement comes from *)

Section GapPlacement.
Variable operation : SchedulableOperation.
Variable matrix : gmap string Z.
Variable states : JsMap.t ResourceState.

Let fromGap (eligible : list NormalizedResource) (acc : Search) : Prop :=
  ∀ p, bestPlacement acc = Some p → gapPlacement operation matrix eligible states p.

Lemma tryGap_fromGap eligible resource state window acc i :
  resource ∈ eligible →
  JsMap.get (nr_id resource) states = Some state →
  window ∈ nr_calendar resource →
  (i ≤ length (rs_assignments state))%nat →
  fromGap eligible acc →
  fromGap eligible
    (tryGap operation matrix resource (rs_assignments state) window acc i).
Proof.
  intros Hres Hstate Hwin Hi Hacc. unfold tryGap.
  change (match i with O => None | S j => rs_assignments state !! j end)
    with (previousAt (rs_assignments state) i).
  set (prev := previousAt (rs_assignments state) i).
  set (gapStart := Z.max (earliestStart operation) _).
  set (gapEnd := Z.min (i_end window) _).
  set (changeoverTime := getChangeoverTime _ _ _).
  case_decide as Hgap; [done|].
  case_decide as Hfit.
  - destruct (_ || _); [|done].
    intros p [= <-]. exists resource, state, window, i. simpl.
    destruct Hfit as [Hfit1 Hfit2].
    split_and!; [done|done|done|done|done|done|unfold gapStart in *; lia
                |unfold gapEnd in *; lia| |].
    + fold prev. unfold gapStart, changeoverTime in *.
      destruct prev as [pr|]; simpl in *; lia.
    + intros next Hnext. unfold gapEnd in Hfit2. rewrite Hnext in Hfit2. lia.
  - case_decide; [|done]. intros p Hp. simpl in Hp. by apply Hacc.
Qed.

Lemma tryResource_fromGap eligible acc resource :
  resource ∈ eligible →
  fromGap eligible acc →
  fromGap eligible (tryResource operation matrix states acc resource).
Proof.
  intros Hres Hacc. unfold tryResource.
  destruct (JsMap.get (nr_id resource) states) as [state|] eqn:Hstate; [|done].
  apply (fold_left_invariant (fromGap eligible)); [|done].
  intros acc' window Hwin Hacc'. unfold tryWindow. case_decide; [done|].
  apply (fold_left_invariant (fromGap eligible)); [|done].
  intros acc'' i Hi%elem_of_seq Hacc''. apply tryGap_fromGap; [done..|lia|done].
Qed.

Lemma tryPlaceOperation_fromGap eligible p near :
  tryPlaceOperation operation eligible states matrix = (Some p, near) →
  gapPlacement operation matrix eligible states p.
Proof.
  unfold tryPlaceOperation. intros [= Hp _]. revert p Hp.
  apply (fold_left_invariant (fromGap eligible)); [|done].
  intros acc resource Hres. by apply tryResource_fromGap.
Qed.

End GapPlacement.

Lemma loopBody_Continue_gap now deadline maxIterations normalized productsMap st st' :
  loopBody now deadline maxIterations normalized productsMap st = Continue st' →
  ∃ position selected placement,
    let nextOp := raiseToPriorStep (assignments st) selected in
    selectedBy (unscheduled st) (assignments st) productsMap position selected
    ∧ gapPlacement nextOp (changeoverMatrix normalized)
        (getEligibleResources nextOp (n_resources normalized))
        (resourceStates st) placement
    ∧ pl_end placement ≤ horizonEnd normalized
    ∧ st' = advance st (<[ position := nextOp ]> (unscheduled st)) nextOp
                    (assignmentOf nextOp placement).
Proof.
  unfold loopBody.
  case_decide; [done|]. case_decide as Hiter; [done|].
  destruct (selectNextOperation _ _ _) as [[position selected]|] eqn:Hsel; [|done].
  case_decide; [done|].
  destruct (tryPlaceOperation _ _ _ _) as [[placement|] near] eqn:Hplace; [|done].
  case_decide as Hend; [done|]. intros [= <-].
  exists position, selected, placement. simpl. split_and!.
  - by apply selectNextOperation_Some.
  - by eapply tryPlaceOperation_fromGap.
  - lia.
  - done.
Qed.

(** ** Chains of assignments *)

Lemma chain_insert l1 l2 x :
  chain (l1 ++ l2) → a_start x < a_end x →
  (∀ prev, last l1 = Some prev → a_end prev ≤ a_start x) →
  (∀ next, head l2 = Some next → a_end x ≤ a_start next) →
  chain (l1 ++ x :: l2).
Proof.
  intros [Hs Hp] Hx Hprev Hnext.
  apply StronglySorted_app in Hs as (Hcross & Hs1 & Hs2).
  apply Forall_app in Hp as [Hp1 Hp2].
  rewrite Forall_forall in Hp1. rewrite Forall_forall in Hp2.
  assert (HA : ∀ x1, x1 ∈ l1 → a_end x1 ≤ a_start x).
  { induction l1 as [|prev l1 _] using rev_ind.
    - intros x1 Hx1. by apply elem_of_nil in Hx1.
    - specialize (Hprev prev (last_snoc _ _)).
      intros x1 [Hx1|Hx1]%elem_of_app; [|apply list_elem_of_singleton in Hx1; by subst].
      pose proof (StronglySorted_app_1_elem_of _ _ _ x1 prev Hs1 Hx1 ltac:(left)) as H1.
      specialize (Hp1 prev ltac:(apply elem_of_app; right; left)). simpl in H1. lia. }
  assert (HB : ∀ y, y ∈ l2 → a_end x ≤ a_start y).
  { destruct l2 as [|next l2].
    - intros y Hy. by apply elem_of_nil in Hy.
    - specialize (Hnext next eq_refl).
      intros y [Hy|Hy]%elem_of_cons; [by subst|].
      inversion_clear Hs2 as [|?? _ Hall]. rewrite Forall_forall in Hall.
      specialize (Hall y Hy). specialize (Hp2 next ltac:(left)). simpl in Hall. lia. }
  split.
  - apply StronglySorted_app_2; [|done|].
    + intros x1 x2 Hx1 [Hx2|Hx2]%elem_of_cons; [subst; by apply HA|by apply Hcross].
    + constructor; [done|]. apply Forall_forall. exact HB.
  - apply Forall_app. split; [by apply Forall_forall|].
    constructor; [done|by apply Forall_forall].
Qed.

Lemma chain_starts l :
  chain l → StronglySorted (λ a b, a_start a < a_start b) l.
Proof.
  intros [Hs Hp]. induction Hs as [|x l Hs IH Hall]; [constructor|].
  apply Forall_cons_1 in Hp as [Hx Hp]. constructor; [by apply IH|].
  eapply Forall_impl; [exact Hall|]. intros y Hy. simpl in Hy. lia.
Qed.

Lemma chain_sorted_fixed l : chain l → arraySort byAssignmentStart l = l.
Proof.
  intros Hchain%chain_starts. apply arraySort_fixed, StronglySorted_Sorted.
  eapply StronglySorted_mono; [|exact Hchain].
  unfold byAssignmentStart. intros a b ?. simpl. lia.
Qed.

Lemma chain_start_inj l x y :
  chain l → x ∈ l → y ∈ l → a_start x = a_start y → x = y.
Proof.
  intros Hchain%chain_starts [i Hi]%list_elem_of_lookup [j Hj]%list_elem_of_lookup Heq.
  destruct (lt_eq_lt_dec i j) as [[Hlt| ->]|Hlt].
  - pose proof (StronglySorted_lookup_lt _ _ _ _ _ _ Hchain Hlt Hi Hj). simpl in *. lia.
  - congruence.
  - pose proof (StronglySorted_lookup_lt _ _ _ _ _ _ Hchain Hlt Hj Hi). simpl in *. lia.
Qed.

(** Sorting any arrangement of a chain by start gives the chain back. *)
Lemma chain_sort_unique l target :
  chain target → l ≡ₚ target → arraySort byAssignmentStart l = target.
Proof.
  intros Hchain Hperm.
  apply (StronglySorted_unique_strong (λ a b, a_start a ≤ a_start b)).
  - intros x1 x2 Hx1 Hx2 H12 H21. apply (chain_start_inj target); [done| |done|lia].
    by rewrite <- Hperm, <- (arraySort_perm byAssignmentStart).
  - apply (arraySort_by_key_sorted a_start).
  - eapply StronglySorted_mono; [|by apply chain_starts]. intros a b ?. simpl in *. lia.
  - by rewrite arraySort_perm.
Qed.

Lemma chain_not_elem l1 l2 x : chain (l1 ++ x :: l2) → x ∉ l1 ++ l2.
Proof.
  intros Hchain Hin.
  assert (Hx : x ∈ l1 ++ x :: l2) by (apply elem_of_app; right; left).
  pose proof (chain_starts _ Hchain) as Hs.
  apply StronglySorted_app in Hs as (Hcross & _ & Hs2).
  apply elem_of_app in Hin as [Hin|Hin].
  - specialize (Hcross x x Hin ltac:(left)). simpl in Hcross. lia.
  - inversion_clear Hs2 as [|?? _ Hall]. rewrite Forall_forall in Hall.
    specialize (Hall x Hin). simpl in Hall. lia.
Qed.

(** ** The resource lists stay in order of time *)

Lemma previousAt_last (l : list InternalAssignment) i prev :
  (i ≤ length l)%nat → last (take i l) = Some prev → previousAt l i = Some prev.
Proof.
  intros Hi. rewrite last_lookup, length_take_le by done.
  destruct i as [|j]; simpl; [done|].
  rewrite lookup_take_lt by lia. done.
Qed.

Lemma lookup_inserted {A} (l : list A) (x : A) i j :
  (i ≤ length l)%nat →
  (take i l ++ x :: drop i l) !! j
  = if decide (j < i)%nat then l !! j
    else if decide (j = i) then Some x else l !! (j - 1)%nat.
Proof.
  intros Hi. case_decide as Hlt.
  - rewrite lookup_app_l by (rewrite length_take_le; lia).
    by rewrite lookup_take_lt.
  - rewrite lookup_app_r by (rewrite length_take_le; lia).
    rewrite length_take_le by done. case_decide as Heq.
    + subst. by rewrite Nat.sub_diag.
    + destruct (j - i)%nat as [|d] eqn:Hd; [lia|]. simpl.
      rewrite lookup_drop. f_equal. lia.
Qed.

Lemma placedBefore_snoc all a p n :
  placedBefore (all ++ [a]) p n → n ≠ a → placedBefore all p n.
Proof.
  intros (i1 & i2 & Hlt & H1 & H2) Hne.
  assert (Hi2 : (i2 < length all)%nat).
  { destruct (decide (i2 < length all)%nat) as [|Hge]; [done|].
    rewrite lookup_app_r in H2 by lia.
    destruct (i2 - length all)%nat; simpl in H2; [congruence|done]. }
  exists i1, i2. rewrite lookup_app_l in H1 by lia.
  rewrite lookup_app_l in H2 by lia. done.
Qed.

Lemma placedBefore_snoc_first all a p n :
  placedBefore (all ++ [a]) p n → p ∈ all.
Proof.
  intros (i1 & i2 & Hlt & H1 & H2).
  apply lookup_lt_Some in H2. rewrite length_app in H2. simpl in H2.
  rewrite lookup_app_l in H1 by lia. by eapply list_elem_of_lookup_2.
Qed.

Lemma raiseToPriorStep_duration m op :
  duration (raiseToPriorStep m op) = duration op.
Proof.
  destruct (raiseToPriorStep_cases m op) as [->|(k & priorStep & _ & _ & ->)]; done.
Qed.

Lemma placedInOrder_initial input :
  inputSchema input →
  placedInOrder (changeoverMatrix (normalizeInput input))
    (initialState (normalizeInput input)
       (buildOperationsList (n_products (normalizeInput input)))).
Proof.
  intros (_ & _ & _ & Hproducts & _). split.
  - apply Forall_forall.
    intros o (product & k & op & Hp & Hk & ->)%buildOperationsList_elem_of.
    apply list_elem_of_fmap in Hp as (p & -> & Hp). simpl in *.
    rewrite Forall_forall in Hproducts. destruct (Hproducts p Hp) as (_ & _ & _ & Hroute).
    rewrite Forall_forall in Hroute.
    destruct (Hroute op) as [_ Hd]; [by eapply list_elem_of_lookup_2|]. done.
  - unfold initialState. cbn [resourceStates allAssignments].
    apply (JsMap_fold_set_Forall
             (λ _ state,
                chain (rs_assignments state)
                ∧ ∀ (j : nat) p n,
                    rs_assignments state !! j = Some p →
                    rs_assignments state !! S j = Some n →
                    placedBefore [] p n →
                    a_end p + getChangeoverTime (Some (a_productFamily p))
                                (a_productFamily n)
                                (changeoverMatrix (normalizeInput input))
                    ≤ a_start n)
             (λ id, id) (λ _, {| lastFamily := None; rs_assignments := [] |})); [done|].
    intros rid _. simpl. split; [split; constructor|]. intros j p n Hp. done.
Qed.

Lemma placedInOrder_step now deadline maxIterations normalized productsMap st st' :
  statesTrack st →
  placedInOrder (changeoverMatrix normalized) st →
  stepsTo now deadline maxIterations normalized productsMap st st' →
  placedInOrder (changeoverMatrix normalized) st'.
Proof.
  intros (Hnd & Htrack & Hhas) [Hdur Hstates] Hstep.
  apply loopBody_Continue_gap in Hstep
    as (position & selected & placement & (Hpos & _) & Hgap & Hhor & ->).
  set (nextOp := raiseToPriorStep (assignments st) selected) in *.
  assert (Hd : 0 < duration nextOp).
  { unfold nextOp. rewrite raiseToPriorStep_duration.
    rewrite Forall_forall in Hdur. apply Hdur. by eapply list_elem_of_lookup_2. }
  destruct Hgap as (resource & state & window & i & Hres & Hstate & Hwin & Hi & Hrid
                    & Hend & Hes & Hwend & Hprev & Hnext).
  set (a := assignmentOf nextOp placement).
  destruct (Hstates _ _ Hstate) as [Hchain Hco].
  set (L := rs_assignments state) in *.
  assert (Hnew : chain (take i L ++ a :: drop i L)).
  { apply chain_insert.
    - by rewrite take_drop.
    - simpl. lia.
    - intros prev Hl. apply previousAt_last in Hl; [|done].
      fold L in Hprev. rewrite Hl in Hprev. simpl. lia.
    - intros next Hh. rewrite head_lookup, lookup_drop, Nat.add_0_r in Hh.
      simpl. by apply Hnext. }
  assert (Hsort : arraySort byAssignmentStart (L ++ [a]) = take i L ++ a :: drop i L).
  { apply chain_sort_unique; [done|].
    rewrite <- (take_drop i L) at 1. rewrite <- app_assoc.
    apply Permutation_app_head. symmetry. apply Permutation_cons_append. }
  assert (HaL : a ∉ L).
  { apply chain_not_elem in Hnew. by rewrite take_drop in Hnew. }
  assert (HLall : ∀ x, x ∈ L → x ∈ allAssignments st ∧ a_resource x = nr_id resource).
  { intros x Hx. unfold L in Hx. rewrite (Htrack _ _ Hstate) in Hx.
    by apply list_elem_of_filter in Hx as [? ?]. }
  assert (Haall : a ∉ allAssignments st).
  { intros Hin. apply HaL. unfold L. rewrite (Htrack _ _ Hstate).
    apply list_elem_of_filter. split; [|done]. simpl. done. }
  split.
  - apply (advance_pool_Forall (λ o, 0 < duration o)); [|done|done].
    intros o v ? ?. done.
  - intros rid state'. unfold advance, updateStates.
    cbn [resourceStates allAssignments]. fold a.
    replace (a_resource a) with (nr_id resource) by (symmetry; exact Hrid).
    rewrite Hstate, JsMap_get_set.
    destruct (decide (nr_id resource = rid)) as [<-|Hne].
    + intros [= <-]. unfold updateResourceState. cbn [rs_assignments].
      fold L. rewrite Hsort. split; [done|].
      intros j p n. rewrite !lookup_inserted by done.
      intros Hp Hn Hpb.
      destruct (Nat.eq_dec j i) as [->|Hji].
      { rewrite decide_False, decide_True in Hp by lia. injection Hp as <-.
        by apply placedBefore_snoc_first in Hpb. }
      destruct (Nat.eq_dec (S j) i) as [<-|HSji].
      { rewrite decide_True in Hp by lia.
        rewrite decide_False, decide_True in Hn by lia. injection Hn as <-.
        simpl in Hprev. fold L in Hprev. rewrite Hp in Hprev. simpl. lia. }
      assert (Hnin : n ∈ L).
      { repeat case_decide; try lia; by eapply list_elem_of_lookup_2. }
      assert (Hna : n ≠ a) by (intros ->; done).
      apply placedBefore_snoc in Hpb; [|done].
      destruct (lt_dec (S j) i).
      * rewrite decide_True in Hp by lia. rewrite decide_True in Hn by lia.
        by eapply Hco.
      * rewrite !decide_False in Hp by lia. rewrite !decide_False in Hn by lia.
        destruct j as [|j']; [lia|]. simpl in Hp, Hn.
        rewrite Nat.sub_0_r in Hp. eapply Hco; [exact Hp|exact Hn|done].
    + intros Hget. destruct (Hstates _ _ Hget) as [Hchain' Hco'].
      split; [done|]. intros j p n Hp Hn Hpb.
      eapply Hco'; [done|done|]. eapply placedBefore_snoc; [done|].
      intros ->. apply list_elem_of_lookup_2 in Hn.
      rewrite (Htrack _ _ Hget) in Hn. apply list_elem_of_filter in Hn as [Hr _].
      apply Hne. rewrite <- Hr. simpl. done.
Qed.

Lemma placedInOrder_reachable now deadline maxIterations normalized productsMap st0 st :
  statesTrack st0 → placedInOrder (changeoverMatrix normalized) st0 →
  rtc (stepsTo now deadline maxIterations normalized productsMap) st0 st →
  placedInOrder (changeoverMatrix normalized) st.
Proof.
  intros Htrack0 H0 Hrtc.
  cut (statesTrack st ∧ placedInOrder (changeoverMatrix normalized) st);
    [by intros [_ ?]|].
  revert Hrtc.
  apply (rtc_step_invariant _ _ _ _ _
           (λ st, statesTrack st ∧ placedInOrder (changeoverMatrix normalized) st));
    [|done].
  clear st. intros st st' [Htrack Hin] Hstep. split.
  - eapply statesTrack_reachable; [exact Htrack|]. by apply rtc_once.
  - by eapply placedInOrder_step.
Qed.

(** ** What every assignment owes to its operation and its resource *)

Lemma assignedWell_step now deadline maxIterations normalized productsMap operations st st' :
  poolFrom operations st →
  assignedWell normalized operations st →
  stepsTo now deadline maxIterations normalized productsMap st st' →
  assignedWell normalized operations st'.
Proof.
  intros Hpool Hwell Hstep.
  apply loopBody_Continue_gap in Hstep
    as (position & selected & placement & (Hpos & _) & Hgap & Hhor & ->).
  set (nextOp := raiseToPriorStep (assignments st) selected) in *.
  destruct Hgap as (resource & state & window & i & Hres & Hstate & Hwin & Hi & Hrid
                    & Hend & _).
  intros a. cbn [advance allAssignments].
  intros [Ha|Ha]%elem_of_app; [by apply Hwell|].
  apply list_elem_of_singleton in Ha as ->. split.
  - assert (Hin : eraseStart selected ∈ eraseStart <$> operations).
    { apply Hpool. by eapply list_elem_of_lookup_2. }
    apply list_elem_of_fmap in Hin as (o & Heq & Ho).
    rewrite <- (eraseStart_raiseToPriorStep (assignments st)) in Heq. fold nextOp in Heq.
    exists o. split; [done|].
    assert (Hd : duration o = duration nextOp)
      by exact (eq_sym (f_equal duration Heq)).
    split; [|simpl; lia].
    unfold assignmentOf. simpl.
    pose proof (f_equal productId Heq). pose proof (f_equal productFamily Heq).
    pose proof (f_equal stepIndex Heq). pose proof (f_equal capability Heq).
    simpl in *. congruence.
  - unfold getEligibleResources in Hres.
    apply list_elem_of_filter in Hres as [Hcap Hres].
    exists resource. by split_and!.
Qed.

Lemma assignedWell_reachable now deadline maxIterations normalized productsMap operations st :
  rtc (stepsTo now deadline maxIterations normalized productsMap)
      (initialState normalized operations) st →
  assignedWell normalized operations st.
Proof.
  intros Hrtc.
  cut (rtc (stepsTo now deadline maxIterations normalized productsMap)
           (initialState normalized operations) st
       ∧ assignedWell normalized operations st); [by intros [_ ?]|].
  revert Hrtc.
  apply (rtc_step_invariant _ _ _ _ _
           (λ st, rtc (stepsTo now deadline maxIterations normalized productsMap)
                      (initialState normalized operations) st
                  ∧ assignedWell normalized operations st)).
  - clear st. intros st st' [Hrtc Hwell] Hstep. split.
    + eapply rtc_r; [exact Hrtc|exact Hstep].
    + eapply assignedWell_step; [|exact Hwell|exact Hstep].
      by eapply poolFrom_reachable.
  - split; [done|]. intros a Ha. by apply elem_of_nil in Ha.
Qed.

Lemma JsMap_values_get {V} (v : V) (m : JsMap.t V) :
  NoDup (JsMap.keys m) → v ∈ JsMap.values m → ∃ k, JsMap.get k m = Some v.
Proof.
  intros Hnd ([k v'] & -> & Hin)%list_elem_of_fmap. exists k.
  by apply JsMap_elem_of_get.
Qed.

Lemma normalizeInput_values_get input resource :
  resource ∈ JsMap.values (n_resources (normalizeInput input)) →
  JsMap.get (nr_id resource) (n_resources (normalizeInput input)) = Some resource.
Proof.
  intros [k Hk]%JsMap_values_get; [|apply normalizeInput_resources_NoDup].
  by rewrite (normalizeInput_resource_ids _ _ _ Hk).
Qed.

Lemma buildOperationsList_keys input :
  opKey <$> buildOperationsList (n_products (normalizeInput input)) = routeKeys input.
Proof.
  unfold routeKeys, buildOperationsList. simpl.
  induction (products input) as [|p ps IH]; [done|].
  csimpl. rewrite fmap_app, IH. f_equal.
  rewrite fmap_imap. apply (imap_seq_0 (p_route p) (λ k, (p_id p, k))).
Qed.

Lemma placed_keys_routeKeys now input all :
  scheduleCore now input = Some (Placed all) →
  assignmentKey <$> all ≡ₚ routeKeys input.
Proof.
  intros (st & Hrtc & Hnil & _ & <-)%scheduleCore_Placed.
  apply keysSplit_reachable in Hrtc. unfold keysSplit in Hrtc.
  rewrite Hnil in Hrtc. rewrite <- buildOperationsList_keys. by rewrite <- Hrtc.
Qed.

(** Every assignment of a successful schedule carries out a step of the
    route of a product of the request: it has that product's id and family
    and the step's capability as its operation name, and it lasts exactly the
    step's duration. *)
Theorem schedule_assignment_origin (now : nat → Z) (input : Input)
    (all : list InternalAssignment) :
  scheduleCore now input = Some (Placed all) →
  ∀ a, a ∈ all →
    ∃ p op, p ∈ products input
            ∧ p_id p = a_productId a ∧ p_family p = a_productFamily a
            ∧ p_route p !! a_stepIndex a = Some op
            ∧ op_capability op = a_operationName a
            ∧ a_end a = a_start a + duration_minutes op.
Proof.
  intros (st & Hrtc & _ & _ & <-)%scheduleCore_Placed a Ha.
  apply assignedWell_reachable in Hrtc.
  destruct (Hrtc a Ha) as [(o & Ho & Heq & Hd) _].
  apply buildOperationsList_elem_of in Ho as (product & k & op & Hp & Hk & ->).
  simpl in Hp. apply list_elem_of_fmap in Hp as (p & -> & Hp).
  exists p, op. rewrite <- Heq. simpl in *. by split_and!.
Qed.

(** Eligibility: every assignment of a successful schedule is put on a
    resource of the request that lists the operation's capability. *)
Theorem schedule_eligibility (now : nat → Z) (input : Input)
    (all : list InternalAssignment) :
  scheduleCore now input = Some (Placed all) →
  ∀ a, a ∈ all →
    ∃ r, r ∈ resources input ∧ r_id r = a_resource a
         ∧ a_operationName a ∈ r_capabilities r.
Proof.
  intros (st & Hrtc & _ & _ & <-)%scheduleCore_Placed a Ha.
  apply assignedWell_reachable in Hrtc.
  destruct (Hrtc a Ha) as [_ (resource & Hres & Hid & Hcap)].
  apply normalizeInput_values_get, normalizeInput_resource_origin in Hres
    as (r & Hr & Hrid & ->).
  exists r. simpl in *. split_and!; [done|congruence|].
  by apply elem_of_list_to_set in Hcap.
Qed.

(** ** The closing validation pass *)

Lemma elem_of_adjacentPairs {A} (l : list A) p n :
  (p, n) ∈ adjacentPairs l ↔ ∃ j, l !! j = Some p ∧ l !! S j = Some n.
Proof.
  induction l as [|x l IH]; simpl.
  - split; [by intros ?%elem_of_nil|by intros (j & ? & _)].
  - destruct l as [|y l].
    + split; [by intros ?%elem_of_nil|]. by intros ([|j] & ? & ?).
    + rewrite elem_of_cons, IH. split.
      * intros [[= -> ->]|(j & ? & ?)]; [by exists 0%nat|by exists (S j)].
      * intros ([|j] & Hp & Hn); [left; simpl in *; congruence|right; by exists j].
Qed.

Lemma validateNoOverlap_chain entries :
  (∀ rid state, (rid, state) ∈ entries → chain (rs_assignments state)) →
  validateNoOverlap entries = None.
Proof.
  induction entries as [|[rid state] entries IH]; intros Hall; simpl; [done|].
  assert (Hchain : chain (rs_assignments state)) by (eapply Hall; left).
  rewrite chain_sorted_fixed by done.
  destruct (list_find _ _) as [[k [prev cur]]|] eqn:Hfind.
  - apply list_find_Some in Hfind as (Hk & Hov & _).
    apply list_elem_of_lookup_2, elem_of_adjacentPairs in Hk as (j & Hp & Hn).
    destruct Hchain as [Hs _].
    pose proof (StronglySorted_lookup_lt _ _ j (S j) prev cur Hs ltac:(lia) Hp Hn) as Hle.
    unfold overlapping in Hov. simpl in *. lia.
  - apply IH. intros rid' state' Hin. eapply Hall. by right.
Qed.

Lemma reachable_in_order now input st :
  inputSchema input →
  let normalized := normalizeInput input in
  let operations := buildOperationsList (n_products normalized) in
  rtc (stepsTo now
         (now 0%nat + default 30 (time_limit_seconds <$> settings input) * 1000)
         (length operations * 5) normalized
         (JsMap.ofList (map (λ p, (np_id p, p)) (n_products normalized))))
      (initialState normalized operations) st →
  statesTrack st ∧ placedInOrder (changeoverMatrix normalized) st.
Proof.
  intros Hschema normalized operations Hrtc. split.
  - eapply statesTrack_reachable; [apply statesTrack_initial|exact Hrtc].
  - eapply placedInOrder_reachable; [apply statesTrack_initial| |exact Hrtc].
    by apply placedInOrder_initial.
Qed.

Lemma scheduleCore_validation_passes now input rid prev cur :
  inputSchema input →
  scheduleCore now input ≠ Some (Terminal (overlapFailure rid prev cur)).
Proof.
  intros Hschema. unfold scheduleCore. case_decide; [done|].
  destruct (drivingLoop _ _ _ _ _ _ _) as [[r|st]|] eqn:Hloop; [| |done].
  - intros [= ->]. apply drivingLoop_return in Hloop as (st1 & _ & _ & Hret).
    revert Hret. unfold loopBody. case_decide; [done|]. case_decide; [done|].
    destruct (selectNextOperation _ _ _) as [[position selected]|]; [|done].
    case_decide; [done|].
    destruct (tryPlaceOperation _ _ _ _) as [[placement|] near]; [|done].
    by case_decide.
  - apply drivingLoop_exit in Hloop as [Hrtc _].
    apply reachable_in_order in Hrtc as [(Hnd & _ & _) [_ Hstates]]; [|done].
    rewrite validateNoOverlap_chain; [done|].
    intros rid' state' Hin. apply (JsMap_elem_of_get _ _ _ Hnd) in Hin.
    by destruct (Hstates _ _ Hin).
Qed.

Lemma normalizeResource_window_end horizonStart horizonEnd r window :
  window ∈ nr_calendar (normalizeResource horizonStart horizonEnd r) →
  i_end window ≤ horizonEnd.
Proof.
  intros [Hne (w0 & -> & _)%list_elem_of_fmap]%list_elem_of_filter. simpl. lia.
Qed.

(** The calendar windows are clipped to the horizon, so a placement, which
    ends inside a window, never fails the horizon check of the loop. *)
Lemma loopBody_never_exceeds_horizon now deadline maxIterations input productsMap st why :
  loopBody now deadline maxIterations (normalizeInput input) productsMap st
  ≠ Return (Failure "Horizon exceeded" why).
Proof.
  unfold loopBody. case_decide; [done|]. case_decide; [done|].
  destruct (selectNextOperation _ _ _) as [[position selected]|]; [|done].
  case_decide; [done|].
  destruct (tryPlaceOperation _ _ _ _) as [[placement|] near] eqn:Hplace; [|done].
  case_decide as Hend; [|done]. intros _.
  apply tryPlaceOperation_fromGap in Hplace
    as (resource & state & window & i & Hres & _ & Hwin & _ & _ & _ & _ & Hwend & _).
  apply list_elem_of_filter in Hres as [_ Hres].
  apply normalizeInput_values_get, normalizeInput_resource_origin in Hres
    as (r & _ & _ & ->).
  apply normalizeResource_window_end in Hwin. lia.
Qed.

(** The failures [schedule] returns: "Time limit exceeded", "No eligible
    resources" or "Cannot place operation".  The loop never deadlocks, never
    exceeds its iteration bound and never fails its horizon check, whatever
    the request; and the closing validation pass finds an overlap only for a
    request that does not pass the schema. *)
Theorem schedule_failure_kinds (now : nat → Z) (input : Input)
    (error : string) (why : list string) :
  schedule now input = Some (Failure error why) →
  error = "Time limit exceeded" ∨ error = "No eligible resources"
  ∨ error = "Cannot place operation"
  ∨ (error = "Validation failed: overlap detected" ∧ ¬ inputSchema input).
Proof.
  intros Hfail. pose proof (schedule_Failure _ _ _ _ Hfail) as Hcore.
  pose proof (scheduleCore_Terminal _ _ _ Hcore) as Hcases. cbv zeta in Hcases.
  destruct Hcases as [[_ ?]|[(st & Hrtc & _ & Hret)|(rid & prev & cur & Heq)]]; [done| |].
  - destruct (decide (error = "No ready operations available")) as [->|Hdead];
      [by apply schedule_never_deadlocks in Hfail|].
    destruct (decide (error = "Horizon exceeded")) as [->|Hhor];
      [by apply loopBody_never_exceeds_horizon in Hret|].
    apply reachable_progress in Hrtc. cbn [initialState iteration unscheduled] in Hrtc.
    revert Hret. unfold loopBody.
    case_decide; [intros [= <- _]; by left|]. case_decide; [lia|].
    destruct (selectNextOperation _ _ _) as [[position selected]|];
      [|by intros [= <- _]].
    case_decide; [intros [= <- _]; right; by left|].
    destruct (tryPlaceOperation _ _ _ _) as [[placement|] near];
      [|intros [= <- _]; right; right; by left].
    case_decide; [|done]. by intros [= <- _].
  - right; right; right. rewrite Heq in Hcore. injection Heq as -> _.
    split; [done|]. intros Hschema.
    by apply scheduleCore_validation_passes in Hcore.
Qed.

(** ** Changeovers between assignments placed in order of time *)

Lemma adjacentOn_state st rid prev next :
  statesTrack st →
  (∀ rid state, JsMap.get rid (resourceStates st) = Some state →
     chain (rs_assignments state)) →
  adjacentOn rid (allAssignments st) prev next →
  ∃ state j, JsMap.get rid (resourceStates st) = Some state
             ∧ rs_assignments state !! j = Some prev
             ∧ rs_assignments state !! S j = Some next.
Proof.
  intros (Hnd & Htrack & Hhas) Hchains Hadj. unfold adjacentOn in Hadj.
  pose proof Hadj as Hadj'. apply elem_of_adjacentPairs in Hadj' as (j & Hp & _).
  apply list_elem_of_lookup_2 in Hp.
  rewrite (arraySort_perm byAssignmentStart) in Hp.
  apply list_elem_of_filter in Hp as [Hr Hin].
  destruct (Hhas _ Hin) as [state Hstate]. rewrite Hr in Hstate.
  rewrite (chain_sort_unique _ (rs_assignments state)) in Hadj;
    [|by eapply Hchains|symmetry; by apply Htrack].
  apply elem_of_adjacentPairs in Hadj as (j' & ? & ?). by exists state, j'.
Qed.

(** The changeover bound where the code does keep it: in a successful
    schedule of a request that passes the schema, when an assignment directly
    follows, on its resource, one that was placed before it, it starts no
    earlier than the end of that one plus the changeover time between the two
    families. *)
Theorem schedule_changeover_in_order (now : nat → Z) (input : Input)
    (all : list InternalAssignment) :
  inputSchema input →
  scheduleCore now input = Some (Placed all) →
  ∀ rid prev next,
    adjacentOn rid all prev next → placedBefore all prev next →
    a_end prev
    + getChangeoverTime (Some (a_productFamily prev)) (a_productFamily next)
                        (changeover_matrix_minutes input)
    ≤ a_start next.
Proof.
  intros Hschema (st & Hrtc & _ & _ & <-)%scheduleCore_Placed rid prev next Hadj Hpb.
  apply reachable_in_order in Hrtc as [Htrack [_ Hstates]]; [|done].
  destruct (adjacentOn_state st rid prev next Htrack) as (state & j & Hstate & Hp & Hn);
    [intros rid' state' Hget; by destruct (Hstates _ _ Hget)|done|].
  destruct (Hstates _ _ Hstate) as [_ Hco]. by eapply Hco.
Qed.

(** ** Calendar containment on resources with a single window *)

Lemma inWindows_step now deadline maxIterations normalized productsMap st st' :
  (∀ resource, resource ∈ JsMap.values (n_resources normalized) →
     (length (nr_calendar resource) ≤ 1)%nat) →
  (∀ r1 r2, r1 ∈ JsMap.values (n_resources normalized) →
     r2 ∈ JsMap.values (n_resources normalized) → nr_id r1 = nr_id r2 → r1 = r2) →
  statesTrack st →
  placedInOrder (changeoverMatrix normalized) st →
  inWindows normalized st →
  stepsTo now deadline maxIterations normalized productsMap st st' →
  inWindows normalized st'.
Proof.
  intros Hsingle Huniq (Hnd & Htrack & Hhas) [_ Hstates] Hin Hstep.
  apply loopBody_Continue_gap in Hstep
    as (position & selected & placement & _ & Hgap & Hhor & ->).
  set (nextOp := raiseToPriorStep (assignments st) selected) in *.
  destruct Hgap as (resource & state & window & i & Hres & Hstate & Hwin & Hi & Hrid
                    & Hend & Hes & Hwend & Hprev & Hnext).
  apply list_elem_of_filter in Hres as [_ Hres].
  intros a. cbn [advance allAssignments].
  intros [Ha|Ha]%elem_of_app; [by apply Hin|].
  apply list_elem_of_singleton in Ha as ->.
  exists resource, window. split_and!; [done|done|done| |done].
  simpl. destruct (previousAt (rs_assignments state) i) as [prev|] eqn:Hp; [|done].
  assert (Hpin : prev ∈ rs_assignments state).
  { destruct i as [|j]; [done|]. by eapply list_elem_of_lookup_2. }
  destruct (Hstates _ _ Hstate) as [[_ Hpos] _].
  rewrite Forall_forall in Hpos. specialize (Hpos _ Hpin).
  rewrite (Htrack _ _ Hstate) in Hpin. apply list_elem_of_filter in Hpin as [Hr Hpall].
  destruct (Hin _ Hpall) as (resource' & window' & Hres' & Hid' & Hwin' & Hs' & He').
  assert (resource' = resource) as -> by (apply Huniq; [done|done|congruence]).
  assert (window' = window) as ->.
  { specialize (Hsingle _ Hres).
    destruct (nr_calendar resource) as [|w [|w' ws]]; [|set_solver|simpl in Hsingle; lia].
    by apply elem_of_nil in Hwin. }
  lia.
Qed.

Lemma normalizeResource_single_calendar horizonStart horizonEnd r se :
  r_calendar r = [se] →
  nr_calendar (normalizeResource horizonStart horizonEnd r)
  = filter (λ w, i_end w > i_start w)
      [clipWindow horizonEnd {| i_start := parseIsoOffset se.1 horizonStart;
                                i_end := parseIsoOffset se.2 horizonStart |}].
Proof. intros Hcal. unfold normalizeResource. by rewrite Hcal. Qed.

Lemma normalizeResource_single horizonStart horizonEnd r :
  length (r_calendar r) = 1%nat →
  (length (nr_calendar (normalizeResource horizonStart horizonEnd r)) ≤ 1)%nat.
Proof.
  intros Hlen. destruct (r_calendar r) as [|se [|se' rest]] eqn:Hcal; [done| |done].
  rewrite (normalizeResource_single_calendar _ _ _ _ Hcal).
  rewrite filter_cons, filter_nil. case_decide; simpl; lia.
Qed.

(** Calendar containment where the code does keep it: when every resource of
    a request that passes the schema has a single calendar window, every
    assignment of a successful schedule lies inside the window of its
    resource, clipped to the horizon. *)
Theorem schedule_single_window_containment (now : nat → Z) (input : Input)
    (all : list InternalAssignment) :
  inputSchema input →
  Forall (λ r, length (r_calendar r) = 1%nat) (resources input) →
  scheduleCore now input = Some (Placed all) →
  ∀ a, a ∈ all →
    ∃ r se, r ∈ resources input ∧ r_id r = a_resource a ∧ r_calendar r = [se]
            ∧ Z.max 0 (parseIsoOffset se.1 (h_start (horizon input))) ≤ a_start a
            ∧ a_end a
              ≤ Z.min (parseIsoOffset (h_end (horizon input)) (h_start (horizon input)))
                      (parseIsoOffset se.2 (h_start (horizon input))).
Proof.
  intros Hschema Hone (st & Hrtc & _ & _ & <-)%scheduleCore_Placed a Ha.
  rewrite Forall_forall in Hone.
  assert (Hwin : inWindows (normalizeInput input) st).
  { cut (rtc (stepsTo now
                (now 0%nat + default 30 (time_limit_seconds <$> settings input) * 1000)
                (length (buildOperationsList (n_products (normalizeInput input))) * 5)
                (normalizeInput input)
                (JsMap.ofList (map (λ p, (np_id p, p)) (n_products (normalizeInput input)))))
             (initialState (normalizeInput input)
                (buildOperationsList (n_products (normalizeInput input)))) st
         ∧ inWindows (normalizeInput input) st); [by intros [_ ?]|].
    revert Hrtc.
    apply (rtc_step_invariant _ _ _ _ _
             (λ st, rtc (stepsTo now
                           (now 0%nat
                            + default 30 (time_limit_seconds <$> settings input) * 1000)
                           (length (buildOperationsList
                                      (n_products (normalizeInput input))) * 5)
                           (normalizeInput input)
                           (JsMap.ofList (map (λ p, (np_id p, p))
                                              (n_products (normalizeInput input)))))
                        (initialState (normalizeInput input)
                           (buildOperationsList (n_products (normalizeInput input)))) st
                    ∧ inWindows (normalizeInput input) st)).
    - clear st a Ha. intros st st' [Hrtc Hin] Hstep. split.
      + eapply rtc_r; [exact Hrtc|exact Hstep].
      + destruct (reachable_in_order now input st Hschema Hrtc) as [Htrack Hord].
        eapply inWindows_step; [| |exact Htrack|exact Hord|exact Hin|exact Hstep].
        * intros resource Hres.
          apply normalizeInput_values_get, normalizeInput_resource_origin in Hres
            as (r & Hr & _ & ->).
          apply normalizeResource_single. by apply Hone.
        * intros r1 r2 H1%normalizeInput_values_get H2%normalizeInput_values_get Heq.
          rewrite Heq in H1. congruence.
    - split; [done|]. intros a' Ha'. by apply elem_of_nil in Ha'. }
  destruct (Hwin a Ha) as (resource & window & Hres & Hid & Hw & Hs & He).
  apply normalizeInput_values_get, normalizeInput_resource_origin in Hres
    as (r & Hr & Hrid & ->).
  specialize (Hone r Hr).
  destruct (r_calendar r) as [|se [|se' rest]] eqn:Hcal; [done| |done].
  exists r, se. split_and!; [done|simpl in *; congruence|done| |].
  all: revert Hw; rewrite (normalizeResource_single_calendar _ _ _ _ Hcal);
    rewrite filter_cons, filter_nil; case_decide; [|by intros ?%elem_of_nil];
    intros ->%list_elem_of_singleton; simpl in *; lia.
Qed.

(** ** The placement search returns the earliest offer *)

Lemma fold_left_preserves {A B} (I Q : A → Prop) (f : A → B → A) l acc :
  (∀ acc y, I acc → I (f acc y)) →
  (∀ acc y, I acc → Q acc → Q (f acc y)) →
  I acc → Q acc → Q (fold_left f l acc).
Proof.
  intros HI HQ. revert acc. induction l as [|y l IH]; intros acc Hi Hq; simpl; [done|].
  apply IH; [by apply HI|by apply HQ].
Qed.

Lemma fold_left_covers {A B} (I Q : A → Prop) (f : A → B → A) l x acc :
  (∀ acc y, I acc → I (f acc y)) →
  (∀ acc y, I acc → Q acc → Q (f acc y)) →
  (∀ acc, I acc → Q (f acc x)) →
  x ∈ l → I acc → Q (fold_left f l acc).
Proof.
  intros HI HQ Hx. revert acc. induction l as [|y l IH]; intros acc Hin Hi; simpl.
  - by apply elem_of_nil in Hin.
  - apply elem_of_cons in Hin as [<-|Hin].
    + apply (fold_left_preserves I Q); [done|done|by apply HI|by apply Hx].
    + apply IH; [done|by apply HI].
Qed.

Section Earliest.
Variable operation : SchedulableOperation.
Variable matrix : gmap string Z.

Lemma tryGap_gapOffer resource sorted window acc i :
  tryGap operation matrix resource sorted window acc i
  = match gapOffer operation matrix sorted window i with
    | Some (start, end_) =>
        let projectedTardiness := Z.max 0 (end_ - productDue operation) in
        if num_lt (Fin projectedTardiness) (bestProjectedTardiness acc)
           || (num_eq (Fin projectedTardiness) (bestProjectedTardiness acc)
               && num_lt (Fin end_) (earliestEnd acc))
        then {| bestPlacement :=
                  Some {| pl_resource := nr_id resource; pl_start := start;
                          pl_end := end_ |};
                bestProjectedTardiness := Fin projectedTardiness;
                earliestEnd := Fin end_;
                bestNear := bestNear acc;
                largestGap := largestGap acc |}
        else acc
    | None => tryGap operation matrix resource sorted window acc i
    end.
Proof.
  unfold gapOffer, tryGap.
  change (match i with O => None | S j => sorted !! j end) with (previousAt sorted i).
  set (gapStart := Z.max _ _). set (gapEnd := Z.min _ _).
  set (changeoverTime := getChangeoverTime _ _ _).
  destruct (decide (gapStart < gapEnd ∧ _ ∧ _)) as [(H1 & H2 & H3)|Hno]; [|done].
  rewrite decide_False by lia. rewrite decide_True by lia. done.
Qed.

Lemma tryGap_bestPlacement_None resource sorted window acc i :
  gapOffer operation matrix sorted window i = None →
  bestPlacement (tryGap operation matrix resource sorted window acc i) = bestPlacement acc
  ∧ bestProjectedTardiness (tryGap operation matrix resource sorted window acc i)
    = bestProjectedTardiness acc
  ∧ earliestEnd (tryGap operation matrix resource sorted window acc i) = earliestEnd acc.
Proof.
  unfold gapOffer, tryGap.
  change (match i with O => None | S j => sorted !! j end) with (previousAt sorted i).
  set (gapStart := Z.max _ _). set (gapEnd := Z.min _ _).
  set (changeoverTime := getChangeoverTime _ _ _).
  destruct (decide (gapStart < gapEnd ∧ _ ∧ _)) as [?|Hno]; [done|]. intros _.
  case_decide; [done|]. rewrite decide_False by lia. by case_decide.
Qed.

Lemma tryGap_searchInv resource sorted window acc i :
  searchInv operation acc →
  searchInv operation (tryGap operation matrix resource sorted window acc i).
Proof.
  intros Hinv.
  destruct (gapOffer operation matrix sorted window i) as [[start end_]|] eqn:Hoffer.
  - rewrite tryGap_gapOffer, Hoffer. simpl. by destruct (_ || _).
  - destruct (tryGap_bestPlacement_None resource sorted window acc i Hoffer)
      as (Hb & Ht & He).
    unfold searchInv. by rewrite Hb, Ht, He.
Qed.

Lemma tryGap_endsBy resource sorted window acc i e :
  searchInv operation acc → endsBy e acc →
  endsBy e (tryGap operation matrix resource sorted window acc i).
Proof.
  intros Hinv (p & Hp & Hle).
  destruct (gapOffer operation matrix sorted window i) as [[start end_]|] eqn:Hoffer.
  - rewrite tryGap_gapOffer, Hoffer. simpl.
    unfold searchInv in Hinv. rewrite Hp in Hinv. destruct Hinv as [-> ->]. simpl.
    destruct (_ || _) eqn:Hbetter; [|by exists p].
    eexists. split; [done|]. simpl.
    apply orb_true_iff in Hbetter as [Hlt|[Heq Hlt]%andb_true_iff].
    + apply bool_decide_eq_true in Hlt. lia.
    + apply bool_decide_eq_true in Hlt. lia.
  - destruct (tryGap_bestPlacement_None resource sorted window acc i Hoffer) as (Hb & _).
    exists p. by rewrite Hb.
Qed.

Lemma tryGap_offer resource sorted window acc i start end_ :
  searchInv operation acc →
  gapOffer operation matrix sorted window i = Some (start, end_) →
  endsBy end_ (tryGap operation matrix resource sorted window acc i).
Proof.
  intros Hinv Hoffer. rewrite tryGap_gapOffer, Hoffer. simpl.
  destruct (_ || _) eqn:Hbetter.
  - eexists. split; [done|]. simpl. lia.
  - unfold searchInv in Hinv.
    apply orb_false_iff in Hbetter as [Hlt Heq].
    destruct (bestPlacement acc) as [p|] eqn:Hp; destruct Hinv as [Ht He];
      rewrite Ht, He in *; simpl in *; [|done].
    exists p. split; [done|].
    apply bool_decide_eq_false in Hlt.
    apply andb_false_iff in Heq as [Heq|Heq]; apply bool_decide_eq_false in Heq; lia.
Qed.

Lemma tryWindow_searchInv resource sorted acc window :
  searchInv operation acc →
  searchInv operation (tryWindow operation matrix resource sorted acc window).
Proof.
  intros Hinv. unfold tryWindow. case_decide; [done|].
  apply (fold_left_invariant (searchInv operation)); [|done].
  intros acc' i _. apply tryGap_searchInv.
Qed.

Lemma tryWindow_endsBy resource sorted acc window e :
  searchInv operation acc → endsBy e acc →
  endsBy e (tryWindow operation matrix resource sorted acc window).
Proof.
  intros Hinv Hends. unfold tryWindow. case_decide; [done|].
  apply (fold_left_preserves (searchInv operation) (endsBy e)); [| |done|done].
  - intros acc' i. apply tryGap_searchInv.
  - intros acc' i. apply tryGap_endsBy.
Qed.

Lemma tryResource_searchInv states acc resource :
  searchInv operation acc →
  searchInv operation (tryResource operation matrix states acc resource).
Proof.
  intros Hinv. unfold tryResource.
  destruct (JsMap.get (nr_id resource) states) as [state|]; [|done].
  apply (fold_left_invariant (searchInv operation)); [|done].
  intros acc' window _. apply tryWindow_searchInv.
Qed.

Lemma tryResource_endsBy states acc resource e :
  searchInv operation acc → endsBy e acc →
  endsBy e (tryResource operation matrix states acc resource).
Proof.
  intros Hinv Hends. unfold tryResource.
  destruct (JsMap.get (nr_id resource) states) as [state|]; [|done].
  apply (fold_left_preserves (searchInv operation) (endsBy e)); [| |done|done].
  - intros acc' window. apply tryWindow_searchInv.
  - intros acc' window. apply tryWindow_endsBy.
Qed.

Lemma tryResource_offer states acc resource state window i start end_ :
  searchInv operation acc →
  JsMap.get (nr_id resource) states = Some state →
  window ∈ nr_calendar resource → earliestStart operation < i_end window →
  (i ≤ length (rs_assignments state))%nat →
  gapOffer operation matrix (rs_assignments state) window i = Some (start, end_) →
  endsBy end_ (tryResource operation matrix states acc resource).
Proof.
  intros Hinv Hstate Hwin Hopen Hi Hoffer. unfold tryResource. rewrite Hstate.
  apply (fold_left_covers (searchInv operation) (endsBy end_) _ _ window);
    [| | |done|done].
  - intros acc' w. apply tryWindow_searchInv.
  - intros acc' w. apply tryWindow_endsBy.
  - intros acc' Hinv'. unfold tryWindow. rewrite decide_False by lia.
    apply (fold_left_covers (searchInv operation) (endsBy end_) _ _ i);
      [| | | |done].
    + intros acc'' j. apply tryGap_searchInv.
    + intros acc'' j. apply tryGap_endsBy.
    + intros acc'' Hinv''. by eapply tryGap_offer.
    + apply elem_of_seq. lia.
Qed.

End Earliest.

(** [tryPlaceOperation] returns the earliest offer: whenever some gap of some
    window of an eligible resource offers the operation a slot, a placement is
    returned, and it ends no later than that slot; and the placement returned
    is itself the offer of such a gap. *)
Theorem tryPlaceOperation_earliest (operation : SchedulableOperation)
    (eligible : list NormalizedResource) (states : JsMap.t ResourceState)
    (matrix : gmap string Z) :
  let best := (tryPlaceOperation operation eligible states matrix).1 in
  (∀ resource state window i start end_,
     resource ∈ eligible →
     JsMap.get (nr_id resource) states = Some state →
     window ∈ nr_calendar resource → earliestStart operation < i_end window →
     (i ≤ length (rs_assignments state))%nat →
     gapOffer operation matrix (rs_assignments state) window i = Some (start, end_) →
     ∃ p, best = Some p ∧ pl_end p ≤ end_ ∧ pl_start p ≤ start)
  ∧ (∀ p, best = Some p →
       ∃ resource state window i,
         resource ∈ eligible
         ∧ JsMap.get (nr_id resource) states = Some state
         ∧ window ∈ nr_calendar resource ∧ earliestStart operation < i_end window
         ∧ (i ≤ length (rs_assignments state))%nat
         ∧ pl_resource p = nr_id resource
         ∧ gapOffer operation matrix (rs_assignments state) window i
           = Some (pl_start p, pl_end p)).
Proof.
  unfold tryPlaceOperation. cbn [fst]. split.
  - intros resource state window i start end_ Hres Hstate Hwin Hopen Hi Hoffer.
    assert (Hends : endsBy end_
              (fold_left (tryResource operation matrix states) eligible initialSearch)).
    { apply (fold_left_covers (searchInv operation) (endsBy end_) _ _ resource);
        [| | |done|done].
      - intros acc r. apply tryResource_searchInv.
      - intros acc r. apply tryResource_endsBy.
      - intros acc Hinv. by eapply tryResource_offer. }
    destruct Hends as (p & Hp & Hle). exists p. split_and!; [done|done|].
    assert (Hlen : pl_end p = pl_start p + duration operation).
    { eapply (tryPlaceOperation_good _ _ _ eligible p
                (bestNear (fold_left (tryResource operation matrix states)
                                     eligible initialSearch))).
      unfold tryPlaceOperation. by rewrite Hp. }
    unfold gapOffer in Hoffer. case_decide; [|done]. injection Hoffer as <- <-. lia.
  - apply (fold_left_invariant
             (λ acc, ∀ p, bestPlacement acc = Some p →
                ∃ resource state window i,
                  resource ∈ eligible
                  ∧ JsMap.get (nr_id resource) states = Some state
                  ∧ window ∈ nr_calendar resource
                  ∧ earliestStart operation < i_end window
                  ∧ (i ≤ length (rs_assignments state))%nat
                  ∧ pl_resource p = nr_id resource
                  ∧ gapOffer operation matrix (rs_assignments state) window i
                    = Some (pl_start p, pl_end p))); [|done].
    intros acc resource Hres Hacc. unfold tryResource.
    destruct (JsMap.get (nr_id resource) states) as [state|] eqn:Hstate; [|done].
    apply (fold_left_invariant
             (λ acc, ∀ p, bestPlacement acc = Some p →
                ∃ resource state window i,
                  resource ∈ eligible
                  ∧ JsMap.get (nr_id resource) states = Some state
                  ∧ window ∈ nr_calendar resource
                  ∧ earliestStart operation < i_end window
                  ∧ (i ≤ length (rs_assignments state))%nat
                  ∧ pl_resource p = nr_id resource
                  ∧ gapOffer operation matrix (rs_assignments state) window i
                    = Some (pl_start p, pl_end p))); [|done].
    intros acc' window Hwin Hacc'. unfold tryWindow. case_decide as Hopen; [done|].
    apply (fold_left_invariant
             (λ acc, ∀ p, bestPlacement acc = Some p →
                ∃ resource state window i,
                  resource ∈ eligible
                  ∧ JsMap.get (nr_id resource) states = Some state
                  ∧ window ∈ nr_calendar resource
                  ∧ earliestStart operation < i_end window
                  ∧ (i ≤ length (rs_assignments state))%nat
                  ∧ pl_resource p = nr_id resource
                  ∧ gapOffer operation matrix (rs_assignments state) window i
                    = Some (pl_start p, pl_end p))); [|done].
    intros acc'' i Hi%elem_of_seq Hacc'' p.
    destruct (gapOffer operation matrix (rs_assignments state) window i)
      as [[start end_]|] eqn:Hoffer.
    + rewrite tryGap_gapOffer, Hoffer. simpl.
      destruct (_ || _); [|by apply Hacc''].
      intros [= <-]. exists resource, state, window, i. simpl.
      split_and!; [done|done|done|lia|lia|done|done].
    + destruct (tryGap_bestPlacement_None operation matrix resource
                  (rs_assignments state) window acc'' i Hoffer) as (Hb & _).
      rewrite Hb. apply Hacc''.
Qed.

(** ** The tardiness figures of the result *)

Lemma productCompletions_get (l : list InternalAssignment) (m : JsMap.t Z) pid :
  default 0 (JsMap.get pid
               (fold_left
                  (λ m a,
                     let current := default 0 (JsMap.get (a_productId a) m) in
                     JsMap.set (a_productId a) (Z.max current (a_end a)) m)
                  l m))
  = fold_left Z.max (a_end <$> filter (λ a, a_productId a = pid) l)
              (default 0 (JsMap.get pid m)).
Proof.
  revert m. induction l as [|a l IH]; intros m; [done|].
  cbn [fold_left]. rewrite IH. cbv zeta. rewrite JsMap_get_set, filter_cons.
  destruct (decide (a_productId a = pid)) as [<-|Hne]; [|done].
  by rewrite fmap_cons.
Qed.

Lemma productCompletions_completion (l : list InternalAssignment) pid :
  default 0 (JsMap.get pid
               (fold_left
                  (λ m a,
                     let current := default 0 (JsMap.get (a_productId a) m) in
                     JsMap.set (a_productId a) (Z.max current (a_end a)) m)
                  l JsMap.empty))
  = completion l pid.
Proof.
  rewrite productCompletions_get. unfold completion. simpl.
  apply fold_symmetric; intros; lia.
Qed.

Lemma tardiness_fold (completionOf : NormalizedProduct → Z) products (acc : Z * Z) :
  fold_left
    (λ '(totalTardiness, onTimeJobs) product,
       let completion := completionOf product in
       let tardiness := Z.max 0 (completion - np_due product) in
       (totalTardiness + tardiness,
        if decide (tardiness = 0) then onTimeJobs + 1 else onTimeJobs))
    products acc
  = (acc.1 + foldr Z.add 0 ((λ p, Z.max 0 (completionOf p - np_due p)) <$> products),
     acc.2 + Z.of_nat (length (filter (λ p, completionOf p ≤ np_due p) products))).
Proof.
  revert acc. induction products as [|p products IH]; intros [t n].
  - simpl. f_equal; lia.
  - change (fold_left ?f (p :: products) (t, n))
      with (fold_left f products (f (t, n) p)).
    rewrite IH, filter_cons, fmap_cons. cbn [foldr fst snd]. f_equal; [lia|].
    repeat case_decide; cbn [length]; lia.
Qed.

Lemma tardiness_zero (completionOf : NormalizedProduct → Z) products :
  0 ≤ foldr Z.add 0 ((λ p, Z.max 0 (completionOf p - np_due p)) <$> products)
  ∧ (foldr Z.add 0 ((λ p, Z.max 0 (completionOf p - np_due p)) <$> products) = 0
     ↔ length (filter (λ p, completionOf p ≤ np_due p) products) = length products).
Proof.
  induction products as [|p products [IH0 IH]]; [done|].
  pose proof (length_filter (λ p, completionOf p ≤ np_due p) products) as Hle.
  rewrite fmap_cons, filter_cons. cbn [foldr]. split; [lia|].
  case_decide; cbn [length]; lia.
Qed.

(** The tardiness figures of a result are those of the constraint model: the
    total is the sum, over the products, of the time by which the latest end
    of the product's assignments passes its due time; a job is on time when
    it does not; and the total is zero exactly when every job is on time. *)
Theorem denormalizeResult_tardiness (assignments : list InternalAssignment)
    (horizonStart : Timestamp) (products : list NormalizedProduct)
    (resources : JsMap.t NormalizedResource) (matrix : gmap string Z) :
  ∃ out kpis,
    denormalizeResult assignments horizonStart products resources matrix
    = Success out kpis
    ∧ tardiness_minutes kpis
      = foldr Z.add 0 (productTardiness assignments <$> products)
    ∧ on_time_jobs kpis
      = Z.of_nat (length (filter (λ p, completion assignments (np_id p) ≤ np_due p)
                                 products))
    ∧ total_jobs kpis = Z.of_nat (length products)
    ∧ 0 ≤ tardiness_minutes kpis
    ∧ 0 ≤ on_time_jobs kpis ≤ total_jobs kpis
    ∧ (tardiness_minutes kpis = 0 ↔ on_time_jobs kpis = total_jobs kpis).
Proof.
  unfold denormalizeResult.
  set (pc := fold_left _ assignments JsMap.empty).
  rewrite (tardiness_fold (λ product, default 0 (JsMap.get (np_id product) pc))).
  eexists _, _. split; [reflexivity|].
  cbn [tardiness_minutes on_time_jobs total_jobs fst snd].
  assert (Hext : ∀ p, default 0 (JsMap.get (np_id p) pc)
                      = completion assignments (np_id p))
    by (intros p; apply productCompletions_completion).
  pose proof (tardiness_zero (λ p, completion assignments (np_id p)) products)
    as [H0 Hiff].
  pose proof (length_filter (λ p, completion assignments (np_id p) ≤ np_due p) products)
    as Hle.
  assert (Hsum : foldr Z.add 0
                   ((λ p, Z.max 0 (default 0 (JsMap.get (np_id p) pc) - np_due p))
                      <$> products)
                 = foldr Z.add 0 (productTardiness assignments <$> products)).
  { f_equal. apply list_fmap_ext. intros _ p _. unfold productTardiness.
    by rewrite Hext. }
  assert (Hcount : filter (λ p, default 0 (JsMap.get (np_id p) pc) ≤ np_due p) products
                   = filter (λ p, completion assignments (np_id p) ≤ np_due p) products).
  { apply list_filter_iff. intros p. by rewrite Hext. }
  rewrite Hsum, Hcount.
  assert (Hsame : foldr Z.add 0 (productTardiness assignments <$> products)
                  = foldr Z.add 0
                      ((λ p, Z.max 0 (completion assignments (np_id p) - np_due p))
                         <$> products)) by done.
  rewrite Hsame. split_and!; [lia|lia|done|lia|lia|lia|].
  rewrite !Z.add_0_l, Hiff. lia.
Qed.

(** ** The time limit *)

Lemma drivingLoop_Return_first now deadline maxIterations normalized productsMap
    fuel st result :
  unscheduled st ≠ [] →
  loopBody now deadline maxIterations normalized productsMap st = Return result →
  drivingLoop now deadline maxIterations normalized productsMap (S fuel) st
  = Some (inl result).
Proof.
  intros Hne Hret. simpl. rewrite decide_True; [by rewrite Hret|].
  destruct (unscheduled st); [done|simpl; lia].
Qed.

(** [schedule] fails with "Time limit exceeded" only when one of the clock
    readings of the loop, of which there is at most one per operation, lies
    after the deadline; and it does fail so when there is an operation and
    the first reading already does. *)
Theorem schedule_time_limit (now : nat → Z) (input : Input) :
  let deadline :=
    now 0%nat + default 30 (time_limit_seconds <$> settings input) * 1000 in
  (∀ why, schedule now input = Some (Failure "Time limit exceeded" why) →
     why = ["settings.time_limit_seconds reached before completing schedule"]
     ∧ ∃ k, (1 ≤ k ≤ length (routeKeys input))%nat ∧ now k > deadline)
  ∧ (routeKeys input ≠ [] → now 1%nat > deadline →
     schedule now input
     = Some (Failure "Time limit exceeded"
               ["settings.time_limit_seconds reached before completing schedule"])).
Proof.
  intros deadline. split.
  - intros why Hfail%schedule_Failure%scheduleCore_Terminal. cbv zeta in Hfail.
    destruct Hfail as [[_ ?]|[(st & Hrtc & Hne & Hret)|(rid & prev & cur & ?)]];
      [done| |done].
    apply reachable_progress in Hrtc. cbn [initialState iteration unscheduled] in Hrtc.
    rewrite <- (length_fmap opKey (buildOperationsList _)),
      buildOperationsList_keys in Hrtc.
    revert Hret. unfold loopBody. case_decide as Hlate.
    + intros [= <-]. split; [done|]. exists (S (iteration st)). split; [|done].
      destruct (unscheduled st); [done|]. simpl in Hrtc. lia.
    + case_decide; [done|].
      destruct (selectNextOperation _ _ _) as [[position selected]|]; [|done].
      case_decide; [done|].
      destruct (tryPlaceOperation _ _ _ _) as [[placement|] near]; [|done].
      by case_decide.
  - intros Hops Hlate. rewrite <- buildOperationsList_keys in Hops.
    assert (Hne : buildOperationsList (n_products (normalizeInput input)) ≠ []).
    { intros Hnil. by rewrite Hnil in Hops. }
    unfold schedule, scheduleCore.
    rewrite decide_False; last first.
    { intros Hnil. apply Hne. by destruct (n_products (normalizeInput input)). }
    match goal with
    | |- context [drivingLoop _ _ ?m _ _ (?m + 2)%nat] =>
        replace (m + 2)%nat with (S (S m)) by lia
    end.
    rewrite (drivingLoop_Return_first _ _ _ _ _ _ _
               (Failure "Time limit exceeded"
                  ["settings.time_limit_seconds reached before completing schedule"]));
      [done|done|].
    unfold loopBody. cbn [initialState iteration]. by rewrite decide_True.
Qed.

(** ** The listing and the makespan of a success *)

Lemma schedule_Success_kpis now input out kpis :
  schedule now input = Some (Success out kpis) →
  (products input = [] ∧ Success out kpis = emptyResult)
  ∨ ∃ all, scheduleCore now input = Some (Placed all)
           ∧ denormalizeResult all (horizonStart (normalizeInput input))
               (n_products (normalizeInput input)) (n_resources (normalizeInput input))
               (changeoverMatrix (normalizeInput input))
             = Success out kpis.
Proof.
  intros Hrun. pose proof (schedule_Success _ _ _ _ Hrun) as Hcases.
  revert Hrun. unfold schedule.
  destruct (scheduleCore now input) as [[r|all]|] eqn:Hcore; cbn; [| |done].
  - intros [= ->]. left.
    apply scheduleCore_Terminal in Hcore. cbv zeta in Hcore.
    destruct Hcore as [[Hempty Hres]|[(st & _ & _ & Hret)|(rid & prev & cur & ?)]];
      [done|exfalso|done].
    revert Hret. unfold loopBody. repeat case_decide; try done.
    all: destruct (selectNextOperation _ _ _) as [[??]|]; [|done].
    all: case_decide; [done|].
    all: destruct (tryPlaceOperation _ _ _ _) as [[?|] ?]; [|done].
    all: by case_decide.
  - intros [= Hres]. right. by exists all.
Qed.

Lemma maxEnd_bounds (l : list InternalAssignment) (init : Z) :
  init ≤ fold_left (λ m a, Z.max m (a_end a)) l init
  ∧ (∀ a, a ∈ l → a_end a ≤ fold_left (λ m a, Z.max m (a_end a)) l init)
  ∧ ∀ H, init ≤ H → Forall (λ a, a_end a ≤ H) l →
      fold_left (λ m a, Z.max m (a_end a)) l init ≤ H.
Proof.
  revert init. induction l as [|x l IH]; intros init; simpl.
  - split_and!; [lia| |done]. intros a Ha. by apply elem_of_nil in Ha.
  - destruct (IH (Z.max init (a_end x))) as (H1 & H2 & H3). split_and!; [lia| |].
    + intros a [->|Ha]%elem_of_cons; [lia|by apply H2].
    + intros H Hinit [Hx Hl]%Forall_cons_1. apply H3; [lia|done].
Qed.

Lemma minStart_bounds (l : list InternalAssignment) (init : Z) :
  ∃ m, fold_left (λ m a, num_min m (a_start a)) l (Fin init) = Fin m
       ∧ m ≤ init
       ∧ ∀ L, L ≤ init → Forall (λ a, L ≤ a_start a) l → L ≤ m.
Proof.
  revert init. induction l as [|x l IH]; intros init; simpl.
  - exists init. split_and!; [done|lia|done].
  - destruct (IH (Z.min init (a_start x))) as (m & Hm & Hle & Hlow).
    exists m. split_and!; [done|lia|].
    intros L HL [Hx Hl]%Forall_cons_1. apply Hlow; [lia|done].
Qed.

(** The makespan of a success lies between 0 and the length of the horizon
    (0 when nothing was to be placed), for a request that passes the schema. *)
Theorem schedule_makespan_bound (now : nat → Z) (input : Input)
    (out : list Assignment) (kpis : KPIs) :
  inputSchema input →
  schedule now input = Some (Success out kpis) →
  0 ≤ makespan_minutes kpis
  ≤ Z.max 0 (parseIsoOffset (h_end (horizon input)) (h_start (horizon input))).
Proof.
  intros Hschema [[Hempty [= _ ->]]|(all & Hcore & Hres)]%schedule_Success_kpis.
  - simpl. lia.
  - apply scheduleCore_Placed in Hcore as (st & Hrtc & _ & _ & <-).
    apply withinHorizon_reachable in Hrtc as [_ Hall];
      [|apply assignmentsTrack_initial|by apply withinHorizon_initial].
    revert Hres. unfold denormalizeResult.
    destruct (fold_left _ (n_products (normalizeInput input)) _) as [t n].
    intros [= _ <-]. cbn [makespan_minutes].
    case_decide as Hlen; [|lia].
    destruct (allAssignments st) as [|a0 l] eqn:Hl; [simpl in Hlen; lia|].
    apply Forall_cons_1 in Hall as [Ha0 Hall]. cbn [fold_left num_min].
    destruct (minStart_bounds l (a_start a0)) as (m & -> & Hm & Hlow).
    destruct (maxEnd_bounds l (Z.max 0 (a_end a0))) as (Hinit & _ & Hup).
    specialize (Hlow 0 ltac:(lia)).
    specialize (Hup (parseIsoOffset (h_end (horizon input)) (h_start (horizon input)))).
    simpl in Hall, Ha0.
    assert (0 ≤ m).
    { apply Hlow. eapply Forall_impl; [exact Hall|]. intros a ?. simpl in *. lia. }
    assert (fold_left (λ m a, Z.max m (a_end a)) l (Z.max 0 (a_end a0))
            ≤ parseIsoOffset (h_end (horizon input)) (h_start (horizon input))).
    { apply Hup; [lia|]. eapply Forall_impl; [exact Hall|]. intros a ?. simpl in *. lia. }
    lia.
Qed.

(** ** Steps that no resource can carry out *)

Lemma JsMap_fold_set_get_fresh {A V} (f : A → string) (g : A → V) (l : list A) m k :
  k ∉ f <$> l →
  JsMap.get k (fold_left (λ m x, JsMap.set (f x) (g x) m) l m) = JsMap.get k m.
Proof.
  revert m. induction l as [|x l IH]; intros m Hk; [done|].
  csimpl in Hk. apply not_elem_of_cons in Hk as [Hne Hk].
  simpl. rewrite IH by done. by apply JsMap_get_set_ne.
Qed.

Lemma JsMap_fold_set_get {A V} (f : A → string) (g : A → V) (l : list A) m x :
  NoDup (f <$> l) → x ∈ l →
  JsMap.get (f x) (fold_left (λ m x, JsMap.set (f x) (g x) m) l m) = Some (g x).
Proof.
  revert m. induction l as [|y l IH]; intros m Hnd Hx.
  - by apply elem_of_nil in Hx.
  - csimpl in Hnd. apply NoDup_cons in Hnd as [Hy Hnd].
    apply elem_of_cons in Hx as [->|Hx]; simpl.
    + rewrite JsMap_fold_set_get_fresh by done. apply JsMap_get_set_eq.
    + by apply IH.
Qed.

Lemma normalizeInput_resource_complete input r :
  NoDup (r_id <$> resources input) → r ∈ resources input →
  normalizeResource (horizonStart (normalizeInput input))
                    (horizonEnd (normalizeInput input)) r
  ∈ JsMap.values (n_resources (normalizeInput input)).
Proof.
  intros Hnd Hr. simpl.
  pose proof (JsMap_fold_set_get r_id
                (normalizeResource (h_start (horizon input))
                   (parseIsoOffset (h_end (horizon input)) (h_start (horizon input))))
                (resources input) JsMap.empty r Hnd Hr) as Hget.
  apply JsMap_get_Some_elem_of in Hget.
  apply list_elem_of_fmap. by eexists (_, _).
Qed.

(** When the resource ids and the product ids of a request are unique:
    [schedule] fails with "No eligible resources" only if some route step
    asks for a capability that no resource lists; and a request with such a
    step is never scheduled with success. *)
Theorem schedule_missing_capability (now : nat → Z) (input : Input) :
  NoDup (r_id <$> resources input) →
  NoDup (p_id <$> products input) →
  let missing :=
    ∃ p op, p ∈ products input ∧ op ∈ p_route p
            ∧ ∀ r, r ∈ resources input → op_capability op ∉ r_capabilities r in
  (∀ why, schedule now input = Some (Failure "No eligible resources" why) → missing)
  ∧ (missing → ∀ out kpis, schedule now input ≠ Some (Success out kpis)).
Proof.
  intros Hrids Hpids missing. split.
  - intros why Hfail%schedule_Failure%scheduleCore_Terminal. cbv zeta in Hfail.
    destruct Hfail as [[_ ?]|[(st & Hrtc & _ & Hret)|(rid & prev & cur & ?)]];
      [done| |done].
    apply poolFrom_reachable in Hrtc.
    revert Hret. unfold loopBody. case_decide; [done|]. case_decide; [done|].
    destruct (selectNextOperation _ _ _) as [[position selected]|] eqn:Hsel; [|done].
    apply selectNextOperation_Some in Hsel as (Hpos & _).
    case_decide as Hnone.
    + intros _. apply length_zero_iff_nil in Hnone.
      assert (Hin : eraseStart selected
                    ∈ eraseStart <$> buildOperationsList (n_products (normalizeInput input))).
      { apply Hrtc. by eapply list_elem_of_lookup_2. }
      apply list_elem_of_fmap in Hin as (o & Heq & Ho).
      apply buildOperationsList_elem_of in Ho as (product & k & op & Hp & Hk & ->).
      simpl in Hp. apply list_elem_of_fmap in Hp as (p & -> & Hp). simpl in Hk.
      exists p, op. split_and!; [done|by eapply list_elem_of_lookup_2|].
      intros r Hr Hcap.
      pose proof (normalizeInput_resource_complete input r Hrids Hr) as Hres.
      assert (Hel : normalizeResource (horizonStart (normalizeInput input))
                      (horizonEnd (normalizeInput input)) r
                    ∈ getEligibleResources
                        (raiseToPriorStep (assignments st) selected)
                        (n_resources (normalizeInput input))).
      { apply list_elem_of_filter. split; [|done].
        pose proof (eraseStart_raiseToPriorStep (assignments st) selected) as He.
        rewrite Heq in He. apply (f_equal capability) in He. simpl in He.
        rewrite He. by apply elem_of_list_to_set. }
      rewrite Hnone in Hel. by apply elem_of_nil in Hel.
    + destruct (tryPlaceOperation _ _ _ _) as [[placement|] near]; [|done].
      by case_decide.
  - intros (p & op & Hp & Hop & Hmiss) out kpis Hrun.
    apply schedule_Success in Hrun as [[Hempty _]|(all & Hcore & _)].
    { rewrite Hempty in Hp. by apply elem_of_nil in Hp. }
    apply list_elem_of_lookup in Hop as [k Hk].
    assert (Hkey : (p_id p, k) ∈ assignmentKey <$> all).
    { rewrite (placed_keys_routeKeys now input all Hcore).
      unfold routeKeys. apply list_elem_of_bind. exists p. split; [|done].
      apply list_elem_of_fmap. exists k. split; [done|].
      apply elem_of_seq. apply lookup_lt_Some in Hk. lia. }
    apply list_elem_of_fmap in Hkey as (a & Hkey & Ha).
    injection Hkey as Hpid Hstep.
    apply scheduleCore_Placed in Hcore as (st & Hrtc & _ & _ & <-).
    apply assignedWell_reachable in Hrtc.
    destruct (Hrtc a Ha) as [(o & Ho & Heq & _) (resource & Hres & _ & Hcap)].
    apply buildOperationsList_elem_of in Ho as (product & k' & op' & Hp' & Hk' & ->).
    simpl in Hp'. apply list_elem_of_fmap in Hp' as (p' & -> & Hp'). simpl in Hk'.
    rewrite <- Heq in Hpid, Hstep, Hcap. simpl in Hpid, Hstep, Hcap. subst k'.
    assert (p' = p) as ->.
    { apply list_elem_of_lookup in Hp' as [i1 H1]. apply list_elem_of_lookup in Hp as [i2 H2].
      assert (i1 = i2) as ->; [|congruence].
      apply (NoDup_lookup _ i1 i2 (p_id p') Hpids); rewrite list_lookup_fmap.
      - by rewrite H1.
      - rewrite H2. simpl. by rewrite Hpid. }
    assert (op' = op) as -> by congruence.
    apply normalizeInput_values_get, normalizeInput_resource_origin in Hres
      as (r & Hr & _ & ->).
    simpl in Hcap. apply elem_of_list_to_set in Hcap. by eapply Hmiss.
Qed.

(** ** The clock matters only through the time limit *)

Lemma loopBody_clock now1 now2 deadline1 deadline2 maxIterations normalized productsMap st :
  now1 (S (iteration st)) ≤ deadline1 → now2 (S (iteration st)) ≤ deadline2 →
  loopBody now1 deadline1 maxIterations normalized productsMap st
  = loopBody now2 deadline2 maxIterations normalized productsMap st.
Proof.
  intros H1 H2. unfold loopBody.
  rewrite (decide_False (P := now1 (S (iteration st)) > deadline1)) by lia.
  by rewrite (decide_False (P := now2 (S (iteration st)) > deadline2)) by lia.
Qed.

Lemma drivingLoop_clock now1 now2 deadline1 deadline2 maxIterations normalized productsMap
    (N fuel : nat) st :
  (∀ k, (1 ≤ k ≤ N)%nat → now1 k ≤ deadline1) →
  (∀ k, (1 ≤ k ≤ N)%nat → now2 k ≤ deadline2) →
  (iteration st + length (unscheduled st) = N)%nat →
  drivingLoop now1 deadline1 maxIterations normalized productsMap fuel st
  = drivingLoop now2 deadline2 maxIterations normalized productsMap fuel st.
Proof.
  intros H1 H2. revert st. induction fuel as [|fuel IH]; intros st HN; simpl.
  - done.
  - case_decide as Hlen; [|done].
    rewrite (loopBody_clock now1 now2 deadline1 deadline2)
      by (first [apply H1|apply H2]; lia).
    destruct (loopBody now2 deadline2 maxIterations normalized productsMap st)
      as [result|st'] eqn:Hbody; [done|].
    apply IH. apply loopBody_progress_length in Hbody. lia.
Qed.

(** The result of [schedule] depends on the clock only through the time
    limit: two clocks whose readings during the loop, at most one per
    operation, all stay within their deadlines give the same result. *)
Theorem schedule_clock_independent (now1 now2 : nat → Z) (input : Input) :
  let limit := default 30 (time_limit_seconds <$> settings input) * 1000 in
  (∀ k, (1 ≤ k ≤ length (routeKeys input))%nat → now1 k ≤ now1 0%nat + limit) →
  (∀ k, (1 ≤ k ≤ length (routeKeys input))%nat → now2 k ≤ now2 0%nat + limit) →
  schedule now1 input = schedule now2 input.
Proof.
  intros limit H1 H2. unfold schedule, scheduleCore.
  case_decide; [done|].
  rewrite (drivingLoop_clock now1 now2 (now1 0%nat + limit) (now2 0%nat + limit)
             _ _ _ (length (routeKeys input))); [done|done|done|].
  cbn [initialState iteration unscheduled].
  by rewrite <- buildOperationsList_keys, length_fmap.
Qed.

(** ** Every step exactly once *)

Lemma Permutation_fmap_by_key {A B K D} (f : A → K) (g : B → K) (F : A → D) (G : B → D)
    (l1 : list A) (l2 : list B) :
  NoDup (g <$> l2) → f <$> l1 ≡ₚ g <$> l2 →
  (∀ x y, x ∈ l1 → y ∈ l2 → f x = g y → F x = G y) →
  F <$> l1 ≡ₚ G <$> l2.
Proof.
  revert l2. induction l1 as [|x l1 IH]; intros l2 Hnd Hperm Hsame.
  - csimpl in Hperm. symmetry in Hperm. apply Permutation_nil_r in Hperm.
    apply fmap_nil_inv in Hperm as ->. done.
  - csimpl in Hperm.
    assert (Hin : f x ∈ g <$> l2) by (rewrite <- Hperm; left).
    apply list_elem_of_fmap in Hin as (y & Hxy & Hy).
    apply elem_of_Permutation in Hy as [l2' Hl2].
    assert (Hperm' : f <$> l1 ≡ₚ g <$> l2').
    { rewrite Hl2 in Hperm. csimpl in Hperm. rewrite <- Hxy in Hperm.
      by apply Permutation_cons_inv in Hperm. }
    assert (Hnd' : NoDup (g <$> l2')).
    { rewrite Hl2 in Hnd. csimpl in Hnd. by apply NoDup_cons in Hnd as [_ ?]. }
    csimpl. rewrite Hl2. csimpl.
    rewrite (Hsame x y); [|left|rewrite Hl2; left|done].
    apply Permutation_skip, IH; [done|done|].
    intros x' y' Hx' Hy'. apply Hsame; [by right|rewrite Hl2; by right].
Qed.

Lemma buildOperationsList_steps input :
  opStep <$> buildOperationsList (n_products (normalizeInput input)) = routeSteps input.
Proof.
  unfold routeSteps, buildOperationsList. simpl.
  induction (products input) as [|p ps IH]; [done|].
  csimpl. rewrite fmap_app, IH. f_equal. by rewrite fmap_imap.
Qed.

Lemma placed_steps_routeSteps now input all :
  NoDup (p_id <$> products input) →
  scheduleCore now input = Some (Placed all) →
  assignedStep <$> all ≡ₚ routeSteps input.
Proof.
  intros Hids Hcore. pose proof (placed_keys_routeKeys now input all Hcore) as Hkeys.
  apply scheduleCore_Placed in Hcore as (st & Hrtc & _ & _ & <-).
  apply assignedWell_reachable in Hrtc.
  assert (Hnd : NoDup (opKey <$> buildOperationsList (n_products (normalizeInput input)))).
  { apply buildOperationsList_keys_NoDup. simpl.
    by rewrite <- list_fmap_compose. }
  rewrite <- buildOperationsList_steps.
  apply (Permutation_fmap_by_key assignmentKey opKey); [done| |].
  - by rewrite buildOperationsList_keys.
  - intros a y Ha Hy Hkey.
    destruct (Hrtc a Ha) as [(o & Ho & Heq & Hd) _].
    assert (o = y) as ->.
    { apply (NoDup_fmap_inj_on opKey _ _ _ Hnd Ho Hy).
      rewrite <- Hkey, <- Heq. done. }
    unfold assignedStep, opStep. rewrite <- Heq at 1 2 3 4. simpl.
    repeat f_equal. lia.
Qed.

(** When product ids are unique, a successful schedule assigns every step of
    every route exactly once: the assignments, read as (product id, step
    index, family, operation name, length), are up to order the route steps
    of the request with their capabilities and durations; no product id and
    step index is assigned twice; and for every route step there is one
    assignment with its product id and step index, which is the only one. *)
Theorem schedule_assigns_each_step_once (now : nat → Z) (input : Input)
    (all : list InternalAssignment) :
  NoDup (p_id <$> products input) →
  scheduleCore now input = Some (Placed all) →
  assignedStep <$> all ≡ₚ routeSteps input
  ∧ NoDup (assignmentKey <$> all)
  ∧ ∀ p k op, p ∈ products input → p_route p !! k = Some op →
      ∃ a, a ∈ all
           ∧ assignedStep a
             = (p_id p, k, p_family p, op_capability op, duration_minutes op)
           ∧ ∀ a', a' ∈ all → assignmentKey a' = (p_id p, k) → a' = a.
Proof.
  intros Hids Hcore.
  pose proof (placed_steps_routeSteps now input all Hids Hcore) as Hsteps.
  assert (Hnd : NoDup (assignmentKey <$> all)).
  { rewrite (placed_keys_routeKeys now input all Hcore), <- buildOperationsList_keys.
    apply buildOperationsList_keys_NoDup. simpl. by rewrite <- list_fmap_compose. }
  split_and!; [done|done|].
  intros p k op Hp Hk.
  assert (Hin : (p_id p, k, p_family p, op_capability op, duration_minutes op)
                ∈ assignedStep <$> all).
  { rewrite Hsteps. unfold routeSteps. apply list_elem_of_bind. exists p.
    split; [|done]. apply elem_of_lookup_imap. by exists k, op. }
  apply list_elem_of_fmap in Hin as (a & Heq & Ha).
  exists a. split_and!; [done|done|].
  intros a' Ha' Hkey. apply (NoDup_fmap_inj_on assignmentKey all); [done|done|done|].
  rewrite Hkey. unfold assignedStep in Heq. unfold assignmentKey. congruence.
Qed.

(** ** The listing of a success *)

Lemma listedSteps_routeSteps input :
  (λ s : string * nat * string * string * Z, (s.1.1.1.1, s.1.2, s.2 * 60000))
    <$> routeSteps input
  = listedSteps input.
Proof.
  unfold routeSteps, listedSteps.
  induction (products input) as [|p ps IH]; [done|].
  csimpl. rewrite fmap_app, IH. f_equal.
  rewrite fmap_imap. by rewrite <- imap_const.
Qed.

(** When product ids are unique, a success lists one output assignment for
    every route step of the request: the output assignments, read as
    (product, operation, end - start), are up to order the route steps with
    their capabilities and their durations in milliseconds; each is on a
    resource of the request that lists the operation's capability; they come
    in order of start time; and every product of the request counts as a
    job. *)
Theorem schedule_output_listing (now : nat → Z) (input : Input)
    (out : list Assignment) (kpis : KPIs) :
  NoDup (p_id <$> products input) →
  schedule now input = Some (Success out kpis) →
  outputStep <$> out ≡ₚ listedSteps input
  ∧ (∀ o, o ∈ out →
       ∃ r, r ∈ resources input ∧ r_id r = out_resource o
            ∧ out_operation o ∈ r_capabilities r)
  ∧ StronglySorted (λ a b, out_start a ≤ out_start b) out
  ∧ total_jobs kpis = Z.of_nat (length (products input)).
Proof.
  intros Hids [[Hempty [= -> ->]]|(all & Hcore & Hres)]%schedule_Success_kpis.
  - unfold listedSteps. rewrite Hempty. split_and!; [done| |constructor|done].
    intros o Ho. by apply elem_of_nil in Ho.
  - pose proof (placed_steps_routeSteps now input all Hids Hcore) as Hsteps.
    pose proof Hcore as Hcore'.
    apply scheduleCore_Placed in Hcore' as (st & Hrtc & _ & _ & <-).
    apply assignedWell_reachable in Hrtc.
    revert Hres. unfold denormalizeResult.
    destruct (fold_left _ (n_products (normalizeInput input)) _) as [t n].
    intros [= <- <-]. cbn [total_jobs]. split_and!.
    + rewrite <- listedSteps_routeSteps, <- Hsteps.
      change (map (toOutput (horizonStart (normalizeInput input))))
        with (fmap (M := list) (toOutput (horizonStart (normalizeInput input)))).
      rewrite <- !list_fmap_compose, (arraySort_perm byAssignmentStart).
      apply Permutation_refl'. apply list_fmap_ext. intros _ a _.
      unfold outputStep, assignedStep, toOutput, formatIsoOffset. simpl.
      f_equal. lia.
    + intros o Ho.
      change (o ∈ toOutput (horizonStart (normalizeInput input))
                  <$> arraySort byAssignmentStart (allAssignments st)) in Ho.
      apply list_elem_of_fmap in Ho as (a & -> & Ha).
      rewrite (elem_of_arraySort byAssignmentStart) in Ha.
      destruct (Hrtc a Ha) as [_ (resource & Hres & Hid & Hcap)].
      apply normalizeInput_values_get, normalizeInput_resource_origin in Hres
        as (r & Hr & Hrid & ->).
      exists r. simpl in *. split_and!; [done|congruence|].
      by apply elem_of_list_to_set in Hcap.
    + apply (StronglySorted_fmap (λ a b, out_start a ≤ out_start b)).
      eapply StronglySorted_mono; [|apply (arraySort_by_key_sorted a_start)].
      intros a b Hab. unfold toOutput, formatIsoOffset. simpl in *. lia.
    + simpl. by rewrite length_map.
Qed.

(** For a request that passes the schema, the instants that a success
    formats lie between the start and the end of the horizon. *)
Lemma schedule_output_instants now input out kpis :
  inputSchema input →
  schedule now input = Some (Success out kpis) →
  ∀ o, o ∈ out →
    h_start (horizon input) ≤ out_start o ∧ out_start o ≤ out_end o
    ∧ out_end o ≤ h_end (horizon input).
Proof.
  intros Hschema [[_ ->]|(all & Hcore & ->)]%schedule_Success o Ho.
  - by apply elem_of_nil in Ho.
  - apply scheduleCore_Placed in Hcore as (st & Hrtc & _ & _ & <-).
    apply withinHorizon_reachable in Hrtc as [_ Hall];
      [|apply assignmentsTrack_initial|by apply withinHorizon_initial].
    apply list_elem_of_fmap in Ho as (a & -> & Ha).
    rewrite (elem_of_arraySort byAssignmentStart) in Ha.
    rewrite Forall_forall in Hall. specialize (Hall a Ha).
    unfold toOutput, formatIsoOffset. simpl in *. unfold parseIsoOffset in Hall.
    pose proof (Z.div_mod (h_end (horizon input) - h_start (horizon input)) 60000
                  ltac:(lia)).
    pose proof (Z.mod_pos_bound (h_end (horizon input) - h_start (horizon input)) 60000
                  ltac:(lia)).
    lia.
Qed.

(** ** Failure detail *)




(** Both reasons occur: a step that no resource can carry out fails with
    "No eligible resources", a step longer than every window with
    "Cannot place operation", and the first [why] line is the label of the
    step. *)
Lemma failure_reasons_occur :
  (∃ why, schedule frozenClock missingCapabilityInput
          = Some (Failure "No eligible resources" why)
          ∧ head why
            = Some "Product P9, step 0 (weld): No resource has required capability")
  ∧ ∃ why, schedule frozenClock tooLongInput
           = Some (Failure "Cannot place operation" why)
           ∧ head why
             = Some "Product P1, step 0 (c): No available time slot found on eligible resources".
Proof.
  split; eexists; (split; [vm_compute; reflexivity|reflexivity]).
Qed.

(** ** Precedence needs unique product ids *)

(** C4 as stated fails when two products share an id: the request
    [duplicateIdInput] passes the schema and is scheduled with success, with
    an assignment of step 0 of product P at minutes 15..25 and one of step 1
    at minutes 10..15, so that step 1 starts before that step 0 ends. *)
Lemma precedence_violated_with_duplicate_ids :
  ∃ a b,
    inputSchema duplicateIdInput
    ∧ scheduleCore frozenClock duplicateIdInput = Some (Placed duplicateIdPlaced)
    ∧ a ∈ duplicateIdPlaced ∧ b ∈ duplicateIdPlaced
    ∧ a_productId a = a_productId b ∧ a_stepIndex b = S (a_stepIndex a)
    ∧ (a_start a, a_end a) = (15, 25) ∧ (a_start b, a_end b) = (10, 15)
    ∧ a_start b < a_end a.
Proof.
  exists {| a_productId := "P"; a_productFamily := "A"; a_stepIndex := 0;
            a_operationName := "c"; a_resource := "R"; a_start := 15; a_end := 25 |},
         {| a_productId := "P"; a_productFamily := "A"; a_stepIndex := 1;
            a_operationName := "c"; a_resource := "R"; a_start := 10; a_end := 15 |}.
  split_and!.
  - unfold inputSchema. simpl. split_and!; [lia| |apply map_Forall_empty| |by eexists].
    + repeat constructor; simpl; try done; lia.
    + repeat constructor; simpl; try done; lia.
  - vm_compute. reflexivity.
  - right. right. left.
  - right. left.
  - reflexivity.
  - reflexivity.
  - reflexivity.
  - reflexivity.
  - simpl. lia.
Qed.

(** ** The further properties at work on the sample requests *)



Lemma normalizeInput_calendar_witness :
  ∃ resource,
    JsMap.get "R" (n_resources (normalizeInput calendarGapInput)) = Some resource
    ∧ ∃ r, r ∈ resources calendarGapInput ∧ r_id r = "R" ∧ nr_id resource = "R"
           ∧ nr_capabilities resource = list_to_set (r_capabilities r)
           ∧ Forall (λ w, 0 ≤ i_start w ∧ i_start w < i_end w
                          ∧ i_end w ≤ horizonEnd (normalizeInput calendarGapInput))
                    (nr_calendar resource)
           ∧ StronglySorted separated (nr_calendar resource)
           ∧ ∀ x, covered (nr_calendar resource) x
                  ↔ 0 ≤ x < horizonEnd (normalizeInput calendarGapInput)
                    ∧ ∃ se, se ∈ r_calendar r
                            ∧ parseIsoOffset se.1 (h_start (horizon calendarGapInput)) ≤ x
                              < parseIsoOffset se.2 (h_start (horizon calendarGapInput)).
Proof.
  eexists. split; [reflexivity|].
  apply (normalizeInput_calendar calendarGapInput "R"). reflexivity.
Defined.

Lemma schedule_assignment_origin_witness :
  scheduleCore frozenClock insertionInput = Some (Placed insertionPlaced)
  ∧ ∀ a, a ∈ insertionPlaced →
      ∃ p op, p ∈ products insertionInput
              ∧ p_id p = a_productId a ∧ p_family p = a_productFamily a
              ∧ p_route p !! a_stepIndex a = Some op
              ∧ op_capability op = a_operationName a
              ∧ a_end a = a_start a + duration_minutes op.
Proof.
  assert (Hrun : scheduleCore frozenClock insertionInput = Some (Placed insertionPlaced))
    by (vm_compute; reflexivity).
  split; [exact Hrun|].
  exact (schedule_assignment_origin frozenClock insertionInput insertionPlaced Hrun).
Defined.

Lemma schedule_eligibility_witness :
  scheduleCore frozenClock insertionInput = Some (Placed insertionPlaced)
  ∧ ∀ a, a ∈ insertionPlaced →
      ∃ r, r ∈ resources insertionInput ∧ r_id r = a_resource a
           ∧ a_operationName a ∈ r_capabilities r.
Proof.
  assert (Hrun : scheduleCore frozenClock insertionInput = Some (Placed insertionPlaced))
    by (vm_compute; reflexivity).
  split; [exact Hrun|].
  exact (schedule_eligibility frozenClock insertionInput insertionPlaced Hrun).
Defined.

Lemma schedule_failure_kinds_witness :
  schedule frozenClock missingCapabilityInput
  = Some (Failure "No eligible resources"
            ["Product P9, step 0 (weld): No resource has required capability"])
  ∧ ("No eligible resources" = "Time limit exceeded"
     ∨ "No eligible resources" = "No eligible resources"
     ∨ "No eligible resources" = "Cannot place operation"
     ∨ ("No eligible resources" = "Validation failed: overlap detected"
        ∧ ¬ inputSchema missingCapabilityInput)).
Proof.
  assert (Hrun : schedule frozenClock missingCapabilityInput
                 = Some (Failure "No eligible resources"
                           ["Product P9, step 0 (weld): No resource has required capability"]))
    by (vm_compute; reflexivity).
  split; [exact Hrun|].
  exact (schedule_failure_kinds frozenClock missingCapabilityInput _ _ Hrun).
Defined.

Lemma schedule_single_window_containment_witness :
  inputSchema insertionInput
  ∧ Forall (λ r, length (r_calendar r) = 1%nat) (resources insertionInput)
  ∧ scheduleCore frozenClock insertionInput = Some (Placed insertionPlaced)
  ∧ ∀ a, a ∈ insertionPlaced →
      ∃ r se, r ∈ resources insertionInput ∧ r_id r = a_resource a ∧ r_calendar r = [se]
              ∧ Z.max 0 (parseIsoOffset se.1 (h_start (horizon insertionInput)))
                ≤ a_start a
              ∧ a_end a
                ≤ Z.min (parseIsoOffset (h_end (horizon insertionInput))
                                        (h_start (horizon insertionInput)))
                        (parseIsoOffset se.2 (h_start (horizon insertionInput))).
Proof.
  assert (Hone : Forall (λ r, length (r_calendar r) = 1%nat) (resources insertionInput))
    by (repeat constructor).
  assert (Hrun : scheduleCore frozenClock insertionInput = Some (Placed insertionPlaced))
    by (vm_compute; reflexivity).
  split; [exact inputSchema_insertionInput|]. split; [exact Hone|]. split; [exact Hrun|].
  exact (schedule_single_window_containment frozenClock insertionInput insertionPlaced
           inputSchema_insertionInput Hone Hrun).
Defined.

Lemma schedule_time_limit_witness :
  routeKeys calendarGapInput ≠ []
  ∧ slowClock 1%nat
    > slowClock 0%nat
      + default 30 (time_limit_seconds <$> settings calendarGapInput) * 1000
  ∧ schedule slowClock calendarGapInput
    = Some (Failure "Time limit exceeded"
              ["settings.time_limit_seconds reached before completing schedule"]).
Proof.
  assert (Hops : routeKeys calendarGapInput ≠ []) by (vm_compute; discriminate).
  assert (Hlate : slowClock 1%nat
                  > slowClock 0%nat
                    + default 30 (time_limit_seconds <$> settings calendarGapInput) * 1000)
    by (vm_compute; reflexivity).
  split; [exact Hops|]. split; [exact Hlate|].
  exact (proj2 (schedule_time_limit slowClock calendarGapInput) Hops Hlate).
Defined.

Lemma schedule_makespan_bound_witness :
  ∃ out kpis,
    inputSchema insertionInput
    ∧ schedule frozenClock insertionInput = Some (Success out kpis)
    ∧ 0 ≤ makespan_minutes kpis
      ≤ Z.max 0 (parseIsoOffset (h_end (horizon insertionInput))
                                (h_start (horizon insertionInput))).
Proof.
  destruct (denormalizeResult_Success insertionPlaced
              (horizonStart (normalizeInput insertionInput))
              (n_products (normalizeInput insertionInput))
              (n_resources (normalizeInput insertionInput))
              (changeoverMatrix (normalizeInput insertionInput)))
    as (out & kpis & Hres).
  assert (Hrun : schedule frozenClock insertionInput = Some (Success out kpis)).
  { unfold schedule.
    replace (scheduleCore frozenClock insertionInput) with (Some (Placed insertionPlaced))
      by (vm_compute; reflexivity).
    cbn [mbind option_bind]. by rewrite Hres. }
  exists out, kpis. split; [exact inputSchema_insertionInput|]. split; [exact Hrun|].
  exact (schedule_makespan_bound frozenClock insertionInput out kpis
           inputSchema_insertionInput Hrun).
Defined.

Lemma schedule_missing_capability_witness :
  NoDup (r_id <$> resources missingCapabilityInput)
  ∧ NoDup (p_id <$> products missingCapabilityInput)
  ∧ (∃ p op, p ∈ products missingCapabilityInput ∧ op ∈ p_route p
             ∧ ∀ r, r ∈ resources missingCapabilityInput →
                    op_capability op ∉ r_capabilities r)
  ∧ ∀ out kpis, schedule frozenClock missingCapabilityInput ≠ Some (Success out kpis).
Proof.
  assert (Hrids : NoDup (r_id <$> resources missingCapabilityInput)).
  { simpl. apply NoDup_cons. split; [|apply NoDup_singleton].
    intros Hin%list_elem_of_singleton. discriminate. }
  assert (Hpids : NoDup (p_id <$> products missingCapabilityInput))
    by (simpl; apply NoDup_singleton).
  assert (Hmiss : ∃ p op, p ∈ products missingCapabilityInput ∧ op ∈ p_route p
                          ∧ ∀ r, r ∈ resources missingCapabilityInput →
                                 op_capability op ∉ r_capabilities r).
  { eexists _, _. split; [left|]. split; [left|].
    intros r Hr Hcap. simpl in Hr.
    apply elem_of_cons in Hr as [->|Hr];
      [|apply list_elem_of_singleton in Hr as ->];
      simpl in Hcap; apply list_elem_of_singleton in Hcap; discriminate. }
  split; [exact Hrids|]. split; [exact Hpids|]. split; [exact Hmiss|].
  exact (proj2 (schedule_missing_capability frozenClock missingCapabilityInput
                  Hrids Hpids) Hmiss).
Defined.

Lemma schedule_clock_independent_witness :
  (∀ k, (1 ≤ k ≤ length (routeKeys insertionInput))%nat →
     frozenClock k
     ≤ frozenClock 0%nat
       + default 30 (time_limit_seconds <$> settings insertionInput) * 1000)
  ∧ (∀ k, (1 ≤ k ≤ length (routeKeys insertionInput))%nat →
       tickingClock k
       ≤ tickingClock 0%nat
         + default 30 (time_limit_seconds <$> settings insertionInput) * 1000)
  ∧ schedule frozenClock insertionInput = schedule tickingClock insertionInput.
Proof.
  assert (H1 : ∀ k, (1 ≤ k ≤ length (routeKeys insertionInput))%nat →
                 frozenClock k
                 ≤ frozenClock 0%nat
                   + default 30 (time_limit_seconds <$> settings insertionInput) * 1000)
    by (intros k _; unfold frozenClock; simpl; lia).
  assert (H2 : ∀ k, (1 ≤ k ≤ length (routeKeys insertionInput))%nat →
                 tickingClock k
                 ≤ tickingClock 0%nat
                   + default 30 (time_limit_seconds <$> settings insertionInput) * 1000)
    by (intros k Hk; unfold tickingClock; simpl in *; lia).
  split; [exact H1|]. split; [exact H2|].
  exact (schedule_clock_independent frozenClock tickingClock insertionInput H1 H2).
Defined.

Lemma canFitInWindow_spec_witness :
  safeInteger 0 ∧ safeInteger 100 ∧ safeInteger 20 ∧ safeInteger 10
  ∧ safeInteger (Z.max 0 10 + 20)
  ∧ canFitInWindow {| i_start := 0; i_end := 100 |} 20 10 = Some 10
  ∧ match canFitInWindow {| i_start := 0; i_end := 100 |} 20 10 with
    | Some s =>
        0 ≤ s ∧ 10 ≤ s ∧ s + 20 ≤ 100
        ∧ safeInteger s ∧ safeInteger (s + 20)
        ∧ ∀ s', 0 ≤ s' → 10 ≤ s' → s ≤ s'
    | None => ∀ s', 0 ≤ s' → 10 ≤ s' → ¬ s' + 20 ≤ 100
    end.
Proof.
  assert (H0 : safeInteger 0) by (unfold safeInteger; lia).
  assert (H100 : safeInteger 100) by (unfold safeInteger; lia).
  assert (H20 : safeInteger 20) by (unfold safeInteger; lia).
  assert (H10 : safeInteger 10) by (unfold safeInteger; lia).
  assert (Hsum : safeInteger (Z.max 0 10 + 20)) by (unfold safeInteger; lia).
  split; [exact H0|]. split; [exact H100|]. split; [exact H20|]. split; [exact H10|].
  split; [exact Hsum|]. split; [reflexivity|].
  exact (canFitInWindow_spec {| i_start := 0; i_end := 100 |} 20 10 H0 H100 H20 H10 Hsum).
Defined.

Lemma schedule_assigns_each_step_once_witness :
  NoDup (p_id <$> products insertionInput)
  ∧ scheduleCore frozenClock insertionInput = Some (Placed insertionPlaced)
  ∧ assignedStep <$> insertionPlaced ≡ₚ routeSteps insertionInput
  ∧ NoDup (assignmentKey <$> insertionPlaced)
  ∧ ∀ p k op, p ∈ products insertionInput → p_route p !! k = Some op →
      ∃ a, a ∈ insertionPlaced
           ∧ assignedStep a
             = (p_id p, k, p_family p, op_capability op, duration_minutes op)
           ∧ ∀ a', a' ∈ insertionPlaced → assignmentKey a' = (p_id p, k) → a' = a.
Proof.
  assert (Hids : NoDup (p_id <$> products insertionInput)).
  { simpl. apply NoDup_cons. split; [|apply NoDup_singleton].
    intros Hin%list_elem_of_singleton. discriminate. }
  assert (Hrun : scheduleCore frozenClock insertionInput = Some (Placed insertionPlaced))
    by (vm_compute; reflexivity).
  split; [exact Hids|]. split; [exact Hrun|].
  exact (schedule_assigns_each_step_once frozenClock insertionInput insertionPlaced
           Hids Hrun).
Defined.

Lemma schedule_output_listing_witness :
  ∃ out kpis,
    NoDup (p_id <$> products insertionInput)
    ∧ schedule frozenClock insertionInput = Some (Success out kpis)
    ∧ outputStep <$> out ≡ₚ listedSteps insertionInput
    ∧ (∀ o, o ∈ out →
         ∃ r, r ∈ resources insertionInput ∧ r_id r = out_resource o
              ∧ out_operation o ∈ r_capabilities r)
    ∧ StronglySorted (λ a b, out_start a ≤ out_start b) out
    ∧ total_jobs kpis = Z.of_nat (length (products insertionInput)).
Proof.
  assert (Hids : NoDup (p_id <$> products insertionInput)).
  { simpl. apply NoDup_cons. split; [|apply NoDup_singleton].
    intros Hin%list_elem_of_singleton. discriminate. }
  destruct (denormalizeResult_Success insertionPlaced
              (horizonStart (normalizeInput insertionInput))
              (n_products (normalizeInput insertionInput))
              (n_resources (normalizeInput insertionInput))
              (changeoverMatrix (normalizeInput insertionInput)))
    as (out & kpis & Hres).
  assert (Hrun : schedule frozenClock insertionInput = Some (Success out kpis)).
  { unfold schedule.
    replace (scheduleCore frozenClock insertionInput) with (Some (Placed insertionPlaced))
      by (vm_compute; reflexivity).
    cbn [mbind option_bind]. by rewrite Hres. }
  exists out, kpis. split; [exact Hids|]. split; [exact Hrun|].
  exact (schedule_output_listing frozenClock insertionInput out kpis Hids Hrun).
Defined.

Lemma schedule_changeover_in_order_witness :
  inputSchema changeoverInput
  ∧ scheduleCore frozenClock changeoverInput = Some (Placed changeoverPlaced)
  ∧ ∃ prev next,
      changeoverPlaced !! 0%nat = Some prev ∧ changeoverPlaced !! 1%nat = Some next
      ∧ adjacentOn "R" changeoverPlaced prev next
      ∧ placedBefore changeoverPlaced prev next
      ∧ a_productFamily prev ≠ a_productFamily next
      ∧ getChangeoverTime (Some (a_productFamily prev)) (a_productFamily next)
                          (changeover_matrix_minutes changeoverInput) = 30
      ∧ a_end prev
        + getChangeoverTime (Some (a_productFamily prev)) (a_productFamily next)
                            (changeover_matrix_minutes changeoverInput)
        ≤ a_start next.
Proof.
  assert (Hschema : inputSchema changeoverInput).
  { unfold inputSchema. simpl. split_and!; [lia| | | |by eexists].
    - repeat constructor; simpl; try done; lia.
    - by apply map_Forall_singleton.
    - repeat constructor; simpl; try done; lia. }
  assert (Hrun : scheduleCore frozenClock changeoverInput = Some (Placed changeoverPlaced))
    by (vm_compute; reflexivity).
  split; [exact Hschema|]. split; [exact Hrun|].
  eexists _, _. split; [reflexivity|]. split; [reflexivity|].
  assert (Hadj : adjacentOn "R" changeoverPlaced
                   {| a_productId := "P1"; a_productFamily := "A"; a_stepIndex := 0;
                      a_operationName := "c"; a_resource := "R";
                      a_start := 0; a_end := 60 |}
                   {| a_productId := "P2"; a_productFamily := "B"; a_stepIndex := 0;
                      a_operationName := "c"; a_resource := "R";
                      a_start := 90; a_end := 150 |})
    by (unfold adjacentOn; vm_compute; left).
  assert (Hpb : placedBefore changeoverPlaced
                  {| a_productId := "P1"; a_productFamily := "A"; a_stepIndex := 0;
                     a_operationName := "c"; a_resource := "R";
                     a_start := 0; a_end := 60 |}
                  {| a_productId := "P2"; a_productFamily := "B"; a_stepIndex := 0;
                     a_operationName := "c"; a_resource := "R";
                     a_start := 90; a_end := 150 |})
    by (exists 0%nat, 1%nat; split; [lia|split; reflexivity]).
  split; [exact Hadj|]. split; [exact Hpb|].
  split; [simpl; discriminate|]. split; [vm_compute; reflexivity|].
  exact (schedule_changeover_in_order frozenClock changeoverInput changeoverPlaced
           Hschema Hrun "R" _ _ Hadj Hpb).
Defined.

